(** * fastify-multipart: the buffered parser, the parts iterator and the
      temp-file cleanup, embedded from index.js and from its second copy.

    The repository holds two copies of the plugin.  They share most of their
    text; where they differ the embedding takes a [version] argument:
    - [IndexJs]  is src/index.js,
    - [Part006]  is src/unnamed/part_006.

    The multipart tokenizer (busboy), the Node streams and the file system are
    collaborators of the plugin.  The plugin is a set of event handlers, so the
    embedding is a transition system: the state holds the variables the
    handlers close over, one event is one handler invocation. *)

From Stdlib Require Import ZArith String Ascii Bool List Lia.
From Stdlib Require Init.Byte.
From stdpp Require Import base option list gmap strings pretty.

Import ListNotations.
Local Open Scope string_scope.
Local Open Scope list_scope.
Local Open Scope Z_scope.

(** ** JavaScript helpers *)

Module JS.

(** [s.includes(needle)] on strings. *)
Fixpoint includes (needle hay : string) : bool :=
  String.prefix needle hay ||
  match hay with
  | EmptyString => false
  | String _ rest => includes needle rest
  end.

(** [o || d] where [o] is a string or undefined: the empty string is falsy. *)
Definition or_default (o : option string) (d : string) : string :=
  match o with
  | Some (String c s) => String c s
  | Some EmptyString | None => d
  end.

(** A promise settles once; later [resolve]/[reject] calls are ignored. *)
Inductive promise (R E : Type) : Type :=
| Pending
| Resolved (r : R)
| Rejected (e : E).
Arguments Pending {R E}.
Arguments Resolved {R E} r.
Arguments Rejected {R E} e.

Definition resolve {R E} (r : R) (p : promise R E) : promise R E :=
  match p with Pending => Resolved r | _ => p end.

Definition reject {R E} (e : E) (p : promise R E) : promise R E :=
  match p with Pending => Rejected e | _ => p end.

End JS.
Import JS.

(** ** Errors *)

(** The five [createError] constructors of the plugin, the error objects that
    come from the tokenizer or from a stream ([Foreign], with [err.message]),
    and the TypeError the engine raises for a property access on null. *)
Inductive error : Type :=
| FileSizeLimit (arg : string)
| FilesLimit
| FieldsLimit
| InvalidMultipartContentType
| InvalidPart
| Foreign (message : option string)
| TypeError.

(** HTTP status code given to [createError]. *)
Definition statusCode (e : error) : option Z :=
  match e with
  | FileSizeLimit _ | FilesLimit | FieldsLimit => Some 413
  | InvalidMultipartContentType | InvalidPart => Some 400
  | Foreign _ | TypeError => None
  end.

(** ** Paths

    [path.normalize] and [path.join] of Node's [path] module, POSIX flavour. *)

Module Path.

(** The pieces of a path between its separators. *)
Fixpoint split (p : string) : list string :=
  match p with
  | EmptyString => [EmptyString]
  | String c rest =>
      if Ascii.eqb c "/" then EmptyString :: split rest
      else match split rest with
           | seg :: segs => String c seg :: segs
           | [] => [String c EmptyString]
           end
  end.

Fixpoint ends_with_slash (p : string) : bool :=
  match p with
  | EmptyString => false
  | String c EmptyString => Ascii.eqb c "/"
  | String _ rest => ends_with_slash rest
  end.

Definition is_absolute (p : string) : bool :=
  match p with
  | String c _ => Ascii.eqb c "/"
  | EmptyString => false
  end.

(** One segment on the segments kept so far, last one first: empty segments
    and "." are dropped, ".." removes the segment before it, and is kept only
    where the path may climb above its start. *)
Definition push (allowAboveRoot : bool) (kept : list string) (seg : string)
  : list string :=
  if String.eqb seg "" || String.eqb seg "." then kept
  else if String.eqb seg ".." then
    match kept with
    | top :: below =>
        if String.eqb top ".." then (if allowAboveRoot then seg :: kept else kept)
        else below
    | [] => if allowAboveRoot then [seg] else []
    end
  else seg :: kept.

(** The segments of the normalized path, first one first. *)
Definition segments (p : string) : list string :=
  rev (foldl (push (negb (is_absolute p))) [] (split p)).

Definition unsplit (segs : list string) : string :=
  match segs with
  | [] => ""
  | seg :: rest => foldl (fun acc x => acc +:+ "/" +:+ x) seg rest
  end.

Definition normalize (p : string) : string :=
  if String.eqb p "" then "." else
  let body := unsplit (segments p) in
  if String.eqb body "" then
    (if is_absolute p then "/" else if ends_with_slash p then "./" else ".")
  else
    (if is_absolute p then "/" else "") +:+ body +:+
    (if ends_with_slash p then "/" else "").

(** [path.join(a, b)]: the non-empty arguments joined by a separator, then
    normalized. *)
Definition join (a b : string) : string :=
  if String.eqb a "" then (if String.eqb b "" then "." else normalize b)
  else if String.eqb b "" then normalize a
  else normalize (a +:+ "/" +:+ b).

(** The normalized path without a trailing separator. *)
Definition trimmed (p : string) : string :=
  (if is_absolute p then "/" else "") +:+ unsplit (segments p).

(** The directory a path names and the directories above it, as normalized
    paths, outermost first; the root and the working directory are not
    listed. *)
Definition chain (p : string) : list string :=
  (fun k => (if is_absolute p then "/" else "") +:+ unsplit (take k (segments p)))
    <$> seq 1 (length (segments p)).

End Path.

(** ** The file system *)

Module Fs.

Record filesystem : Type := {
  dirs : gset string;
  contents : gmap string (list Byte.byte)
}.

Definition empty : filesystem := {| dirs := ∅; contents := ∅ |}.

(** A path names a file by its spelling, and a directory by the spelling it
    was created under or by its normalized path.  The plugin itself touches
    the temp directory as configured and the paths [path.join] builds. *)
Definition is_dir (p : string) (d : filesystem) : bool :=
  bool_decide (p ∈ dirs d) || bool_decide (Path.trimmed p ∈ dirs d).

Definition existsSync (p : string) (d : filesystem) : bool :=
  is_dir p d || bool_decide (is_Some (contents d !! p)).

(** The directories [fs.mkdirSync(p, { recursive: true })] makes sure of: the
    one [p] names and every directory above it.  A directory is known by the
    spelling it was asked for and by its normalized path. *)
Definition made_dirs (p : string) : gset string :=
  list_to_set (p :: Path.chain p).

(** [fs.mkdirSync(p, { recursive: true })], when it returns. *)
Definition mkdirSync (p : string) (d : filesystem) : filesystem :=
  {| dirs := made_dirs p ∪ dirs d; contents := contents d |}.

(** [fs.createWriteStream(p)] returns a stream at once and opens the file
    afterwards, with flag 'w'.  This is the open when it succeeds: the file
    exists and is empty.  When it fails nothing changes. *)
Definition createWriteStream (p : string) (d : filesystem) : filesystem :=
  {| dirs := dirs d; contents := <[p := []]> (contents d) |}.

(** A chunk flushed by an open write stream; the stream writes through its
    descriptor, so a path unlinked in the meantime is not created again. *)
Definition write (p : string) (chunk : list Byte.byte) (d : filesystem) : filesystem :=
  {| dirs := dirs d; contents := alter (fun c => c ++ chunk) p (contents d) |}.

(** [fs.statSync(p).size]: throws (here [None]) when the path is absent. *)
Definition statSync_size (p : string) (d : filesystem) : option Z :=
  (fun c => Z.of_nat (length c)) <$> contents d !! p.

(** [fs.promises.unlink(p)]: rejects (here [Some ENOENT]) when absent. *)
Definition unlink (p : string) (d : filesystem) : option error * filesystem :=
  match contents d !! p with
  | Some _ => (None, {| dirs := dirs d; contents := delete p (contents d) |})
  | None => (Some (Foreign (Some "ENOENT")), d)
  end.

End Fs.
Import Fs.

(** ** Data model *)

Inductive version : Type := IndexJs | Part006.

(** [config]: the merged options; only what the plugin itself reads.  The
    other limits are handed to the tokenizer untouched. *)
Record config : Type := {
  limits_fileSize : Z;
  tempDir : string
}.

(** The [info] object the tokenizer passes with a 'file' event; a property may
    be missing (undefined) or empty. *)
Record info : Type := {
  info_filename : option string;
  info_encoding : option string;
  info_mimeType : option string
}.

(** [fileObj], built in the write stream's 'finish' handler.  [toBuffer],
    [createReadStream] and the [size] getter close over [_tempPath] only and
    are functions of the file system below. *)
Record fileObj : Type := {
  fieldname : string;
  filename : string;
  encoding : string;
  mimetype : string;
  _tempPath : string
}.

(** The [size] getter: [try { return fs.statSync(p).size } catch { return 0 }]. *)
Definition size (f : fileObj) (d : filesystem) : Z :=
  match statSync_size (_tempPath f) d with
  | Some n => n
  | None => 0
  end.

(** [toBuffer()] is [fs.promises.readFile(p)]: rejects when the path is gone. *)
Definition toBuffer (f : fileObj) (d : filesystem) : promise (list Byte.byte) error :=
  match contents d !! _tempPath f with
  | Some c => Resolved c
  | None => Rejected (Foreign (Some "ENOENT"))
  end.

(** *** The [fields] object

    [fields] is a plain object literal, so a property read that finds no own
    property falls through to its prototype: Object.prototype, until a
    '__proto__' field puts an array in its place.

    A value is a submitted string, a value inherited from Object.prototype
    under a name (under '__proto__': that prototype object itself), the
    length of the array that became the prototype, or a value inherited from
    Array.prototype. *)

Inductive atom : Type :=
| Str (s : string)
| Inherited (name : string)
| Num (n : Z)
| ArrayInherited (name : string).

Inductive fieldval : Type :=
| Scalar (a : atom)
| Repeated (l : list atom).

Definition object_prototype_names : list string :=
  [ "constructor"; "hasOwnProperty"; "isPrototypeOf"; "propertyIsEnumerable";
    "toLocaleString"; "toString"; "valueOf"; "__proto__";
    "__defineGetter__"; "__defineSetter__"; "__lookupGetter__"; "__lookupSetter__" ].

Definition inherited (k : string) : bool :=
  bool_decide (k ∈ object_prototype_names).

(** The string-keyed properties of Array.prototype (ECMAScript 2023). *)
Definition array_prototype_names : list string :=
  [ "at"; "concat"; "constructor"; "copyWithin"; "entries"; "every"; "fill";
    "filter"; "find"; "findIndex"; "findLast"; "findLastIndex"; "flat";
    "flatMap"; "forEach"; "includes"; "indexOf"; "join"; "keys"; "lastIndexOf";
    "map"; "pop"; "push"; "reduce"; "reduceRight"; "reverse"; "shift"; "slice";
    "some"; "sort"; "splice"; "toLocaleString"; "toReversed"; "toSorted";
    "toSpliced"; "toString"; "unshift"; "values"; "with" ].

(** The element an array holds under the property name [k], when [k] is the
    decimal spelling of one of its indices. *)
Definition element (l : list atom) (k : string) : option atom :=
  i ← list_find (fun i : nat => pretty (Z.of_nat i) = k) (seq 0 (length l));
  l !! i.1.

(** [fields[k]]; [None] is undefined.  No own property is ever called
    '__proto__' (the name is an accessor of Object.prototype), so the map keeps
    under that key the array that has replaced the prototype, if any: this is
    what [fields['__proto__']] then evaluates to.  The lookup goes through the
    own properties, then that array (its elements and length), then
    Array.prototype, then Object.prototype. *)
Definition get (fields : gmap string fieldval) (k : string) : option fieldval :=
  match fields !! k with
  | Some v => Some v
  | None =>
      match fields !! "__proto__" with
      | Some (Repeated l) =>
          if String.eqb k "length" then Some (Scalar (Num (Z.of_nat (length l))))
          else match element l k with
               | Some a => Some (Scalar a)
               | None =>
                   if bool_decide (k ∈ array_prototype_names)
                   then Some (Scalar (ArrayInherited k))
                   else if inherited k then Some (Scalar (Inherited k)) else None
               end
      | _ => if inherited k then Some (Scalar (Inherited k)) else None
      end
  end.

Definition truthy (v : option fieldval) : bool :=
  match v with
  | None => false
  | Some (Scalar (Str s)) => negb (String.eqb s "")
  | Some (Scalar (Num n)) => negb (n =? 0)
  | Some (Scalar (Inherited _)) => true
  | Some (Scalar (ArrayInherited _)) => true
  | Some (Repeated _) => true
  end.

(** The 'field' handler.  It never throws.  For the name '__proto__' the
    test reads the prototype, an object; the first assignment goes through
    the accessor and makes the one-element array the prototype of [fields];
    the push, and every later '__proto__' field, appends to that array. *)
Definition on_field (fields : gmap string fieldval) (k value : string)
  : option (gmap string fieldval) :=
  Some
    (if truthy (get fields k) then
       let arr :=
         match get fields k with
         | Some (Repeated l) => l
         | Some (Scalar a) => [a]
         | None => []
         end in
       <[k := Repeated (arr ++ [Str value])]> fields
     else
       <[k := Scalar (Str value)]> fields).

(** The own properties of [fields], which is all a caller that enumerates or
    serializes the object sees. *)
Definition own (fields : gmap string fieldval) : gmap string fieldval :=
  delete "__proto__" fields.

(** [{ files, fields, _tempFiles: tempFiles }] *)
Record parseResult : Type := {
  files : list fileObj;
  fields : gmap string fieldval;
  _tempFiles : list string
}.

(** The request: the content-type header, the two symbol-keyed decorations
    (null until assigned) and how often [request.raw] was piped.

    [bb_throws] is what the tokenizer's constructor, [busboy({ headers, ... })],
    does with the headers of this request: it returns a tokenizer ([None]) or
    throws an Error with a message ([Some message]), as it does for a
    content type it cannot parse or a multipart type without a boundary.
    The constructor belongs to the busboy package; which headers it refuses
    is not decided in the sources. *)
Record request : Type := {
  content_type : option string;
  bb_throws : option (option string);
  kMultipart : option parseResult;
  kTempFiles : option (list string);
  raw_pipes : nat
}.

(** A request nothing was done with yet, with headers the tokenizer takes. *)
Definition fresh_request (ct : option string) : request :=
  {| content_type := ct; bb_throws := None; kMultipart := None;
     kTempFiles := None; raw_pipes := 0 |}.

(** [request.headers['content-type']?.includes('multipart/form-data')] *)
Definition is_multipart (r : request) : bool :=
  match content_type r with
  | Some h => includes "multipart/form-data" h
  | None => false
  end.

(** ** The buffered parser: [parseMultipart] *)

(** A write stream opens its file after [fs.createWriteStream] has returned.
    Until the open has succeeded it holds what is written to it; destroyed
    in that state ([Aborted]) it still waits for the open to end, and only
    then closes. *)
Inductive wstatus : Type :=
| Opening (held : list Byte.byte)
| Open
| Finished
| Aborted
| Destroyed
| Errored.

(** One write stream: what its 'finish' handler closes over, and its state. *)
Record sink : Type := {
  sink_obj : fileObj;
  sink_status : wstatus
}.

(** The variables of one [parseMultipart] call.  [bb] tells whether the
    tokenizer was created (and the request body piped into it); [outcome] is
    the returned promise. *)
Record pstate : Type := {
  req : request;
  bb : bool;
  st_files : list fileObj;
  st_fields : gmap string fieldval;
  tempFiles : list string;
  pendingFiles : Z;
  finished : bool;
  sinks : list sink;
  outcome : promise parseResult error;
  disk : filesystem
}.

(** What the tokenizer, the file streams and the write streams emit.  The n-th
    'file' event brings file stream n and creates write stream n.  [now] and
    [rnd] are [Date.now()] and [Math.random().toString(36).substring(7)].
    [EvWriteOpen] is the write stream's 'open': the file was opened.  A write
    stream whose open fails emits 'error' instead. *)
Inductive event : Type :=
| EvFile (fieldname : string) (i : info) (now : Z) (rnd : string)
| EvField (fieldname value : string)
| EvFinish
| EvFilesLimit
| EvFieldsLimit
| EvError (message : option string)
| EvFileData (n : nat) (chunk : list Byte.byte)
| EvFileLimit (n : nat)
| EvWriteOpen (n : nat)
| EvWriteFinish (n : nat)
| EvWriteError (n : nat) (message : option string).

(** [path.join(dir, name)] *)
Definition path_join (dir name : string) : string := Path.join dir name.

Definition tempFilePath (cfg : config) (now : Z) (rnd : string) : string :=
  path_join (tempDir cfg) ("upload_" +:+ pretty now +:+ "_" +:+ rnd).

(** The call itself: the content-type guard, then the tokenizer and the pipe.
    An exception thrown inside the promise executor, here by the tokenizer's
    constructor, rejects the promise; the lines after it do not run. *)
Definition parseMultipart (r : request) (d : filesystem) : pstate :=
  if negb (is_multipart r) then
    {| req := r; bb := false; st_files := []; st_fields := ∅; tempFiles := [];
       pendingFiles := 0; finished := false; sinks := [];
       outcome := Rejected InvalidMultipartContentType; disk := d |}
  else
    match bb_throws r with
    | Some message =>
        {| req := r; bb := false; st_files := []; st_fields := ∅; tempFiles := [];
           pendingFiles := 0; finished := false; sinks := [];
           outcome := Rejected (Foreign message); disk := d |}
    | None =>
        {| req := {| content_type := content_type r; bb_throws := bb_throws r;
                     kMultipart := kMultipart r;
                     kTempFiles := kTempFiles r; raw_pipes := S (raw_pipes r) |};
           bb := true; st_files := []; st_fields := ∅; tempFiles := [];
           pendingFiles := 0; finished := false; sinks := [];
           outcome := Pending; disk := d |}
    end.

(** The four lines both resolve sites share:
    [const result = { files, fields, _tempFiles: tempFiles };
     request[kMultipart] = result; request[kTempFiles] = tempFiles;
     resolve(result)]. *)
Definition complete (s : pstate) : pstate :=
  let result := {| files := st_files s; fields := st_fields s;
                   _tempFiles := tempFiles s |} in
  {| req := {| content_type := content_type (req s); bb_throws := bb_throws (req s);
               kMultipart := Some result;
               kTempFiles := Some (tempFiles s); raw_pipes := raw_pipes (req s) |};
     bb := bb s; st_files := st_files s; st_fields := st_fields s;
     tempFiles := tempFiles s; pendingFiles := pendingFiles s;
     finished := finished s; sinks := sinks s;
     outcome := resolve result (outcome s); disk := disk s |}.

Definition set_outcome (o : promise parseResult error) (s : pstate) : pstate :=
  {| req := req s; bb := bb s; st_files := st_files s; st_fields := st_fields s;
     tempFiles := tempFiles s; pendingFiles := pendingFiles s;
     finished := finished s; sinks := sinks s; outcome := o; disk := disk s |}.

Definition set_status (n : nat) (w : wstatus) (s : pstate) : pstate :=
  {| req := req s; bb := bb s; st_files := st_files s; st_fields := st_fields s;
     tempFiles := tempFiles s; pendingFiles := pendingFiles s;
     finished := finished s;
     sinks := alter (fun k => {| sink_obj := sink_obj k; sink_status := w |}) n (sinks s);
     outcome := outcome s; disk := disk s |}.

(** [bb.on('file', ...)] up to the registration of the stream handlers.  The
    new write stream has not opened its file yet. *)
Definition on_file (cfg : config) (s : pstate)
    (fieldname : string) (i : info) (now : Z) (rnd : string) : pstate :=
  let filename := or_default (info_filename i) "unnamed" in
  let encoding := or_default (info_encoding i) "7bit" in
  let mimetype := or_default (info_mimeType i) "application/octet-stream" in
  let d1 := if existsSync (tempDir cfg) (disk s) then disk s
            else mkdirSync (tempDir cfg) (disk s) in
  let p := tempFilePath cfg now rnd in
  {| req := req s; bb := bb s; st_files := st_files s; st_fields := st_fields s;
     tempFiles := tempFiles s ++ [p];
     pendingFiles := pendingFiles s + 1;
     finished := finished s;
     sinks := sinks s ++
       [{| sink_obj := {| fieldname := fieldname; filename := filename;
                          encoding := encoding; mimetype := mimetype;
                          _tempPath := p |};
           sink_status := Opening [] |}];
     outcome := outcome s; disk := d1 |}.

(** [writeStream.on('finish', ...)] *)
Definition on_write_finish (s : pstate) (n : nat) (f : fileObj) : pstate :=
  let s1 := set_status n Finished s in
  let s2 :=
    {| req := req s1; bb := bb s1; st_files := st_files s1 ++ [f];
       st_fields := st_fields s1; tempFiles := tempFiles s1;
       pendingFiles := pendingFiles s1 - 1; finished := finished s1;
       sinks := sinks s1; outcome := outcome s1; disk := disk s1 |} in
  if (pendingFiles s2 =? 0) && finished s2 then complete s2 else s2.

(** [bb.on('finish', ...)] *)
Definition on_finish (s : pstate) : pstate :=
  let s1 :=
    {| req := req s; bb := bb s; st_files := st_files s; st_fields := st_fields s;
       tempFiles := tempFiles s; pendingFiles := pendingFiles s;
       finished := true; sinks := sinks s; outcome := outcome s; disk := disk s |} in
  if pendingFiles s1 =? 0 then complete s1 else s1.

(** [file.on('limit', ...)]: only the second copy registers it. *)
Definition on_file_limit (v : version) (cfg : config) (s : pstate) (n : nat) (k : sink)
  : pstate :=
  match v with
  | IndexJs => s
  | Part006 =>
      let s1 := match sink_status k with
                | Opening _ => set_status n Aborted s
                | Open => set_status n Destroyed s
                | _ => s
                end in
      set_outcome
        (reject (FileSizeLimit ("File size exceeds limit of " +:+
                                pretty (limits_fileSize cfg) +:+ " bytes"))
                (outcome s1)) s1
  end.

(** [bb.on('error', ...)] *)
Definition on_error (v : version) (s : pstate) (message : option string) : pstate :=
  match v with
  | IndexJs => set_outcome (reject (Foreign message) (outcome s)) s
  | Part006 =>
      match message with
      | Some m =>
          if negb (String.eqb m "") && includes "File size limit exceeded" m
          then set_outcome (reject (FileSizeLimit m) (outcome s)) s
          else set_outcome (reject (Foreign message) (outcome s)) s
      | None => set_outcome (reject (Foreign message) (outcome s)) s
      end
  end.

Definition set_fields (fs : gmap string fieldval) (s : pstate) : pstate :=
  {| req := req s; bb := bb s; st_files := st_files s; st_fields := fs;
     tempFiles := tempFiles s; pendingFiles := pendingFiles s;
     finished := finished s; sinks := sinks s; outcome := outcome s;
     disk := disk s |}.

Definition set_disk (d : filesystem) (s : pstate) : pstate :=
  {| req := req s; bb := bb s; st_files := st_files s; st_fields := st_fields s;
     tempFiles := tempFiles s; pendingFiles := pendingFiles s;
     finished := finished s; sinks := sinks s; outcome := outcome s;
     disk := d |}.

(** One event.  [None]: the event cannot occur in this state (no tokenizer, a
    tokenizer event after its 'finish', a stream that does not exist, a write
    stream in a state that rules the event out: 'open' comes once and before
    'finish', 'finish' and 'error' exclude each other).

    The file stream is piped into the write stream: a chunk goes to the file
    when the file is open, is held when it is not yet, and is dropped once the
    write stream was destroyed or has failed.  When the open succeeds the
    held chunks are written; a stream destroyed before that leaves the file
    empty. *)
Definition step (v : version) (cfg : config) (s : pstate) (e : event) : option pstate :=
  if negb (bb s) then None else
  match e with
  | EvFile fieldname i now rnd =>
      if finished s then None else Some (on_file cfg s fieldname i now rnd)
  | EvField k value =>
      if finished s then None else
      fs ← on_field (st_fields s) k value; Some (set_fields fs s)
  | EvFinish =>
      if finished s then None else Some (on_finish s)
  | EvFilesLimit =>
      if finished s then None else Some (set_outcome (reject FilesLimit (outcome s)) s)
  | EvFieldsLimit =>
      if finished s then None else Some (set_outcome (reject FieldsLimit (outcome s)) s)
  | EvError message =>
      if finished s then None else Some (on_error v s message)
  | EvFileData n chunk =>
      k ← sinks s !! n;
      match sink_status k with
      | Opening held => Some (set_status n (Opening (held ++ chunk)) s)
      | Open => Some (set_disk (write (_tempPath (sink_obj k)) chunk (disk s)) s)
      | Finished => None
      | Aborted | Destroyed | Errored => Some s
      end
  | EvFileLimit n =>
      k ← sinks s !! n;
      match sink_status k with
      | Finished => None
      | _ => Some (on_file_limit v cfg s n k)
      end
  | EvWriteOpen n =>
      k ← sinks s !! n;
      match sink_status k with
      | Opening held =>
          Some (set_disk (write (_tempPath (sink_obj k)) held
                            (createWriteStream (_tempPath (sink_obj k)) (disk s)))
                         (set_status n Open s))
      | Aborted =>
          Some (set_disk (createWriteStream (_tempPath (sink_obj k)) (disk s))
                         (set_status n Destroyed s))
      | _ => None
      end
  | EvWriteFinish n =>
      k ← sinks s !! n;
      match sink_status k with
      | Open => Some (on_write_finish s n (sink_obj k))
      | _ => None
      end
  | EvWriteError n message =>
      k ← sinks s !! n;
      match sink_status k with
      | Opening _ | Open | Aborted =>
          Some (set_outcome (reject (Foreign message) (outcome s))
                            (set_status n Errored s))
      | _ => None
      end
  end.

Fixpoint run (v : version) (cfg : config) (s : pstate) (tr : list event) : option pstate :=
  match tr with
  | [] => Some s
  | e :: tr' => s' ← step v cfg s e; run v cfg s' tr'
  end.

(** [request.file()] and [request.files()].  In index.js both await a new
    [parseMultipart] call (see [parseMultipart]); the second copy reads the
    cached result and throws when there is none. *)
Definition files_Part006 (r : request) : error + list fileObj :=
  match kMultipart r with
  | Some res => inr (files res)
  | None => inl (Foreign (Some "Multipart data not parsed. Call parseMultipart() first."))
  end.

Definition file_Part006 (r : request) : error + option fileObj :=
  match kMultipart r with
  | Some res => inr (head (files res))
  | None => inl (Foreign (Some "Multipart data not parsed. Call parseMultipart() first."))
  end.

(** ** Cleanup *)

(** [filesToClean.map(p => fs.promises.unlink(p).catch(() => {}))]: every
    rejection is swallowed. *)
Definition unlink_all (paths : list string) (d : filesystem) : filesystem :=
  foldl (fun d p => snd (unlink p d)) d paths.

(** [cleanupTempFiles(tempFiles)]: [tempFiles || this[kTempFiles]], then the
    unguarded [.map].  An array argument, even an empty one, is truthy.  The
    function is async, so the TypeError comes out as a rejection. *)
Definition cleanupTempFiles (r : request) (arg : option (list string)) (d : filesystem)
  : promise unit error * filesystem :=
  let filesToClean := match arg with Some l => Some l | None => kTempFiles r end in
  match filesToClean with
  | None => (Rejected TypeError, d)
  | Some l => (Resolved tt, unlink_all l d)
  end.

(** The 'onResponse' hook. *)
Definition onResponse (r : request) (d : filesystem) : promise unit error * filesystem :=
  match kTempFiles r with
  | Some l => if (0 <? Z.of_nat (length l)) then cleanupTempFiles r None d
              else (Resolved tt, d)
  | None => (Resolved tt, d)
  end.

(** ** The streaming iterator: [parts] *)

Module Parts.

(** A queued part.  [stream] is the index of the file stream the part
    carries.  The second copy also stores [size: fileSize], read when the
    part is built.  index.js queues tokenizer errors as parts. *)
Inductive part : Type :=
| FilePart (fieldname filename encoding mimetype : string)
           (stream : nat) (size : option Z)
| FieldPart (fieldname value : string)
| ErrorPart (e : error).

(** The stream a file part exposes: what was written to it, whether it ended,
    and the error it was destroyed with.  [fileSize] is the handler's byte
    counter (second copy only). *)
Record pstream : Type := {
  fileSize : Z;
  written : list (list Byte.byte);
  ended : bool;
  destroyed : option error
}.

Record running : Type := {
  parts : list part;
  gen_finished : bool;
  gen_error : option error;
  streams : list pstream
}.

Inductive gstate : Type :=
| NotStarted (r : request)
| Running (s : running)
| Done.

Inductive sevent : Type :=
| SFile (fieldname : string) (i : info)
| SField (fieldname value : string)
| SFinish
| SError (message : option string)
| SFilesLimit
| SFieldsLimit
| SPartsLimit
| SData (n : nat) (chunk : list Byte.byte)
| SEnd (n : nat).

Definition set_stream (n : nat) (p : pstream) (s : running) : running :=
  {| parts := parts s; gen_finished := gen_finished s; gen_error := gen_error s;
     streams := <[n := p]> (streams s) |}.

Definition fail (e : error) (s : running) : running :=
  {| parts := parts s; gen_finished := true; gen_error := Some e;
     streams := streams s |}.

Definition push (p : part) (s : running) : running :=
  {| parts := parts s ++ [p]; gen_finished := gen_finished s;
     gen_error := gen_error s; streams := streams s |}.

(** [bb.on('file', ...)] *)
Definition on_file (v : version) (s : running) (fieldname : string) (i : info)
  : running :=
  let n := length (streams s) in
  let p := FilePart fieldname
             (or_default (info_filename i) "unnamed")
             (or_default (info_encoding i) "7bit")
             (or_default (info_mimeType i) "application/octet-stream")
             n
             (match v with IndexJs => None | Part006 => Some 0 end) in
  {| parts := parts s ++ [p]; gen_finished := gen_finished s;
     gen_error := gen_error s;
     streams := streams s ++
       [{| fileSize := 0; written := []; ended := false; destroyed := None |}] |}.

(** A chunk of file stream [n].  index.js hands the tokenizer's stream to the
    caller as it is.  The second copy counts, and past the limit destroys
    the tokenizer's stream with the error; that stream's 'error' handler
    then destroys the pass-through the part carries. *)
Definition on_data (v : version) (cfg : config) (s : running) (n : nat)
    (p : pstream) (chunk : list Byte.byte) : running :=
  match v with
  | IndexJs =>
      set_stream n {| fileSize := fileSize p; written := written p ++ [chunk];
                      ended := ended p; destroyed := destroyed p |} s
  | Part006 =>
      let fileSize' := fileSize p + Z.of_nat (length chunk) in
      if negb (limits_fileSize cfg =? 0) && (limits_fileSize cfg <? fileSize') then
        let e := FileSizeLimit (pretty fileSize' +:+ " bytes") in
        fail e (set_stream n {| fileSize := fileSize'; written := written p;
                                ended := ended p; destroyed := Some e |} s)
      else
        set_stream n {| fileSize := fileSize'; written := written p ++ [chunk];
                        ended := ended p; destroyed := destroyed p |} s
  end.

(** One tokenizer or stream event; [None] when it cannot occur: the
    generator body has not run or is over, or the stream does not exist, has
    ended or was destroyed. *)
Definition step (v : version) (cfg : config) (g : gstate) (e : sevent) : option gstate :=
  match g with
  | NotStarted _ | Done => None
  | Running s =>
      match e with
      | SFile fieldname i => Some (Running (on_file v s fieldname i))
      | SField k value => Some (Running (push (FieldPart k value) s))
      | SFinish =>
          Some (Running {| parts := parts s; gen_finished := true;
                           gen_error := gen_error s; streams := streams s |})
      | SError message =>
          match v with
          | IndexJs => Some (Running (push (ErrorPart (Foreign message)) s))
          | Part006 => Some (Running (fail (Foreign message) s))
          end
      | SFilesLimit =>
          match v with
          | IndexJs => Some (Running s)
          | Part006 => Some (Running (fail FilesLimit s))
          end
      | SFieldsLimit =>
          match v with
          | IndexJs => Some (Running s)
          | Part006 => Some (Running (fail FieldsLimit s))
          end
      | SPartsLimit =>
          match v with
          | IndexJs => Some (Running s)
          | Part006 => Some (Running (fail (Foreign (Some "Parts limit exceeded")) s))
          end
      | SData n chunk =>
          p ← streams s !! n;
          if ended p || bool_decide (is_Some (destroyed p)) then None
          else Some (Running (on_data v cfg s n p chunk))
      | SEnd n =>
          p ← streams s !! n;
          if ended p || bool_decide (is_Some (destroyed p)) then None
          else Some (Running (set_stream n
                 {| fileSize := fileSize p; written := written p;
                    ended := true; destroyed := destroyed p |} s))
      end
  end.

Fixpoint run (v : version) (cfg : config) (g : gstate) (tr : list sevent) : option gstate :=
  match tr with
  | [] => Some g
  | e :: tr' => g' ← step v cfg g e; run v cfg g' tr'
  end.

(** What one [next()] call on the generator gives. *)
Inductive answer : Type :=
| Yield (p : part)
| Throw (e : error)
| Return
| Await.

Definition shift (s : running) : running :=
  {| parts := tail (parts s); gen_finished := gen_finished s;
     gen_error := gen_error s; streams := streams s |}.

Definition empty_running : running :=
  {| parts := []; gen_finished := false; gen_error := None; streams := [] |}.

(** The loop of the generator body, up to its next yield, throw, return or
    [await new Promise(resolve => setImmediate(resolve))]. *)
Definition loop (v : version) (s : running) : answer * gstate :=
  match v with
  | IndexJs =>
      if negb (gen_finished s) || (0 <? Z.of_nat (length (parts s))) then
        match parts s with
        | ErrorPart e :: _ => (Throw e, Done)
        | p :: _ => (Yield p, Running (shift s))
        | [] => (Await, Running s)
        end
      else (Return, Done)
  | Part006 =>
      if negb (gen_finished s) then
        match gen_error s with
        | Some e => (Throw e, Done)
        | None =>
            match parts s with
            | p :: _ => (Yield p, Running (shift s))
            | [] => (Await, Running s)
            end
        end
      else
        match parts s with
        | p :: _ => (Yield p, Running (shift s))
        | [] =>
            match gen_error s with
            | Some e => (Throw e, Done)
            | None => (Return, Done)
            end
        end
  end.

(** [next()]: the first call runs the content-type guard and creates the
    tokenizer; an exception of the tokenizer's constructor ends the generator
    there. *)
Definition next (v : version) (g : gstate) : answer * gstate :=
  match g with
  | NotStarted r =>
      if negb (is_multipart r) then (Throw InvalidMultipartContentType, Done)
      else match bb_throws r with
           | Some message => (Throw (Foreign message), Done)
           | None => loop v empty_running
           end
  | Running s => loop v s
  | Done => (Return, Done)
  end.

End Parts.

(** ** The tokenizer's file size limit *)

(** Modelled from the spec: the tokenizer boundary (the busboy dependency, not
    part of the sources) and its built-in file size limiting.  For the n-th
    file part it delivers at most [limits.fileSize] bytes and raises
    limit-exceeded on the part's stream when the content is longer. *)
Definition tokenizer_file_body (cfg : config) (n : nat) (content : list Byte.byte)
  : list event :=
  if Z.of_nat (length content) <=? limits_fileSize cfg then [EvFileData n content]
  else [EvFileData n (take (Z.to_nat (limits_fileSize cfg)) content); EvFileLimit n].

(** Modelled from the spec: the same boundary in streaming mode.  The
    stream of the n-th file part carries at most [limits.fileSize] bytes of
    the part's content and then ends; [parts] registers no 'limit'
    listener on it. *)
Definition tokenizer_stream_body (cfg : config) (n : nat) (content : list Byte.byte)
  : list Parts.sevent :=
  [Parts.SData n (take (Z.to_nat (limits_fileSize cfg)) content); Parts.SEnd n].

(** * Definitions used by the statements *)

(** ** Write streams and the counter *)

Definition flushed (k : sink) : bool :=
  match sink_status k with Finished => true | _ => false end.

(** The number of write streams that have not emitted 'finish'. *)
Definition unflushed (l : list sink) : Z :=
  Z.of_nat (length (List.filter (fun k => negb (flushed k)) l)).

(** The states of a write stream that will never flush: destroyed, before or
    after its open, or failed. *)
Definition lost (w : wstatus) : bool :=
  match w with
  | Aborted | Destroyed | Errored => true
  | Opening _ | Open | Finished => false
  end.

(** Some write stream was destroyed, or failed, before it could flush. *)
Definition has_destroyed (s : pstate) : Prop :=
  exists n k, sinks s !! n = Some k /\ lost (sink_status k) = true.

(** The moves of write stream [m], and the event behind each. *)
Definition moved (e : event) (m : nat) (w w' : wstatus) : Prop :=
  match w, w' with
  | Opening held, Opening held' =>
      exists chunk, e = EvFileData m chunk /\ held' = held ++ chunk
  | Opening _, Open => e = EvWriteOpen m
  | Opening _, Aborted => e = EvFileLimit m
  | Open, Finished => e = EvWriteFinish m
  | Open, Destroyed => e = EvFileLimit m
  | Aborted, Destroyed => e = EvWriteOpen m
  | (Opening _ | Open | Aborted), Errored => exists message, e = EvWriteError m message
  | _, _ => False
  end.

(** The facts every reachable state satisfies: the counter is the number of
    unflushed write streams; the temp paths are those of the write streams, in
    order; a resolved promise implies both conditions; both conditions imply a
    settled promise; a resolved promise carries the accumulators as they are
    now; without a tokenizer the promise was rejected by the guard or with
    the exception of the tokenizer's constructor. *)
Record inv (s : pstate) : Prop := {
  inv_pending : pendingFiles s = unflushed (sinks s);
  inv_paths : tempFiles s = (fun k => _tempPath (sink_obj k)) <$> sinks s;
  inv_resolved : forall res, outcome s = Resolved res ->
                 finished s = true /\ pendingFiles s = 0;
  inv_settled : finished s = true -> pendingFiles s = 0 -> outcome s <> Pending;
  inv_result : forall res, outcome s = Resolved res ->
               res = {| files := st_files s; fields := st_fields s;
                        _tempFiles := tempFiles s |};
  inv_bb : bb s = true \/ outcome s = Rejected InvalidMultipartContentType \/
           exists message, outcome s = Rejected (Foreign message)
}.

(** On a request that starts fresh, the two decorations are null until a
    resolve site has run, that is until the tokenizer has finished with no
    write pending; from then on they hold the result and its temp paths. *)
Record cache_inv (s : pstate) : Prop := {
  cache_unset : finished s && (pendingFiles s =? 0) = false ->
                kMultipart (req s) = None /\ kTempFiles (req s) = None;
  cache_set : finished s && (pendingFiles s =? 0) = true ->
              kMultipart (req s) =
                Some {| files := st_files s; fields := st_fields s;
                        _tempFiles := tempFiles s |} /\
              kTempFiles (req s) = Some (tempFiles s);
  cache_ct : bb s = true -> is_multipart (req s) = true /\ bb_throws (req s) = None
}.

(** ** Fields *)

(** The 'field' handler over a list of (name, value) pairs, in order. *)
Fixpoint on_fields (fs : gmap string fieldval) (l : list (string * string))
  : option (gmap string fieldval) :=
  match l with
  | [] => Some fs
  | (k, x) :: l' => fs' ← on_field fs k x; on_fields fs' l'
  end.

(** The values submitted under name [k], in encounter order. *)
Definition occurrences (k : string) (l : list (string * string)) : list string :=
  snd <$> List.filter (fun p => String.eqb (fst p) k) l.

(** What [fields[k]] is to be for these values: nothing, the plain string, or
    the sequence. *)
Definition expected (vals : list string) : option fieldval :=
  match vals with
  | [] => None
  | [x] => Some (Scalar (Str x))
  | _ => Some (Repeated (Str <$> vals))
  end.

(** ** Streamed bytes *)

(** Bytes in a list of chunks. *)
Definition total (chunks : list (list Byte.byte)) : Z :=
  foldr (fun c acc => Z.of_nat (length c) + acc) 0 chunks.

(** The counter of a live stream is the number of bytes it forwarded, and no
    stream forwarded more than the limit. *)
Definition counted (cfg : config) (p : Parts.pstream) : Prop :=
  total (Parts.written p) <= limits_fileSize cfg /\
  (Parts.destroyed p = None -> Parts.fileSize p = total (Parts.written p)).

(** ** Sample inputs *)

Definition sample_cfg : config := {| limits_fileSize := 100; tempDir := "/tmp" |}.

(** A temp directory two levels down, spelled with a trailing separator. *)
Definition nested_cfg : config :=
  {| limits_fileSize := 100; tempDir := "/var/lib/uploads/" |}.

Definition sample_request : request :=
  fresh_request (Some "multipart/form-data; boundary=----x").

Definition sample_info : info :=
  {| info_filename := Some "large.txt"; info_encoding := Some "7bit";
     info_mimeType := Some "text/plain" |}.

(** An info object with nothing usable in it. *)
Definition bare_info : info :=
  {| info_filename := None; info_encoding := Some ""; info_mimeType := None |}.

(** One file part with [content], as the tokenizer reports it, into a write
    stream that opens its file before the first chunk arrives. *)
Definition upload (cfg : config) (content : list Byte.byte) : list event :=
  [EvFile "file" sample_info 1700000000000 "k3x9p"; EvWriteOpen 0] ++
  tokenizer_file_body cfg 0 content.

(** A body with one file part, as the tokenizer reports it to [parts]. *)
Definition streamed (cfg : config) (fieldname : string) (i : info)
    (content : list Byte.byte) : list Parts.sevent :=
  Parts.SFile fieldname i :: tokenizer_stream_body cfg 0 content ++ [Parts.SFinish].

(** * Further definitions *)

(** ** Reading a run off its events *)

(** The temp paths the 'file' events of a trace generate, in order. *)
Definition file_paths (cfg : config) (tr : list event) : list string :=
  omap (fun e => match e with
                 | EvFile _ _ now rnd => Some (tempFilePath cfg now rnd)
                 | _ => None
                 end) tr.

(** The write streams of a trace in the order they emitted 'finish'. *)
Definition flush_order (tr : list event) : list nat :=
  omap (fun e => match e with EvWriteFinish n => Some n | _ => None end) tr.

(** The (name, value) pairs of the 'field' events of a trace, in order. *)
Definition field_pairs (tr : list event) : list (string * string) :=
  omap (fun e => match e with EvField k x => Some (k, x) | _ => None end) tr.

(** The bytes file stream [n] produced over a trace. *)
Definition delivered (n : nat) (tr : list event) : list Byte.byte :=
  concat (omap (fun e => match e with
                         | EvFileData m chunk =>
                             if Nat.eqb m n then Some chunk else None
                         | _ => None
                         end) tr).

(** The errors the plugin itself raises from [parseMultipart], and the ones it
    passes on. *)
Definition parse_rejection (v : version) (e : error) : Prop :=
  match e with
  | InvalidMultipartContentType | FilesLimit | FieldsLimit | Foreign _ => True
  | FileSizeLimit _ => v = Part006
  | InvalidPart | TypeError => False
  end.

(** Where the bytes of a write stream are: held by the stream while its file
    is opening, in its file once that is open. *)
Definition stored (s : pstate) (k : sink) (bytes : list Byte.byte) : Prop :=
  match sink_status k with
  | Opening held => held = bytes
  | Open | Finished => contents (disk s) !! _tempPath (sink_obj k) = Some bytes
  | Aborted | Destroyed | Errored => True
  end.

(** ** The iterator and its consumer

    The generator body of [parts] runs only when the consumer asks for the
    next part; between two such calls the tokenizer's handlers run.  A
    session interleaves the two. *)
Inductive action : Type :=
| Emit (e : Parts.sevent)
| Pull.

(** One action on the answers given so far and the generator. *)
Definition act (v : version) (cfg : config) (st : list Parts.answer * Parts.gstate)
    (a : action) : option (list Parts.answer * Parts.gstate) :=
  match a with
  | Emit e => g' ← Parts.step v cfg st.2 e; Some (st.1, g')
  | Pull => let '(x, g') := Parts.next v st.2 in Some (st.1 ++ [x], g')
  end.

Fixpoint exec (v : version) (cfg : config) (st : list Parts.answer * Parts.gstate)
    (acts : list action) : option (list Parts.answer * Parts.gstate) :=
  match acts with
  | [] => Some st
  | a :: rest => st' ← act v cfg st a; exec v cfg st' rest
  end.

(** [request.parts()] on request [r]; nothing runs before the first pull. *)
Definition parts (r : request) : list Parts.answer * Parts.gstate :=
  ([], Parts.NotStarted r).

Definition emitted (acts : list action) : list Parts.sevent :=
  omap (fun a => match a with Emit e => Some e | Pull => None end) acts.

Definition yielded (ans : list Parts.answer) : list Parts.part :=
  omap (fun x => match x with Parts.Yield p => Some p | _ => None end) ans.

Definition thrown (ans : list Parts.answer) : list error :=
  omap (fun x => match x with Parts.Throw e => Some e | _ => None end) ans.

(** The queue entry a tokenizer event asks for, when [n] file streams came
    before it. *)
Definition part_of (v : version) (n : nat) (e : Parts.sevent) : option Parts.part :=
  match e with
  | Parts.SFile fieldname i =>
      Some (Parts.FilePart fieldname
              (or_default (info_filename i) "unnamed")
              (or_default (info_encoding i) "7bit")
              (or_default (info_mimeType i) "application/octet-stream")
              n
              (match v with IndexJs => None | Part006 => Some 0 end))
  | Parts.SField k x => Some (Parts.FieldPart k x)
  | Parts.SError message =>
      match v with
      | IndexJs => Some (Parts.ErrorPart (Foreign message))
      | Part006 => None
      end
  | _ => None
  end.

Definition is_file (e : Parts.sevent) : bool :=
  match e with Parts.SFile _ _ => true | _ => false end.

Fixpoint made_from (v : version) (n : nat) (tr : list Parts.sevent) : list Parts.part :=
  match tr with
  | [] => []
  | e :: tr' =>
      option_list (part_of v n e) ++ made_from v (if is_file e then S n else n) tr'
  end.

(** The queue entries of a whole event sequence, in order. *)
Definition made (v : version) (tr : list Parts.sevent) : list Parts.part :=
  made_from v 0 tr.

Definition is_error_part (p : Parts.part) : bool :=
  match p with Parts.ErrorPart _ => true | _ => false end.

(** The chunks file stream [n] produced over an event sequence. *)
Definition chunks_of (n : nat) (tr : list Parts.sevent) : list (list Byte.byte) :=
  omap (fun e => match e with
                 | Parts.SData m chunk => if Nat.eqb m n then Some chunk else None
                 | _ => None
                 end) tr.

(** The errors the iterator raises itself, and the ones it passes on. *)
Definition parts_rejection (v : version) (cfg : config) (e : error) : Prop :=
  match e with
  | InvalidMultipartContentType | Foreign _ => True
  | FilesLimit | FieldsLimit => v = Part006
  | FileSizeLimit _ => v = Part006 /\ limits_fileSize cfg <> 0
  | InvalidPart | TypeError => False
  end.

Definition nfiles (tr : list Parts.sevent) : nat :=
  length (List.filter is_file tr).

(** What holds of a session of the iterator, by the state it is in. *)
Definition session_inv (v : version) (cfg : config) (acts : list action)
    (st : list Parts.answer * Parts.gstate) : Prop :=
  Forall (fun p => is_error_part p = false) (yielded st.1) /\
  Forall (parts_rejection v cfg) (thrown st.1) /\
  match st.2 with
  | Parts.NotStarted _ => acts = [] /\ st.1 = []
  | Parts.Running s =>
      made v (emitted acts) = yielded st.1 ++ Parts.parts s /\
      length (Parts.streams s) = nfiles (emitted acts) /\
      thrown st.1 = [] /\
      (forall e, Parts.gen_error s = Some e ->
         v = Part006 /\ Parts.gen_finished s = true /\ parts_rejection v cfg e)
  | Parts.Done =>
      (length (thrown st.1) <= 1)%nat /\
      match v with
      | Part006 => made v (emitted acts) = yielded st.1
      | IndexJs =>
          made v (emitted acts) = yielded st.1 \/
          exists e rest, thrown st.1 = [e] /\
            made v (emitted acts) = yielded st.1 ++ Parts.ErrorPart e :: rest
      end
  end.

(** What a part's stream holds after the events of a session: every chunk
    while it is alive (and, in the second copy, its count); once destroyed,
    every chunk but the one that crossed the limit. *)
Definition stream_inv (v : version) (cfg : config) (chunks : list (list Byte.byte))
    (p : Parts.pstream) : Prop :=
  match Parts.destroyed p with
  | None =>
      Parts.written p = chunks /\
      Parts.fileSize p = match v with IndexJs => 0 | Part006 => total chunks end
  | Some e =>
      v = Part006 /\ limits_fileSize cfg <> 0 /\
      exists chunk,
        chunks = Parts.written p ++ [chunk] /\
        limits_fileSize cfg < total chunks /\
        e = FileSizeLimit (pretty (total chunks) +:+ " bytes")
  end.

(** * Properties *)

(** ** Strings *)

Lemma append_cons (c : ascii) (s t : string) :
  String c s +:+ t = String c (s +:+ t).
Proof. reflexivity. Qed.

Lemma prefix_app (n h : string) :
  String.prefix n h = true <-> exists b, h = n +:+ b.
Proof.
  revert h; induction n as [|c n IH]; intros h.
  - split; [intros _; exists h; reflexivity | intros _; destruct h; reflexivity].
  - destruct h as [|c' h]; simpl.
    + split; [discriminate | intros [b Hb]; discriminate].
    + destruct (Ascii.ascii_dec c c') as [->|Hne].
      * rewrite IH. split; intros [b Hb]; exists b;
          rewrite append_cons in *; congruence.
      * split; [discriminate | intros [b Hb]; rewrite append_cons in Hb; congruence].
Qed.

(** [includes] is the substring test. *)
Lemma includes_spec (n h : string) :
  includes n h = true <-> exists a b, h = a +:+ n +:+ b.
Proof.
  induction h as [|c h IH]; cbn [includes].
  - rewrite orb_false_r, prefix_app. split.
    + intros [b Hb]. exists "", b. exact Hb.
    + intros [a [b Hb]]. destruct a; [exists b; exact Hb | discriminate].
  - rewrite orb_true_iff, prefix_app, IH. split.
    + intros [[b Hb] | [a [b Hb]]].
      * exists "", b. exact Hb.
      * exists (String c a), b. rewrite append_cons. congruence.
    + intros [a [b Hb]]. destruct a as [|c' a].
      * left. exists b. exact Hb.
      * right. exists a, b. rewrite append_cons in Hb. congruence.
Qed.

(** ** The content-type guard *)

(** C4.  A request whose content-type header is missing, or does not contain
    'multipart/form-data', gets a promise rejected with
    InvalidMultipartContentType; the call creates no tokenizer, does not pipe
    the body, leaves the file system as it was, and no handler can ever run
    afterwards. *)
Theorem C4_invalid_content_type_rejected_first (r : request) (d : filesystem) :
  (forall h a b, content_type r = Some h -> h <> a +:+ "multipart/form-data" +:+ b) ->
  outcome (parseMultipart r d) = Rejected InvalidMultipartContentType /\
  bb (parseMultipart r d) = false /\
  raw_pipes (req (parseMultipart r d)) = raw_pipes r /\
  disk (parseMultipart r d) = d /\
  tempFiles (parseMultipart r d) = [] /\
  (forall v cfg e, step v cfg (parseMultipart r d) e = None).
Proof.
  intros Hct.
  assert (Hm : is_multipart r = false).
  { unfold is_multipart. destruct (content_type r) as [h|] eqn:Eh; [|reflexivity].
    destruct (includes "multipart/form-data" h) eqn:Ei; [|reflexivity].
    apply includes_spec in Ei as [a [b Hab]]. exfalso. exact (Hct h a b eq_refl Hab). }
  unfold parseMultipart. rewrite Hm. simpl. repeat split; reflexivity.
Qed.

Lemma C4_witness :
  let r := fresh_request (Some "application/json") in
  outcome (parseMultipart r Fs.empty) = Rejected InvalidMultipartContentType /\
  bb (parseMultipart r Fs.empty) = false /\
  raw_pipes (req (parseMultipart r Fs.empty)) = raw_pipes r /\
  disk (parseMultipart r Fs.empty) = Fs.empty /\
  tempFiles (parseMultipart r Fs.empty) = [] /\
  (forall v cfg e, step v cfg (parseMultipart r Fs.empty) e = None).
Proof.
  apply (C4_invalid_content_type_rejected_first
           (fresh_request (Some "application/json")) Fs.empty).
  intros h a b Hh Hab. simpl in Hh. injection Hh as <-.
  assert (Hi : includes "multipart/form-data" "application/json" = true)
    by (apply includes_spec; exists a, b; exact Hab).
  vm_compute in Hi. discriminate.
Defined.

(** A header that passes the guard and that the tokenizer's constructor
    refuses: the promise is rejected with the constructor's error, the body
    is not piped, no tokenizer event can follow, and the iterator throws the
    same error at the first pull and is over. *)
Example tokenizer_constructor_throws :
  let r := {| content_type := Some "multipart/form-data";
              bb_throws := Some (Some "Multipart: Boundary not found");
              kMultipart := None; kTempFiles := None; raw_pipes := 0 |} in
  let s := parseMultipart r Fs.empty in
  outcome s = Rejected (Foreign (Some "Multipart: Boundary not found")) /\
  raw_pipes (req s) = 0%nat /\
  (forall v cfg e, step v cfg s e = None) /\
  (forall v, Parts.next v (Parts.NotStarted r)
             = (Parts.Throw (Foreign (Some "Multipart: Boundary not found")),
                Parts.Done)).
Proof. repeat split. Qed.

(** [path.join] normalizes: a trailing separator of the temp directory, a
    doubled separator and a '..' segment do not show in the temp path. *)
Example temp_path_is_normalized :
  tempFilePath {| limits_fileSize := 100; tempDir := "/var//lib/x/../uploads/" |}
               1700000000000 "k3x9p"
  = "/var/lib/uploads/upload_1700000000000_k3x9p" /\
  tempFilePath sample_cfg 1700000000000 "k3x9p" = "/tmp/upload_1700000000000_k3x9p" /\
  tempFilePath {| limits_fileSize := 100; tempDir := "" |} 1700000000000 "k3x9p"
  = "upload_1700000000000_k3x9p".
Proof. repeat split; vm_compute; reflexivity. Qed.

(** ** Reachable states of one [parseMultipart] call *)

(** Induction over the events of a run. *)
Lemma run_invariant v cfg (P : pstate -> Prop) :
  (forall s e s', P s -> step v cfg s e = Some s' -> P s') ->
  forall tr s s', P s -> run v cfg s tr = Some s' -> P s'.
Proof.
  intros Hstep tr; induction tr as [|e tr IH]; intros s s' Hs Hrun; simpl in Hrun.
  - congruence.
  - destruct (step v cfg s e) as [s1|] eqn:E; simpl in Hrun; [|discriminate].
    eapply IH; [|exact Hrun]. eapply Hstep; eauto.
Qed.

Lemma unflushed_nonneg l : 0 <= unflushed l.
Proof. unfold unflushed. lia. Qed.

Lemma unflushed_snoc l k :
  unflushed (l ++ [k]) = unflushed l + (if flushed k then 0 else 1).
Proof.
  unfold unflushed. rewrite List.filter_app, length_app. simpl.
  destruct (flushed k); simpl; lia.
Qed.

Lemma unflushed_alter (f : sink -> sink) l n k :
  l !! n = Some k ->
  unflushed (alter f n l) =
  unflushed l - (if flushed k then 0 else 1) + (if flushed (f k) then 0 else 1).
Proof.
  revert n; induction l as [|a l IH]; intros [|n] Hn; simpl in Hn; try discriminate.
  - injection Hn as ->. unfold unflushed. simpl.
    destruct (flushed k), (flushed (f k)); simpl; lia.
  - specialize (IH n Hn). unfold unflushed in *.
    change (alter f (S n) (a :: l)) with (a :: alter f n l). simpl.
    destruct (flushed a); simpl; lia.
Qed.

Lemma unflushed_zero_all_finished l :
  unflushed l = 0 -> Forall (fun k => sink_status k = Finished) l.
Proof.
  induction l as [|a l IH]; intros H; [constructor|].
  unfold unflushed in *. simpl in H. unfold flushed at 1 in H.
  destruct (sink_status a) eqn:E; simpl in H; try lia.
  constructor; [exact E | apply IH; lia].
Qed.

Lemma all_finished_unflushed_zero l :
  Forall (fun k => sink_status k = Finished) l -> unflushed l = 0.
Proof.
  induction 1 as [|a l Ha _ IH]; [reflexivity|].
  unfold unflushed in *. simpl. unfold flushed at 1. rewrite Ha. simpl. exact IH.
Qed.

Lemma flushed_status k w :
  flushed {| sink_obj := sink_obj k; sink_status := w |} =
  match w with Finished => true | _ => false end.
Proof. reflexivity. Qed.

Lemma unflushed_open l n k :
  l !! n = Some k -> flushed k = false -> 1 <= unflushed l.
Proof.
  intros Hn Hk.
  pose proof (unflushed_alter (fun k0 => {| sink_obj := sink_obj k0;
                sink_status := Finished |}) l n k Hn) as Hu.
  cbv beta in Hu. rewrite flushed_status, Hk in Hu.
  pose proof (unflushed_nonneg (alter (fun k0 => {| sink_obj := sink_obj k0;
                sink_status := Finished |}) n l)). lia.
Qed.

Lemma inv_start r d : inv (parseMultipart r d).
Proof.
  unfold parseMultipart.
  destruct (negb (is_multipart r)); [|destruct (bb_throws r) as [message|]];
    split; simpl; eauto; try reflexivity; try discriminate; intros; discriminate.
Qed.

Lemma resolve_not_pending {R E} (r : R) (p : promise R E) : resolve r p <> Pending.
Proof. destruct p; simpl; discriminate. Qed.

Lemma reject_not_pending {R E} (e : E) (p : promise R E) : reject e p <> Pending.
Proof. destruct p; simpl; discriminate. Qed.

Lemma reject_resolved {R E} (e : E) (p : promise R E) r :
  reject e p = Resolved r -> p = Resolved r.
Proof. destruct p; simpl; congruence. Qed.

Lemma sinks_alter_paths n w (l : list sink) :
  (fun k => _tempPath (sink_obj k)) <$>
    alter (fun k => {| sink_obj := sink_obj k; sink_status := w |}) n l =
  (fun k => _tempPath (sink_obj k)) <$> l.
Proof.
  revert n; induction l as [|a l IH]; intros [|n]; simpl; try reflexivity.
  f_equal. apply IH.
Qed.

(** Case analysis on an enabled event. *)
Ltac step_inv H :=
  unfold step in H;
  repeat match type of H with
  | context [negb (bb ?s)] => destruct (bb s) eqn:?; simpl in H
  | (match ?e with EvFile _ _ _ _ => _ | _ => _ end) = _ => destruct e; simpl in H
  | context [if finished ?s then _ else _] => destruct (finished s) eqn:?; simpl in H
  | context [sinks ?s !! ?n] =>
      let k := fresh "k" in let E := fresh "Ek" in
      destruct (sinks s !! n) as [k|] eqn:E; simpl in H
  | context [sink_status ?k] => destruct (sink_status k) eqn:?; simpl in H
  | context [on_field ?f ?k ?x] => destruct (on_field f k x) eqn:?; simpl in H
  end;
  try discriminate H;
  try (injection H as <-).

(** Unfolds the handlers down to the record they build. *)
Ltac handlers :=
  unfold on_finish, on_write_finish, on_file_limit, on_error, on_file, complete,
    set_outcome, set_status, set_fields, set_disk in *;
  simpl in *;
  repeat match goal with
         | H : sink_status ?k = _ |- context [match sink_status ?k with _ => _ end] =>
             rewrite H; simpl in *
         | |- context [if ?c then _ else _] => destruct c eqn:?; simpl in *
         | |- context [match ?v with IndexJs => _ | Part006 => _ end] =>
             destruct v; simpl in *
         | |- context [match ?m with Some _ => _ | None => _ end] =>
             destruct m eqn:?; simpl in *
         | |- context [match sink_status ?k with _ => _ end] =>
             destruct (sink_status k) eqn:?; simpl in *
         end.

Lemma on_error_outcome v s message :
  exists e, on_error v s message = set_outcome (reject e (outcome s)) s.
Proof.
  unfold on_error. destruct v; [eexists; eauto|].
  destruct message as [m|]; [|eexists; eauto].
  destruct (negb (String.eqb m "") && includes "File size limit exceeded" m);
    eexists; eauto.
Qed.

(** Closes the promise clauses of [inv] when the handler did not touch
    [finished] and [pendingFiles] and at most rejected the promise. *)
Ltac inv_promise Hres Hset Hr :=
  simpl;
  first
    [ left; assumption
    | intros res Hx; try apply reject_resolved in Hx;
      first
        [ exact (Hr res Hx)
        | apply Hres in Hx; destruct Hx;
          first [ discriminate | split; congruence | lia ] ]
    | intros Hf Hz; try apply reject_not_pending;
      first [ exact (Hset Hf Hz) | congruence | apply Hset; congruence ] ].

(** Closes [inv] when the handler gave an unflushed write stream another
    unflushed state and at most rejected the promise. *)
Ltac inv_status Hp Hpaths Hres Hset Hr Ek Heqw :=
  split; [| | inv_promise Hres Hset Hr ..]; simpl;
  [ rewrite (unflushed_alter _ _ _ _ Ek), flushed_status;
    unfold flushed; rewrite Heqw; lia
  | rewrite sinks_alter_paths; exact Hpaths ].

Lemma inv_step v cfg s e s' : inv s -> step v cfg s e = Some s' -> inv s'.
Proof.
  intros [Hp Hpaths Hres Hset Hr Hbb] H.
  pose proof (unflushed_nonneg (sinks s)) as Hnn.
  step_inv H.
  - (* 'file' *)
    split; [| | inv_promise Hres Hset Hr ..]; simpl.
    + rewrite unflushed_snoc. simpl. lia.
    + rewrite fmap_app, Hpaths. reflexivity.
  - (* 'field' *)
    split; [exact Hp | exact Hpaths | inv_promise Hres Hset Hr ..].
  - (* 'finish' *)
    unfold on_finish; simpl.
    destruct (pendingFiles s =? 0) eqn:E.
    + apply Z.eqb_eq in E. split; simpl; auto.
      * intros _ _. apply resolve_not_pending.
      * intros res Hx. destruct (outcome s) eqn:Eo; simpl in Hx.
        -- congruence.
        -- destruct (Hres r eq_refl). discriminate.
        -- discriminate.
    + apply Z.eqb_neq in E. split; simpl; auto.
      all: intros res Hx; apply Hres in Hx as [? _]; discriminate.
  - (* 'filesLimit' *)
    split; [exact Hp | exact Hpaths | inv_promise Hres Hset Hr ..].
  - (* 'fieldsLimit' *)
    split; [exact Hp | exact Hpaths | inv_promise Hres Hset Hr ..].
  - (* 'error' *)
    destruct (on_error_outcome v s message) as [e ->].
    split; [exact Hp | exact Hpaths | inv_promise Hres Hset Hr ..].
  - (* data, held *) inv_status Hp Hpaths Hres Hset Hr Ek Heqw.
  - (* data, open *)
    split; [exact Hp | exact Hpaths | inv_promise Hres Hset Hr ..].
  - (* data, aborted *) split; auto.
  - (* data, destroyed *) split; auto.
  - (* data, errored *) split; auto.
  - (* 'limit', opening *)
    destruct v; [split; auto|]. unfold on_file_limit. rewrite Heqw.
    inv_status Hp Hpaths Hres Hset Hr Ek Heqw.
  - (* 'limit', open *)
    destruct v; [split; auto|]. unfold on_file_limit. rewrite Heqw.
    inv_status Hp Hpaths Hres Hset Hr Ek Heqw.
  - (* 'limit', aborted *)
    destruct v; [split; auto|]. unfold on_file_limit. rewrite Heqw.
    split; [exact Hp | exact Hpaths | inv_promise Hres Hset Hr ..].
  - (* 'limit', destroyed *)
    destruct v; [split; auto|]. unfold on_file_limit. rewrite Heqw.
    split; [exact Hp | exact Hpaths | inv_promise Hres Hset Hr ..].
  - (* 'limit', errored *)
    destruct v; [split; auto|]. unfold on_file_limit. rewrite Heqw.
    split; [exact Hp | exact Hpaths | inv_promise Hres Hset Hr ..].
  - (* 'open' *) inv_status Hp Hpaths Hres Hset Hr Ek Heqw.
  - (* 'open', aborted *) inv_status Hp Hpaths Hres Hset Hr Ek Heqw.
  - (* write 'finish' *)
    assert (Hu : unflushed (alter (fun k0 => {| sink_obj := sink_obj k0;
                    sink_status := Finished |}) n (sinks s)) = pendingFiles s - 1).
    { rewrite (unflushed_alter _ _ _ _ Ek), flushed_status.
      unfold flushed. rewrite Heqw. lia. }
    assert (Hge : 1 <= pendingFiles s).
    { rewrite Hp. apply (unflushed_open _ _ _ Ek). unfold flushed. rewrite Heqw.
      reflexivity. }
    assert (Hnr : forall res, outcome s <> Resolved res).
    { intros res Hx. apply Hres in Hx as [_ ?]. lia. }
    unfold on_write_finish; simpl.
    destruct (pendingFiles s - 1 =? 0) eqn:E; simpl.
    + apply Z.eqb_eq in E. destruct (finished s) eqn:Ef; split; simpl; auto.
      all: try (rewrite Hu; reflexivity).
      all: try (rewrite sinks_alter_paths; exact Hpaths).
      all: try (intros _ _; apply resolve_not_pending).
      all: try (intros ?; congruence).
      all: try (intros res Hx; destruct (Hnr res Hx)).
      intros res Hx. destruct (outcome s) eqn:Eo; simpl in Hx.
      * congruence.
      * destruct (Hnr r eq_refl).
      * discriminate.
    + apply Z.eqb_neq in E. split; simpl; auto.
      all: try (rewrite Hu; reflexivity).
      all: try (rewrite sinks_alter_paths; exact Hpaths).
      all: try (intros res Hx; destruct (Hnr res Hx)).
      all: try (intros _ ?; contradiction).
  - (* write 'error', opening *) inv_status Hp Hpaths Hres Hset Hr Ek Heqw.
  - (* write 'error', open *) inv_status Hp Hpaths Hres Hset Hr Ek Heqw.
  - (* write 'error', aborted *) inv_status Hp Hpaths Hres Hset Hr Ek Heqw.
Qed.

Lemma inv_run v cfg r d tr s :
  run v cfg (parseMultipart r d) tr = Some s -> inv s.
Proof. apply (run_invariant v cfg inv (inv_step v cfg)), inv_start. Qed.

(** ** Resolution needs both conditions *)

(** When a handler leaves a pending promise with the tokenizer finished and no
    write pending, that handler has resolved the promise. *)
Lemma step_resolves v cfg s e s' :
  inv s -> outcome s = Pending -> step v cfg s e = Some s' ->
  finished s' = true -> pendingFiles s' = 0 ->
  outcome s' = Resolved {| files := st_files s'; fields := st_fields s';
                           _tempFiles := tempFiles s' |}.
Proof.
  intros [Hp Hpaths Hres Hset _ _] Ho H.
  pose proof (unflushed_nonneg (sinks s)) as Hnn.
  step_inv H;
    try (simpl; congruence);
    try (simpl; intros Hf Hz; destruct (Hset Hf Hz Ho); fail);
    try (destruct v; [|unfold on_file_limit; rewrite Heqw]; simpl;
         intros Hf Hz; destruct (Hset Hf Hz Ho); fail).
  - unfold on_finish; simpl. destruct (pendingFiles s =? 0) eqn:E; simpl.
    + intros _ _. rewrite Ho. reflexivity.
    + apply Z.eqb_neq in E. intros _ ?. contradiction.
  - assert (Hf : finished (on_error v s message) = finished s).
    { unfold on_error. destruct v; [reflexivity|].
      destruct message as [m|]; [|reflexivity].
      destruct (negb (String.eqb m "") && includes "File size limit exceeded" m);
        reflexivity. }
    rewrite Hf. congruence.
  - unfold on_write_finish; simpl.
    destruct (pendingFiles s - 1 =? 0) eqn:E; simpl.
    + destruct (finished s) eqn:Ef; simpl.
      * intros _ _. rewrite Ho. reflexivity.
      * congruence.
    + apply Z.eqb_neq in E. intros _ ?. contradiction.
Qed.

(** C3.  Take any state a [parseMultipart] call can reach with its promise
    still pending, and any handler that runs next.  The promise is resolved by
    that handler exactly when, after it, the tokenizer has finished and the
    pending-file counter is zero; and the counter is zero exactly when every
    write stream opened so far has flushed.  So the promise never resolves
    with a write in flight, and it resolves as soon as the second of the two
    conditions arrives, whichever that is. *)
Theorem C3_resolves_iff_finished_and_flushed v cfg r d tr s e s' :
  run v cfg (parseMultipart r d) tr = Some s ->
  step v cfg s e = Some s' ->
  outcome s = Pending ->
  ((exists res, outcome s' = Resolved res) <->
   (finished s' = true /\ pendingFiles s' = 0)) /\
  (pendingFiles s' = 0 <->
   Forall (fun k => sink_status k = Finished) (sinks s')).
Proof.
  intros Hrun Hstep Ho.
  pose proof (inv_run _ _ _ _ _ _ Hrun) as Hs.
  pose proof (inv_step _ _ _ _ _ Hs Hstep) as Hs'.
  split; split.
  - intros [res Hr]. exact (inv_resolved _ Hs' res Hr).
  - intros [Hf Hz]. eexists.
    exact (step_resolves v cfg s e s' Hs Ho Hstep Hf Hz).
  - intros Hz. apply unflushed_zero_all_finished.
    rewrite <- (inv_pending _ Hs'). exact Hz.
  - intros Hall. rewrite (inv_pending _ Hs').
    apply all_finished_unflushed_zero, Hall.
Qed.

(** Finish first, then the flush of the only file: the flush resolves. *)
Lemma C3_witness :
  exists s s',
    run IndexJs sample_cfg (parseMultipart sample_request Fs.empty)
        [EvFile "file" sample_info 1700000000000 "k3x9p"; EvWriteOpen 0; EvFinish] = Some s /\
    step IndexJs sample_cfg s (EvWriteFinish 0) = Some s' /\
    outcome s = Pending /\
    ((exists res, outcome s' = Resolved res) <->
     (finished s' = true /\ pendingFiles s' = 0)) /\
    (pendingFiles s' = 0 <->
     Forall (fun k => sink_status k = Finished) (sinks s')).
Proof.
  eexists _, _.
  split; [vm_compute; reflexivity|].
  split; [vm_compute; reflexivity|].
  split; [reflexivity|].
  eapply (C3_resolves_iff_finished_and_flushed IndexJs sample_cfg sample_request
            Fs.empty [EvFile "file" sample_info 1700000000000 "k3x9p"; EvWriteOpen 0; EvFinish]
            _ (EvWriteFinish 0) _).
  - vm_compute; reflexivity.
  - vm_compute; reflexivity.
  - reflexivity.
Defined.

(** Both orders on one file, and the state in between. *)
Example finish_then_flush :
  (outcome <$> run Part006 sample_cfg (parseMultipart sample_request Fs.empty)
     [EvFile "file" sample_info 1700000000000 "k3x9p"; EvWriteOpen 0; EvFinish]) = Some Pending /\
  (is_Some (kMultipart (default sample_request
     (req <$> run Part006 sample_cfg (parseMultipart sample_request Fs.empty)
     [EvFile "file" sample_info 1700000000000 "k3x9p"; EvWriteOpen 0; EvFinish; EvWriteFinish 0])))).
Proof. split; [reflexivity | vm_compute; eauto]. Qed.

Example flush_then_finish :
  (outcome <$> run Part006 sample_cfg (parseMultipart sample_request Fs.empty)
     [EvFile "file" sample_info 1700000000000 "k3x9p"; EvWriteOpen 0; EvWriteFinish 0]) = Some Pending /\
  (is_Some (kMultipart (default sample_request
     (req <$> run Part006 sample_cfg (parseMultipart sample_request Fs.empty)
     [EvFile "file" sample_info 1700000000000 "k3x9p"; EvWriteOpen 0; EvWriteFinish 0; EvFinish])))).
Proof. split; [reflexivity | vm_compute; eauto]. Qed.

(** ** Field accumulation *)

Lemma occurrences_snoc k l k' x :
  occurrences k (l ++ [(k', x)]) =
  occurrences k l ++ (if String.eqb k' k then [x] else []).
Proof.
  unfold occurrences. rewrite List.filter_app, fmap_app. simpl.
  destruct (String.eqb k' k); reflexivity.
Qed.

Lemma inherited_proto : inherited "__proto__" = true.
Proof. reflexivity. Qed.

(** One handler call keeps [fields] equal to [expected] of the pairs seen so
    far, as long as no value seen so far is empty and the name is not one that
    Object.prototype answers for. *)
Lemma on_field_expected (fs : gmap string fieldval) l k x :
  fs !! "__proto__" = None ->
  (forall k', inherited k' = false -> fs !! k' = expected (occurrences k' l)) ->
  Forall (fun p => snd p <> "") l ->
  inherited k = false ->
  exists fs', on_field fs k x = Some fs' /\
    fs' !! "__proto__" = None /\
    forall k', inherited k' = false ->
      fs' !! k' = expected (occurrences k' (l ++ [(k, x)])).
Proof.
  intros Hproto Hfs Hne Hk.
  assert (Hp : k <> "__proto__").
  { intros ->. rewrite inherited_proto in Hk. discriminate. }
  assert (Hocc : Forall (fun x => x <> "") (occurrences k l)).
  { unfold occurrences. clear -Hne. induction Hne as [|p l Hp _ IH]; simpl.
    - constructor.
    - destruct (String.eqb (fst p) k); simpl; [constructor|]; assumption. }
  unfold on_field. eexists; split; [reflexivity|].
  unfold get. rewrite (Hfs k Hk), Hproto, Hk. split.
  { match goal with |- (if ?c then _ else _) !! _ = _ => destruct c end;
      rewrite lookup_insert_ne by assumption; exact Hproto. }
  intros k' Hk'. rewrite occurrences_snoc.
  destruct (String.eqb_spec k k') as [<-|Hd].
  - destruct (occurrences k l) as [|x0 [|x1 vs]] eqn:Eo; simpl.
    + rewrite lookup_insert_eq. reflexivity.
    + apply Forall_cons in Hocc as [Hx0 _].
      destruct (String.eqb_spec x0 ""); [contradiction|]. simpl.
      rewrite lookup_insert_eq. reflexivity.
    + rewrite lookup_insert_eq. simpl. rewrite fmap_app. reflexivity.
  - rewrite app_nil_r.
    match goal with |- (if ?c then _ else _) !! _ = _ => destruct c end;
      rewrite lookup_insert_ne by assumption; apply Hfs, Hk'.
Qed.

(** With non-empty values and names outside Object.prototype the handler
    accumulates as intended: one occurrence gives the plain string, k >= 2
    occurrences give the k values in encounter order. *)
Lemma on_fields_expected l :
  Forall (fun p => inherited (fst p) = false /\ snd p <> "") l ->
  exists fs, on_fields ∅ l = Some fs /\
    forall k, inherited k = false -> fs !! k = expected (occurrences k l).
Proof.
  assert (G : forall l l0 (fs0 : gmap string fieldval),
    fs0 !! "__proto__" = None ->
    (forall k, inherited k = false -> fs0 !! k = expected (occurrences k l0)) ->
    Forall (fun p => snd p <> "") l0 ->
    Forall (fun p => inherited (fst p) = false /\ snd p <> "") l ->
    exists fs, on_fields fs0 l = Some fs /\
      forall k, inherited k = false -> fs !! k = expected (occurrences k (l0 ++ l))).
  { clear l. induction l as [|[k x] l IH]; intros l0 fs0 Hp0 H0 Hne0 Hl;
      cbn [on_fields].
    - exists fs0. rewrite app_nil_r. auto.
    - apply Forall_cons in Hl as [[Hk Hx] Hl]. simpl in Hk, Hx.
      destruct (on_field_expected fs0 l0 k x Hp0 H0 Hne0 Hk) as [fs1 [E1 [Hp1 H1]]].
      rewrite E1. simpl.
      destruct (IH (l0 ++ [(k, x)]) fs1 Hp1 H1) as [fs [E H]].
      + apply Forall_app. split; [assumption|]. constructor; [exact Hx | constructor].
      + exact Hl.
      + exists fs. split; [exact E|]. intros k' Hk'.
        rewrite (H k' Hk'), <- app_assoc. reflexivity. }
  intros Hl. apply (G l [] ∅); [apply lookup_empty| |constructor|exact Hl].
  intros k _. apply lookup_empty.
Qed.

(** C5, at the failing input: name 'note' submitted with the empty string and
    then with 'x'.  The handler tests [fields[fieldname]] for truthiness, the
    empty string is falsy, so the second value takes the else branch and
    replaces the first: [fields.note] is the plain string 'x', not the
    sequence ['', 'x'].  Both copies of the plugin share the handler. *)
Theorem C5_empty_value_is_overwritten (v : version) :
  (fun s => st_fields s !! "note") <$>
    run v sample_cfg (parseMultipart sample_request Fs.empty)
        [EvField "note" ""; EvField "note" "x"]
  = Some (Some (Scalar (Str "x"))) /\
  expected (occurrences "note" [("note", ""); ("note", "x")])
  = Some (Repeated [Str ""; Str "x"]).
Proof. destruct v; split; reflexivity. Qed.

(** The same test reads inherited members: a single field named 'toString'
    comes out as a two-element array holding Object.prototype.toString. *)
Example inherited_name_is_promoted :
  (fun fs => fs !! "toString") <$> on_field ∅ "toString" "v"
  = Some (Some (Repeated [Inherited "toString"; Str "v"])).
Proof. reflexivity. Qed.

(** The handler is defined for every field name. *)
Lemma on_field_total fs k x : is_Some (on_field fs k x).
Proof. unfold on_field. eauto. Qed.

(** A field named '__proto__' creates no own property: the array the
    handler builds becomes the prototype of [fields].  A later 'length' field
    reads that array's length through the prototype chain, and a second
    '__proto__' field is pushed onto the array. *)
Example proto_field_replaces_the_prototype :
  exists fs,
    on_fields ∅ [("__proto__", "x"); ("length", "y"); ("__proto__", "z")] = Some fs /\
    own fs = {["length" := Repeated [Num 2; Str "y"]]} /\
    get fs "__proto__" = Some (Repeated [Inherited "__proto__"; Str "x"; Str "z"]) /\
    get fs "0" = Some (Scalar (Inherited "__proto__")) /\
    get fs "2" = Some (Scalar (Str "z")) /\
    get fs "push" = Some (Scalar (ArrayInherited "push")) /\
    get fs "hasOwnProperty" = Some (Scalar (Inherited "hasOwnProperty")) /\
    get fs "note" = None.
Proof. eexists. split; [reflexivity|]. repeat split; vm_compute; reflexivity. Qed.

(** ** What the request scope remembers *)

Lemma cache_inv_start ct d : cache_inv (parseMultipart (fresh_request ct) d).
Proof.
  unfold parseMultipart.
  destruct (is_multipart (fresh_request ct)) eqn:E; simpl;
    split; simpl; try discriminate; auto.
Qed.

(** A tokenizer event only runs before 'finish': the decorations are null
    before it, and stay so when the handler leaves [finished] alone. *)
Ltac cache_before_finish Hun :=
  simpl in Hun; specialize (Hun eq_refl);
  split; simpl;
  repeat match goal with
         | H : finished ?s = false |- context [finished ?s] => rewrite H
         end;
  simpl; auto; discriminate.

Lemma cache_inv_step v cfg s e s' :
  inv s -> cache_inv s -> step v cfg s e = Some s' -> cache_inv s'.
Proof.
  intros [Hp Hpaths Hres Hset _ _] [Hun Hst Hct] H.
  pose proof (unflushed_nonneg (sinks s)) as Hnn.
  step_inv H;
    try (cache_before_finish Hun; fail);
    try (split; simpl; auto; fail);
    try (destruct v; [split; auto|]; unfold on_file_limit; rewrite Heqw;
         split; simpl; auto; fail).
  - (* 'finish' *)
    simpl in Hun. specialize (Hun eq_refl).
    unfold on_finish; simpl. destruct (pendingFiles s =? 0) eqn:E.
    + split; simpl; rewrite ?E; auto; discriminate.
    + split; simpl; rewrite ?E; auto; discriminate.
  - (* 'error' *)
    destruct (on_error_outcome v s message) as [e ->]. cache_before_finish Hun.
  - (* write 'finish': an open stream means the counter was not zero *)
    assert (Hge : 1 <= pendingFiles s).
    { rewrite Hp. apply (unflushed_open _ _ _ Ek). unfold flushed. rewrite Heqw.
      reflexivity. }
    assert (Hz : (pendingFiles s =? 0) = false) by (apply Z.eqb_neq; lia).
    rewrite Hz, andb_false_r in Hun. specialize (Hun eq_refl).
    unfold on_write_finish; simpl.
    destruct (pendingFiles s - 1 =? 0) eqn:E; simpl;
      destruct (finished s) eqn:Ef; simpl;
      split; simpl; rewrite ?E, ?Ef; simpl; auto; discriminate.
Qed.

Lemma cache_inv_run v cfg ct d tr s :
  run v cfg (parseMultipart (fresh_request ct) d) tr = Some s ->
  inv s /\ cache_inv s.
Proof.
  apply (run_invariant v cfg (fun s => inv s /\ cache_inv s)).
  - intros s0 e s' [Hi Hc] Hstep. split.
    + eapply inv_step; eauto.
    + eapply cache_inv_step; eauto.
  - split; [apply inv_start | apply cache_inv_start].
Qed.

(** ** Cleanup *)

Lemma unlink_absent p d :
  contents d !! p = None -> snd (unlink p d) = d.
Proof. unfold unlink. intros ->. reflexivity. Qed.

Lemma unlink_contents p d q :
  contents (snd (unlink p d)) !! q =
  if decide (p = q) then None else contents d !! q.
Proof.
  unfold unlink. destruct (contents d !! p) eqn:E; simpl.
  - rewrite lookup_delete. reflexivity.
  - destruct (decide (p = q)) as [<-|]; [exact E | reflexivity].
Qed.

Lemma unlink_all_contents l d q :
  contents (unlink_all l d) !! q =
  if decide (q ∈ l) then None else contents d !! q.
Proof.
  unfold unlink_all. revert d; induction l as [|p l IH]; intros d; simpl.
  - destruct (decide (q ∈ [])) as [H|]; [inversion H | reflexivity].
  - rewrite IH, unlink_contents.
    destruct (decide (q ∈ l)) as [Hl|Hl].
    + rewrite decide_True by (right; exact Hl). reflexivity.
    + destruct (decide (p = q)) as [<-|Hpq].
      * rewrite decide_True by left. reflexivity.
      * rewrite decide_False; [reflexivity|].
        intros Hin. apply elem_of_cons in Hin as [->|?]; contradiction.
Qed.

Lemma unlink_all_absent l d :
  (forall p, p ∈ l -> contents d !! p = None) -> unlink_all l d = d.
Proof.
  unfold unlink_all. induction l as [|p l IH]; intros H; simpl; [reflexivity|].
  rewrite unlink_absent by (apply H; left). apply IH.
  intros q Hq. apply H. right. exact Hq.
Qed.

(** Deleting twice is deleting once. *)
Lemma unlink_all_twice l d : unlink_all l (unlink_all l d) = unlink_all l d.
Proof.
  apply unlink_all_absent. intros p Hp. rewrite unlink_all_contents.
  rewrite decide_True by exact Hp. reflexivity.
Qed.

(** The hook is guarded and never rejects, whatever the request. *)
Lemma onResponse_never_rejects r d : fst (onResponse r d) = Resolved tt.
Proof.
  unfold onResponse, cleanupTempFiles.
  destruct (kTempFiles r) as [l|] eqn:E; [|reflexivity].
  destruct (0 <? Z.of_nat (length l)); reflexivity.
Qed.

(** The claim C10 fails where a resolve site runs after the promise was
    rejected: one file, the files limit hit, the write flushed, the tokenizer
    done.  The only [parseMultipart] call on the request is rejected, so none
    has resolved; the tracked paths are assigned all the same, and
    [cleanupTempFiles()] resolves and deletes the file instead of throwing. *)
Lemma C10_counterexample :
  exists s,
    run IndexJs sample_cfg (parseMultipart sample_request Fs.empty)
        [EvFile "a" sample_info 1700000000000 "k3x9p"; EvWriteOpen 0; EvFilesLimit;
         EvWriteFinish 0; EvFinish] = Some s /\
    outcome s = Rejected FilesLimit /\
    kTempFiles (req s) = Some ["/tmp/upload_1700000000000_k3x9p"] /\
    existsSync "/tmp/upload_1700000000000_k3x9p" (disk s) = true /\
    fst (cleanupTempFiles (req s) None (disk s)) = Resolved tt /\
    existsSync "/tmp/upload_1700000000000_k3x9p"
               (snd (cleanupTempFiles (req s) None (disk s))) = false.
Proof. eexists. split; [vm_compute; reflexivity|]. repeat split. Qed.

(** C10, amended.  On a request that started fresh, [cleanupTempFiles()]
    without argument maps over null - the call rejects with a TypeError and
    deletes nothing - before [parseMultipart] is called and as long as the
    parse has not reached a resolve site (the tokenizer has not finished, or
    a write is still pending).  Once a resolve site has run, whether the
    promise was resolved there or had been rejected before, the call does
    not throw: it resolves and unlinks the temp paths of the parse. *)
Theorem C10_cleanup_before_resolve_throws v cfg ct d tr s d' :
  run v cfg (parseMultipart (fresh_request ct) d) tr = Some s ->
  cleanupTempFiles (fresh_request ct) None d' = (Rejected TypeError, d') /\
  (finished s = false \/ pendingFiles s <> 0 ->
   cleanupTempFiles (req s) None d' = (Rejected TypeError, d')) /\
  (finished s = true -> pendingFiles s = 0 ->
   cleanupTempFiles (req s) None d' = (Resolved tt, unlink_all (tempFiles s) d')).
Proof.
  intros Hrun. split; [reflexivity|].
  destruct (cache_inv_run _ _ _ _ _ _ Hrun) as [_ [Hun Hst _]].
  unfold cleanupTempFiles. split.
  - intros Hnot. destruct Hun as [_ ->]; [|reflexivity].
    destruct Hnot as [->|Hz]; [reflexivity|].
    apply Z.eqb_neq in Hz. rewrite Hz. apply andb_false_r.
  - intros Hf Hz. rewrite Hf, Hz in Hst. destruct (Hst eq_refl) as [_ ->].
    reflexivity.
Qed.

Lemma C10_witness :
  exists s s',
    run IndexJs sample_cfg (parseMultipart sample_request Fs.empty)
        [EvFile "file" sample_info 1700000000000 "k3x9p"; EvWriteOpen 0] = Some s /\
    cleanupTempFiles sample_request None (disk s) = (Rejected TypeError, disk s) /\
    cleanupTempFiles (req s) None (disk s) = (Rejected TypeError, disk s) /\
    run IndexJs sample_cfg s [EvWriteFinish 0; EvFinish] = Some s' /\
    cleanupTempFiles (req s') None (disk s')
    = (Resolved tt, unlink_all ["/tmp/upload_1700000000000_k3x9p"] (disk s')).
Proof.
  eexists _, _. split; [vm_compute; reflexivity|].
  destruct (C10_cleanup_before_resolve_throws IndexJs sample_cfg
              (Some "multipart/form-data; boundary=----x") Fs.empty
              [EvFile "file" sample_info 1700000000000 "k3x9p"; EvWriteOpen 0] _
              (Fs.createWriteStream "/tmp/upload_1700000000000_k3x9p"
                 (Fs.mkdirSync "/tmp" Fs.empty))
              ltac:(vm_compute; reflexivity)) as (H1 & H2 & _).
  split; [exact H1|]. split; [apply H2; left; reflexivity|].
  split; [vm_compute; reflexivity|].
  destruct (C10_cleanup_before_resolve_throws IndexJs sample_cfg
              (Some "multipart/form-data; boundary=----x") Fs.empty
              [EvFile "file" sample_info 1700000000000 "k3x9p"; EvWriteOpen 0;
               EvWriteFinish 0; EvFinish] _
              (Fs.createWriteStream "/tmp/upload_1700000000000_k3x9p"
                 (Fs.mkdirSync "/tmp" Fs.empty))
              ltac:(vm_compute; reflexivity)) as (_ & _ & H3).
  exact (H3 eq_refl eq_refl).
Defined.

(** A pending promise is a state before every resolve site. *)
Lemma pending_not_at_resolve_site v cfg r d tr s :
  run v cfg (parseMultipart r d) tr = Some s ->
  outcome s = Pending ->
  finished s = false \/ pendingFiles s <> 0.
Proof.
  intros Hrun Ho. pose proof (inv_run _ _ _ _ _ _ Hrun) as Hi.
  destruct (finished s) eqn:Ef; [|left; reflexivity].
  right. intros Hz. exact (inv_settled _ Hi Ef Hz Ho).
Qed.

(** C6.  The 'onResponse' hook never raises, on a request nothing was done
    with and on any request a parse may leave behind.  The manual call is not
    guarded the way the hook is: before [parseMultipart] is called, and as
    long as the parse has not reached a resolve site - the guard rejected the
    request, the tokenizer has not finished, a write is pending -
    [cleanupTempFiles()] rejects with a TypeError, the first time and the
    second, before the hook and after it.  Once a resolve site has run,
    whatever became of the promise, the tracked paths are the temp paths of
    every write stream the parse created; a manual [cleanupTempFiles()]
    resolves, a second manual call resolves, and so does the hook after a
    manual call and a manual call after the hook; after the first call no
    tracked path holds a file any more, and the later call changes
    nothing. *)
Theorem C6_manual_cleanup_raises_before_resolve_site v cfg ct d tr s :
  run v cfg (parseMultipart (fresh_request ct) d) tr = Some s ->
  onResponse (fresh_request ct) d = (Resolved tt, d) /\
  cleanupTempFiles (fresh_request ct) None d = (Rejected TypeError, d) /\
  fst (onResponse (req s) (disk s)) = Resolved tt /\
  (finished s = false \/ pendingFiles s <> 0 ->
   cleanupTempFiles (req s) None (disk s) = (Rejected TypeError, disk s) /\
   cleanupTempFiles (req s) None (snd (cleanupTempFiles (req s) None (disk s)))
   = (Rejected TypeError, disk s) /\
   cleanupTempFiles (req s) None (snd (onResponse (req s) (disk s)))
   = (Rejected TypeError, disk s)) /\
  (finished s = true -> pendingFiles s = 0 ->
   kTempFiles (req s) = Some ((fun k => _tempPath (sink_obj k)) <$> sinks s) /\
   fst (cleanupTempFiles (req s) None (disk s)) = Resolved tt /\
   (forall p, p ∈ (fun k => _tempPath (sink_obj k)) <$> sinks s ->
      contents (snd (cleanupTempFiles (req s) None (disk s))) !! p = None) /\
   cleanupTempFiles (req s) None (snd (cleanupTempFiles (req s) None (disk s)))
   = (Resolved tt, snd (cleanupTempFiles (req s) None (disk s))) /\
   onResponse (req s) (snd (cleanupTempFiles (req s) None (disk s)))
   = (Resolved tt, snd (cleanupTempFiles (req s) None (disk s))) /\
   cleanupTempFiles (req s) None (snd (onResponse (req s) (disk s)))
   = (Resolved tt, snd (cleanupTempFiles (req s) None (disk s)))).
Proof.
  intros Hrun. split; [reflexivity|]. split; [reflexivity|].
  split; [apply onResponse_never_rejects|].
  destruct (cache_inv_run _ _ _ _ _ _ Hrun) as [Hi [Hun Hst _]].
  split.
  - intros Hnot.
    assert (Hk : kTempFiles (req s) = None).
    { destruct Hun as [_ Hk]; [|exact Hk].
      destruct Hnot as [->|Hz]; [reflexivity|].
      apply Z.eqb_neq in Hz. rewrite Hz. apply andb_false_r. }
    unfold onResponse, cleanupTempFiles. rewrite Hk. simpl.
    repeat split; reflexivity.
  - intros Hf Hz. rewrite Hf, Hz in Hst. destruct (Hst eq_refl) as [_ Hk].
    rewrite (inv_paths _ Hi) in Hk.
    unfold onResponse, cleanupTempFiles. rewrite Hk. simpl.
    split; [reflexivity|]. split; [reflexivity|]. split.
    { intros p Hp. rewrite unlink_all_contents, decide_True by exact Hp.
      reflexivity. }
    split; [rewrite unlink_all_twice; reflexivity|].
    destruct (0 <? _); simpl; rewrite ?Hk; simpl; rewrite ?unlink_all_twice;
      split; reflexivity.
Qed.

(** The failing input: a request the guard turns away, then the manual call,
    twice; and a parse that resolved, where the two calls go through. *)
Lemma C6_witness :
  (exists s,
     run IndexJs sample_cfg
         (parseMultipart (fresh_request (Some "application/json")) Fs.empty) []
     = Some s /\
     outcome s = Rejected InvalidMultipartContentType /\
     fst (onResponse (req s) (disk s)) = Resolved tt /\
     cleanupTempFiles (req s) None (disk s) = (Rejected TypeError, disk s) /\
     cleanupTempFiles (req s) None (snd (cleanupTempFiles (req s) None (disk s)))
     = (Rejected TypeError, disk s)) /\
  (exists s res,
     run Part006 sample_cfg (parseMultipart sample_request Fs.empty)
         [EvFile "file" sample_info 1700000000000 "k3x9p"; EvWriteOpen 0;
          EvFileData 0 [Byte.x48; Byte.x69]; EvWriteFinish 0; EvFinish] = Some s /\
     outcome s = Resolved res /\
     fst (cleanupTempFiles (req s) None (disk s)) = Resolved tt /\
     cleanupTempFiles (req s) None (snd (cleanupTempFiles (req s) None (disk s)))
     = (Resolved tt, snd (cleanupTempFiles (req s) None (disk s))) /\
     onResponse (req s) (snd (cleanupTempFiles (req s) None (disk s)))
     = (Resolved tt, snd (cleanupTempFiles (req s) None (disk s)))).
Proof.
  split.
  - eexists. split; [vm_compute; reflexivity|]. split; [reflexivity|].
    destruct (C6_manual_cleanup_raises_before_resolve_site IndexJs sample_cfg
                (Some "application/json") Fs.empty [] _ eq_refl)
      as (_ & _ & H1 & H2 & _).
    split; [exact H1|].
    destruct (H2 (or_introl eq_refl)) as (H3 & H4 & _).
    split; [exact H3 | exact H4].
  - eexists _, _. split; [vm_compute; reflexivity|]. split; [reflexivity|].
    destruct (C6_manual_cleanup_raises_before_resolve_site Part006 sample_cfg
                (Some "multipart/form-data; boundary=----x") Fs.empty
                [EvFile "file" sample_info 1700000000000 "k3x9p"; EvWriteOpen 0;
                 EvFileData 0 [Byte.x48; Byte.x69]; EvWriteFinish 0; EvFinish] _
                ltac:(vm_compute; reflexivity)) as (_ & _ & _ & _ & H).
    destruct (H eq_refl eq_refl) as (_ & H1 & _ & H2 & H3 & _).
    split; [exact H1|]. split; [exact H2 | exact H3].
Defined.

(** The file is on disk before the cleanup and gone after it. *)
Example cleanup_removes_the_file :
  let o := run Part006 sample_cfg (parseMultipart sample_request Fs.empty)
             [EvFile "file" sample_info 1700000000000 "k3x9p"; EvWriteOpen 0;
              EvFileData 0 [Byte.x48; Byte.x69]; EvWriteFinish 0; EvFinish] in
  ((fun s => (fun f => size f (disk s)) <$> st_files s) <$> o) = Some [2] /\
  ((fun s => (fun f => size f (snd (cleanupTempFiles (req s) None (disk s))))
               <$> st_files s) <$> o) = Some [0].
Proof. split; vm_compute; reflexivity. Qed.

(** ** A second [parseMultipart] call *)

(** The first call resolved with one field.  The second call hands back a new
    pending promise and pipes the request body once more.  The body was read
    by the first call, so the new tokenizer finds nothing and emits 'error':
    the second promise is rejected, where the claim has it resolve with the
    cached result. *)
Lemma C2_counterexample :
  exists s1 r1,
    run IndexJs sample_cfg (parseMultipart sample_request Fs.empty)
        [EvField "name" "John Doe"; EvFinish] = Some s1 /\
    outcome s1 = Resolved r1 /\
    kMultipart (req s1) = Some r1 /\
    fields r1 !! "name" = Some (Scalar (Str "John Doe")) /\
    raw_pipes (req s1) = 1%nat /\
    outcome (parseMultipart (req s1) (disk s1)) = Pending /\
    outcome (parseMultipart (req s1) (disk s1)) <> Resolved r1 /\
    raw_pipes (req (parseMultipart (req s1) (disk s1))) = 2%nat /\
    exists s2,
      run IndexJs sample_cfg (parseMultipart (req s1) (disk s1))
          [EvError (Some "Unexpected end of form")] = Some s2 /\
      outcome s2 = Rejected (Foreign (Some "Unexpected end of form")) /\
      raw_pipes (req s2) = 2%nat /\
      kMultipart (req s2) = Some r1.
Proof.
  eexists _, _. split; [vm_compute; reflexivity|].
  split; [reflexivity|]. split; [reflexivity|]. split; [reflexivity|].
  split; [reflexivity|]. split; [reflexivity|]. split; [discriminate|].
  split; [reflexivity|].
  eexists. split; [vm_compute; reflexivity|]. repeat split.
Qed.

(** Were the body readable a second time, the second call would parse it
    again and replace the cache: here the tokenizer of the second call
    finishes without having seen a part. *)
Example second_call_replaces_the_cache :
  exists s1 r1 s2 r2,
    run IndexJs sample_cfg (parseMultipart sample_request Fs.empty)
        [EvField "name" "John Doe"; EvFinish] = Some s1 /\
    outcome s1 = Resolved r1 /\
    run IndexJs sample_cfg (parseMultipart (req s1) (disk s1)) [EvFinish] = Some s2 /\
    outcome s2 = Resolved r2 /\ fields r2 !! "name" = None /\
    kMultipart (req s2) = Some r2.
Proof.
  eexists _, _, _, _. split; [vm_compute; reflexivity|].
  split; [reflexivity|]. split; [vm_compute; reflexivity|]. repeat split.
Qed.

(** C2, amended.  When a [parseMultipart] call on a fresh request has
    resolved, its result is cached on the request scope, with its temp paths,
    and the second copy's [files()] and [file()] read it from there.  A second
    [parseMultipart] call does not read the cache: it returns a new pending
    promise over empty accumulators and pipes the request body again; the
    cache keeps the first result until the second parse reaches a resolve
    site. *)
Theorem C2_result_cached_second_call_parses_again v cfg ct d tr s res :
  run v cfg (parseMultipart (fresh_request ct) d) tr = Some s ->
  outcome s = Resolved res ->
  kMultipart (req s) = Some res /\
  kTempFiles (req s) = Some (_tempFiles res) /\
  files_Part006 (req s) = inr (files res) /\
  file_Part006 (req s) = inr (head (files res)) /\
  outcome (parseMultipart (req s) (disk s)) = Pending /\
  raw_pipes (req (parseMultipart (req s) (disk s))) = S (raw_pipes (req s)) /\
  st_files (parseMultipart (req s) (disk s)) = [] /\
  st_fields (parseMultipart (req s) (disk s)) = ∅ /\
  tempFiles (parseMultipart (req s) (disk s)) = [] /\
  kMultipart (req (parseMultipart (req s) (disk s))) = Some res.
Proof.
  intros Hrun Ho.
  destruct (cache_inv_run _ _ _ _ _ _ Hrun) as [Hi [_ Hst Hct]].
  destruct (inv_resolved _ Hi res Ho) as [Hf Hz].
  rewrite Hf, Hz in Hst. destruct (Hst eq_refl) as [Hm Hk].
  rewrite <- (inv_result _ Hi res Ho) in Hm.
  assert (Hk' : kTempFiles (req s) = Some (_tempFiles res))
    by (rewrite (inv_result _ Hi res Ho); exact Hk).
  assert (Hbb : bb s = true)
    by (destruct (inv_bb _ Hi) as [?|[Hx|[m Hx]]]; [assumption | congruence ..]).
  destruct (Hct Hbb) as [Hct1 Hct2].
  unfold files_Part006, file_Part006, parseMultipart.
  rewrite Hm, Hct1, Hct2. simpl. repeat split; assumption.
Qed.

Lemma C2_witness :
  exists s res,
    run IndexJs sample_cfg (parseMultipart sample_request Fs.empty)
        [EvField "name" "John Doe"; EvFinish] = Some s /\
    outcome s = Resolved res /\
    kMultipart (req s) = Some res /\
    kTempFiles (req s) = Some (_tempFiles res) /\
    files_Part006 (req s) = inr (files res) /\
    file_Part006 (req s) = inr (head (files res)) /\
    outcome (parseMultipart (req s) (disk s)) = Pending /\
    raw_pipes (req (parseMultipart (req s) (disk s))) = S (raw_pipes (req s)) /\
    st_files (parseMultipart (req s) (disk s)) = [] /\
    st_fields (parseMultipart (req s) (disk s)) = ∅ /\
    tempFiles (parseMultipart (req s) (disk s)) = [] /\
    kMultipart (req (parseMultipart (req s) (disk s))) = Some res.
Proof.
  eexists _, _. split; [vm_compute; reflexivity|].
  split; [reflexivity|].
  eapply (C2_result_cached_second_call_parses_again IndexJs sample_cfg
            (Some "multipart/form-data; boundary=----x") Fs.empty
            [EvField "name" "John Doe"; EvFinish]).
  - vm_compute; reflexivity.
  - reflexivity.
Defined.

(** ** The [size] getter *)

(** C8.  [size] keeps nothing between two reads: it is the length of what is
    at [_tempPath] in the file system of the moment, and 0 when nothing is
    there.  So it follows a later write, and reads 0 once the path is
    unlinked, without an error. *)
Theorem C8_size_is_live (f : fileObj) (d : filesystem) :
  size f d = match contents d !! _tempPath f with
             | Some c => Z.of_nat (length c)
             | None => 0
             end /\
  (forall chunk,
     size f (write (_tempPath f) chunk d) =
     match contents d !! _tempPath f with
     | Some c => size f d + Z.of_nat (length chunk)
     | None => 0
     end) /\
  size f (snd (unlink (_tempPath f) d)) = 0 /\
  size f (unlink_all [_tempPath f] d) = 0.
Proof.
  assert (Hs : forall d', size f d' = match contents d' !! _tempPath f with
                                      | Some c => Z.of_nat (length c)
                                      | None => 0
                                      end).
  { intros d'. unfold size, statSync_size.
    destruct (contents d' !! _tempPath f); reflexivity. }
  split; [apply Hs|]. split; [|split].
  - intros chunk. rewrite (Hs (write _ _ _)), (Hs d). unfold write; simpl.
    rewrite lookup_alter_eq.
    destruct (contents d !! _tempPath f) as [c|]; simpl; [|reflexivity].
    rewrite length_app. lia.
  - rewrite Hs, unlink_contents, decide_True by reflexivity. reflexivity.
  - rewrite Hs, unlink_all_contents, decide_True by left. reflexivity.
Qed.

(** ** Defaults for missing file metadata *)

Lemma or_default_falsy (o : option string) (dflt : string) :
  o = None \/ o = Some "" -> or_default o dflt = dflt.
Proof. intros [->| ->]; reflexivity. Qed.

Lemma or_default_present (x dflt : string) :
  x <> "" -> or_default (Some x) dflt = x.
Proof. destruct x; [contradiction | reflexivity]. Qed.

(** The closures of the write streams never change, and new streams go to
    the end. *)
Lemma sink_objs_step v cfg s e s' :
  step v cfg s e = Some s' ->
  exists more, sink_obj <$> sinks s' = (sink_obj <$> sinks s) ++ more.
Proof.
  assert (Ha : forall n w (l : list sink),
    sink_obj <$> alter (fun k => {| sink_obj := sink_obj k; sink_status := w |}) n l
    = sink_obj <$> l).
  { intros n w l. revert n; induction l as [|a l IH]; intros [|n]; simpl;
      try reflexivity. f_equal. apply IH. }
  intros H. step_inv H; simpl;
    try (exists []; rewrite ?Ha, app_nil_r; reflexivity);
    try (exists []; destruct v; simpl; rewrite ?Heqw; simpl;
         rewrite ?Ha, app_nil_r; reflexivity).
  - eexists. rewrite fmap_app. reflexivity.
  - exists []. unfold on_finish; simpl.
    destruct (pendingFiles s =? 0); simpl; rewrite app_nil_r; reflexivity.
  - exists []. destruct (on_error_outcome v s message) as [e ->]. simpl.
    rewrite app_nil_r. reflexivity.
  - exists []. unfold on_write_finish; simpl.
    destruct ((pendingFiles s - 1 =? 0) && finished s); simpl;
      rewrite Ha, app_nil_r; reflexivity.
Qed.

Lemma sink_objs_run v cfg tr s s' :
  run v cfg s tr = Some s' ->
  exists more, sink_obj <$> sinks s' = (sink_obj <$> sinks s) ++ more.
Proof.
  revert s; induction tr as [|e tr IH]; intros s H; simpl in H.
  - injection H as <-. exists []. rewrite app_nil_r. reflexivity.
  - destruct (step v cfg s e) as [s1|] eqn:E; simpl in H; [|discriminate].
    destruct (sink_objs_step _ _ _ _ _ E) as [m1 E1].
    destruct (IH _ H) as [m2 E2].
    exists (m1 ++ m2). rewrite E2, E1, app_assoc. reflexivity.
Qed.

(** What the iterator yields is the head of its queue, untouched. *)
Lemma next_yields_queue_head v s p g :
  Parts.next v (Parts.Running s) = (Parts.Yield p, g) ->
  exists rest, Parts.parts s = p :: rest /\ g = Parts.Running (Parts.shift s).
Proof.
  unfold Parts.next, Parts.loop. destruct v.
  - destruct (negb (Parts.gen_finished s) || _); [|discriminate].
    destruct (Parts.parts s) as [|[ | | ] rest]; intros [= <- <-]; eauto.
  - destruct (negb (Parts.gen_finished s)).
    + destruct (Parts.gen_error s); [discriminate|].
      destruct (Parts.parts s) as [|q rest]; intros [= <- <-]; eauto.
    + destruct (Parts.parts s) as [|q rest].
      * destruct (Parts.gen_error s); discriminate.
      * intros [= <- <-]; eauto.
Qed.

(** C9.  Buffered mode: the descriptor pushed when the write stream of a
    'file' event flushes carries 'unnamed', '7bit' and
    'application/octet-stream' wherever the event's info had the property
    missing or empty, and the info's own value otherwise.  Streaming mode: so
    does the file part the 'file' handler queues (and the iterator yields
    queue heads as they are, [next_yields_queue_head]). *)
Theorem C9_missing_metadata_defaults v cfg s0 fn i now rnd s1 tr s2 s3 q q' :
  step v cfg s0 (EvFile fn i now rnd) = Some s1 ->
  run v cfg s1 tr = Some s2 ->
  step v cfg s2 (EvWriteFinish (length (sinks s0))) = Some s3 ->
  Parts.step v cfg (Parts.Running q) (Parts.SFile fn i) = Some (Parts.Running q') ->
  (exists f,
     st_files s3 = st_files s2 ++ [f] /\ fieldname f = fn /\
     (info_filename i = None \/ info_filename i = Some "" -> filename f = "unnamed") /\
     (info_encoding i = None \/ info_encoding i = Some "" -> encoding f = "7bit") /\
     (info_mimeType i = None \/ info_mimeType i = Some "" ->
        mimetype f = "application/octet-stream") /\
     (forall x, x <> "" -> info_filename i = Some x -> filename f = x) /\
     (forall x, x <> "" -> info_encoding i = Some x -> encoding f = x) /\
     (forall x, x <> "" -> info_mimeType i = Some x -> mimetype f = x)) /\
  (exists name enc mime n sz,
     Parts.parts q' = Parts.parts q ++ [Parts.FilePart fn name enc mime n sz] /\
     (info_filename i = None \/ info_filename i = Some "" -> name = "unnamed") /\
     (info_encoding i = None \/ info_encoding i = Some "" -> enc = "7bit") /\
     (info_mimeType i = None \/ info_mimeType i = Some "" ->
        mime = "application/octet-stream") /\
     (forall x, x <> "" -> info_filename i = Some x -> name = x) /\
     (forall x, x <> "" -> info_encoding i = Some x -> enc = x) /\
     (forall x, x <> "" -> info_mimeType i = Some x -> mime = x)).
Proof.
  intros Hfile Hrun Hfin Hparts. split.
  - (* the closure the 'file' handler built sits at index [length (sinks s0)] *)
    assert (H1 : (sink_obj <$> sinks s1) !! length (sinks s0) =
                 Some {| fieldname := fn;
                         filename := or_default (info_filename i) "unnamed";
                         encoding := or_default (info_encoding i) "7bit";
                         mimetype := or_default (info_mimeType i)
                                       "application/octet-stream";
                         _tempPath := tempFilePath cfg now rnd |}).
    { step_inv Hfile. simpl. rewrite fmap_app. simpl.
      rewrite lookup_app_r by (rewrite length_fmap; lia).
      rewrite length_fmap, Nat.sub_diag. reflexivity. }
    destruct (sink_objs_run _ _ _ _ _ Hrun) as [more Hm].
    assert (H2 : (sink_obj <$> sinks s2) !! length (sinks s0) = Some _)
      by (rewrite Hm; apply lookup_app_l_Some; exact H1).
    rewrite list_lookup_fmap in H2.
    step_inv Hfin. simpl in H2. injection H2 as H2.
    eexists. split.
    { unfold on_write_finish; simpl.
      destruct ((pendingFiles s2 - 1 =? 0) && finished s2); simpl; reflexivity. }
    rewrite H2. simpl.
    repeat split; intros; subst;
      first [ apply or_default_falsy; assumption
            | match goal with H : info_filename i = _ |- _ => rewrite H end
            | match goal with H : info_encoding i = _ |- _ => rewrite H end
            | match goal with H : info_mimeType i = _ |- _ => rewrite H end ];
      apply or_default_present; assumption.
  - simpl in Hparts. injection Hparts as <-. unfold Parts.on_file; simpl.
    do 5 eexists. split; [reflexivity|].
    repeat split; intros; subst;
      first [ apply or_default_falsy; assumption
            | match goal with H : info_filename i = _ |- _ => rewrite H end
            | match goal with H : info_encoding i = _ |- _ => rewrite H end
            | match goal with H : info_mimeType i = _ |- _ => rewrite H end ];
      apply or_default_present; assumption.
Qed.

Lemma C9_witness :
  exists s1 s2 s3 q',
    step Part006 sample_cfg (parseMultipart sample_request Fs.empty)
         (EvFile "doc" bare_info 1700000000000 "k3x9p") = Some s1 /\
    run Part006 sample_cfg s1 [EvWriteOpen 0; EvFinish] = Some s2 /\
    step Part006 sample_cfg s2 (EvWriteFinish 0) = Some s3 /\
    Parts.step Part006 sample_cfg (Parts.Running Parts.empty_running)
               (Parts.SFile "doc" bare_info) = Some (Parts.Running q') /\
    (filename <$> st_files s3) = ["unnamed"] /\
    (encoding <$> st_files s3) = ["7bit"] /\
    (mimetype <$> st_files s3) = ["application/octet-stream"] /\
    Parts.parts q' =
      [Parts.FilePart "doc" "unnamed" "7bit" "application/octet-stream" 0 (Some 0)].
Proof.
  eexists _, _, _, _.
  split; [vm_compute; reflexivity|].
  split; [vm_compute; reflexivity|].
  split; [vm_compute; reflexivity|].
  split; [vm_compute; reflexivity|].
  match goal with
  | |- (filename <$> st_files ?s3) = _ /\ _ /\ _ /\ Parts.parts ?q' = _ =>
      destruct (C9_missing_metadata_defaults Part006 sample_cfg
                  (parseMultipart sample_request Fs.empty)
                  "doc" bare_info 1700000000000 "k3x9p" _ [EvWriteOpen 0; EvFinish] _ s3
                  Parts.empty_running q'
                  ltac:(vm_compute; reflexivity) ltac:(vm_compute; reflexivity)
                  ltac:(vm_compute; reflexivity) ltac:(vm_compute; reflexivity))
        as [(f & Hf & _ & Hn & He & Hm & _) (name & enc & mime & n & sz & Hq & Hn' & He' & Hm' & _)]
  end.
  simpl in Hf. rewrite Hf. simpl.
  rewrite (Hn (or_introl eq_refl)), (He (or_intror eq_refl)), (Hm (or_introl eq_refl)).
  repeat split.
Defined.

(** ** The file size limit in buffered mode *)

(** index.js never constructs a FileSizeLimit error: whatever the events, its
    promise is not rejected with one. *)
Lemma index_js_never_FileSizeLimit cfg r d tr s arg :
  run IndexJs cfg (parseMultipart r d) tr = Some s ->
  outcome s <> Rejected (FileSizeLimit arg).
Proof.
  apply (run_invariant IndexJs cfg (fun s => outcome s <> Rejected (FileSizeLimit arg))).
  - intros s0 e s' H0 H.
    assert (Hrej : forall e0, (forall a, e0 <> FileSizeLimit a) ->
                   reject e0 (outcome s0) <> Rejected (FileSizeLimit arg)).
    { intros e0 He0. destruct (outcome s0) eqn:Eo; simpl; try congruence.
      all: intros [= E]; exact (He0 _ E). }
    step_inv H; simpl; auto.
    all: try (apply Hrej; discriminate).
    + unfold on_finish; simpl. destruct (pendingFiles s0 =? 0); simpl; auto.
      destruct (outcome s0); simpl; congruence.
    + unfold on_write_finish; simpl.
      destruct ((pendingFiles s0 - 1 =? 0) && finished s0); simpl; auto.
      destruct (outcome s0); simpl; congruence.
  - unfold parseMultipart.
    destruct (negb (is_multipart r)); [|destruct (bb_throws r)]; simpl; discriminate.
Qed.

(** C1, at the failing input: limits.fileSize = 100 and one file part of 200
    bytes.  The tokenizer delivers 100 bytes and raises 'limit' on the file
    stream.  index.js has no listener for it: the write stream flushes what it
    got and the promise resolves with a descriptor for a 100-byte temp file,
    where C1 asks for a FileSizeLimit rejection.  The second copy of the
    plugin has the listener: it destroys the write stream, rejects with
    FileSizeLimit and caches nothing. *)
Theorem C1_index_js_resolves_oversized_upload :
  (exists s res f,
     run IndexJs sample_cfg (parseMultipart sample_request Fs.empty)
         (upload sample_cfg (repeat Byte.x78 200) ++ [EvWriteFinish 0; EvFinish])
     = Some s /\
     outcome s = Resolved res /\
     files res = [f] /\ filename f = "large.txt" /\
     size f (disk s) = 100 /\
     kMultipart (req s) = Some res) /\
  (exists s,
     run Part006 sample_cfg (parseMultipart sample_request Fs.empty)
         (upload sample_cfg (repeat Byte.x78 200) ++ [EvFinish])
     = Some s /\
     outcome s = Rejected (FileSizeLimit "File size exceeds limit of 100 bytes") /\
     (sink_status <$> sinks s) = [Destroyed] /\
     kMultipart (req s) = None).
Proof.
  split.
  - eexists _, _, _. split; [vm_compute; reflexivity|].
    split; [reflexivity|]. split; [reflexivity|]. split; [reflexivity|].
    split; [vm_compute; reflexivity | reflexivity].
  - eexists. split; [vm_compute; reflexivity|].
    repeat split.
Qed.

(** A settled promise stays as it is. *)
Lemma settled_step v cfg s e s' :
  outcome s <> Pending -> step v cfg s e = Some s' -> outcome s' = outcome s.
Proof.
  intros Hs H.
  assert (Hrej : forall e0, reject e0 (outcome s) = outcome s)
    by (intros e0; destruct (outcome s); simpl; congruence).
  assert (Hres : forall r0, resolve r0 (outcome s) = outcome s)
    by (intros r0; destruct (outcome s); simpl; congruence).
  step_inv H; handlers; auto.
Qed.

(** One handler on one write stream: the stream keeps its place and its
    closure, and its state stays or makes one of the moves of [moved]. *)
Lemma step_sink v cfg s e s' m km :
  step v cfg s e = Some s' -> sinks s !! m = Some km ->
  exists km', sinks s' !! m = Some km' /\ sink_obj km' = sink_obj km /\
    (sink_status km' = sink_status km \/
     moved e m (sink_status km) (sink_status km')).
Proof.
  intros H Hm. step_inv H; handlers;
    first
      [ exists km; split; [exact Hm | auto]
      | exists km; split; [apply lookup_app_l_Some; exact Hm | auto]
      | destruct (decide (n = m)) as [->|Hne];
        [ rewrite Ek in Hm; injection Hm as <-; eexists; split;
          [ rewrite list_lookup_alter_eq, Ek; reflexivity
          | simpl; split; [reflexivity | right; rewrite Heqw; simpl; eauto] ]
        | exists km; split;
          [ rewrite list_lookup_alter_ne by exact Hne; exact Hm | auto ] ] ].
Qed.

(** A write stream that was not there before the handler is the one a 'file'
    event has just created. *)
Lemma step_new_sink v cfg s e s' m km' :
  step v cfg s e = Some s' -> sinks s !! m = None -> sinks s' !! m = Some km' ->
  m = length (sinks s) /\ sink_status km' = Opening [] /\
  file_paths cfg [e] = [_tempPath (sink_obj km')].
Proof.
  intros H Hm. step_inv H; handlers; intros Hm';
    try (rewrite Hm in Hm'; discriminate);
    try (destruct (decide (n = m)) as [->|Hne];
         [congruence | rewrite list_lookup_alter_ne in Hm' by exact Hne; congruence]).
  apply lookup_ge_None in Hm. rewrite lookup_app_r in Hm' by exact Hm.
  destruct (m - length (sinks s))%nat as [|j] eqn:Ej; simpl in Hm'; [|discriminate].
  injection Hm' as <-. simpl. repeat split. lia.
Qed.

(** Only a resolve site writes to the request. *)
Lemma step_req v cfg s e s' :
  step v cfg s e = Some s' ->
  req s' = req s \/ (finished s' = true /\ pendingFiles s' = 0).
Proof.
  intros H. step_inv H; handlers; auto;
    right; split; try reflexivity;
    repeat match goal with
           | E : (_ =? _) = true |- _ => apply Z.eqb_eq in E
           | E : _ && _ = true |- _ => apply andb_true_iff in E as [? ?]
           end; assumption.
Qed.

(** A write stream that is lost never flushes, so the counter never returns
    to zero and no resolve site runs: the request keeps what it had. *)
Lemma destroyed_step v cfg s e s' :
  inv s -> has_destroyed s -> step v cfg s e = Some s' ->
  has_destroyed s' /\ req s' = req s.
Proof.
  intros Hi (m & km & Hm & Hkm) H.
  destruct (step_sink _ _ _ _ _ _ _ H Hm) as (km' & Hm' & _ & Hst).
  assert (Hkm' : lost (sink_status km') = true).
  { destruct Hst as [->|Hst]; [exact Hkm|].
    destruct (sink_status km), (sink_status km'); simpl in *;
      solve [reflexivity | discriminate | contradiction]. }
  split; [exists m, km'; auto|].
  pose proof (inv_step _ _ _ _ _ Hi H) as Hi'.
  assert (Hge : 1 <= pendingFiles s').
  { rewrite (inv_pending _ Hi'). apply (unflushed_open _ _ _ Hm').
    unfold flushed. destruct (sink_status km'); simpl in *; congruence. }
  destruct (step_req _ _ _ _ _ H) as [Hr|[_ Hz]]; [exact Hr | lia].
Qed.

Lemma destroyed_run v cfg tr s s' :
  inv s -> has_destroyed s -> outcome s <> Pending ->
  run v cfg s tr = Some s' ->
  req s' = req s /\ outcome s' = outcome s.
Proof.
  revert s; induction tr as [|e tr IH]; intros s Hi Hd Ho H; simpl in H.
  - injection H as <-. auto.
  - destruct (step v cfg s e) as [s1|] eqn:E; simpl in H; [|discriminate].
    destruct (destroyed_step _ _ _ _ _ Hi Hd E) as [Hd1 Hr1].
    pose proof (settled_step _ _ _ _ _ Ho E) as Ho1.
    destruct (IH s1 (inv_step _ _ _ _ _ Hi E) Hd1 ltac:(congruence) H) as [Hr Hq].
    split; congruence.
Qed.

(** The second copy rejects oversized files.  While the promise is pending, a
    'limit' on a file stream whose write is in progress destroys the write
    stream and rejects with FileSizeLimit; nothing is written to the request
    scope then or later, and the promise stays rejected. *)
Lemma part006_limit_rejects cfg r d tr s n k :
  run Part006 cfg (parseMultipart r d) tr = Some s ->
  outcome s = Pending ->
  sinks s !! n = Some k -> sink_status k = Open ->
  exists s',
    step Part006 cfg s (EvFileLimit n) = Some s' /\
    outcome s' = Rejected (FileSizeLimit ("File size exceeds limit of " +:+
                             pretty (limits_fileSize cfg) +:+ " bytes")) /\
    sink_status <$> sinks s' !! n = Some Destroyed /\
    disk s' = disk s /\ req s' = req s /\
    forall tr' s'', run Part006 cfg s' tr' = Some s'' ->
      req s'' = req s /\ outcome s'' = outcome s'.
Proof.
  intros Hrun Ho Hn Hk.
  pose proof (inv_run _ _ _ _ _ _ Hrun) as Hi.
  assert (Hbb : bb s = true)
    by (destruct (inv_bb _ Hi) as [?|[Hx|[m Hx]]]; [assumption | congruence ..]).
  eexists. split.
  { unfold step. rewrite Hbb, Hn. simpl. rewrite Hk. reflexivity. }
  assert (Hstep : step Part006 cfg s (EvFileLimit n) = Some (on_file_limit Part006 cfg s n k)).
  { unfold step. rewrite Hbb, Hn. simpl. rewrite Hk. reflexivity. }
  unfold on_file_limit in *. rewrite Hk in *. simpl in *.
  rewrite Ho in *. simpl in *.
  split; [reflexivity|].
  split; [rewrite list_lookup_alter_eq, Hn; reflexivity|].
  split; [reflexivity|]. split; [reflexivity|].
  intros tr' s'' Hrun'.
  eapply (destroyed_run Part006 cfg tr') in Hrun' as [Hr Hq].
  - simpl in Hr, Hq. split; [exact Hr | exact Hq].
  - eapply inv_step; [exact Hi | exact Hstep].
  - exists n, {| sink_obj := sink_obj k; sink_status := Destroyed |}.
    simpl. rewrite list_lookup_alter_eq, Hn. auto.
  - simpl. discriminate.
Qed.

(** An upload of exactly 100 bytes raises no 'limit' and resolves, on both
    copies. *)
Example exact_size_upload_resolves (v : version) :
  let o := run v sample_cfg (parseMultipart sample_request Fs.empty)
             (upload sample_cfg (repeat Byte.x78 100) ++ [EvWriteFinish 0; EvFinish]) in
  ((fun s => (fun f => size f (disk s)) <$> st_files s) <$> o) = Some [100] /\
  ((fun s => files <$> kMultipart (req s)) <$> o) = ((fun s => Some (st_files s)) <$> o) /\
  ((fun s => match outcome s with Resolved _ => true | _ => false end) <$> o) = Some true.
Proof. destruct v; repeat split; vm_compute; reflexivity. Qed.

(** ** The file size limit in streaming mode *)

Lemma total_snoc chunks c : total (chunks ++ [c]) = total chunks + Z.of_nat (length c).
Proof. induction chunks as [|a l IH]; simpl; lia. Qed.

(** C7, at its failing inputs: a file part longer than limits.fileSize,
    read through [parts].  Both copies build the tokenizer with the plugin's
    limits, so the part's stream carries the first limits.fileSize bytes and
    ends.  index.js counts nothing; the counter of the second copy stops at
    limits.fileSize, which is not above the limit.  In both the part's stream
    is not destroyed, no FileSizeLimit error exists, and the iterator yields
    the part and returns: the caller gets a truncated file and no error. *)
Theorem C7_oversized_part_is_truncated_silently v cfg fieldname i content :
  0 <= limits_fileSize cfg ->
  limits_fileSize cfg < Z.of_nat (length content) ->
  exists q,
    Parts.run v cfg (Parts.Running Parts.empty_running)
              (streamed cfg fieldname i content) = Some (Parts.Running q) /\
    Parts.streams q =
      [{| Parts.fileSize := match v with
                            | IndexJs => 0
                            | Part006 => limits_fileSize cfg
                            end;
          Parts.written := [take (Z.to_nat (limits_fileSize cfg)) content];
          Parts.ended := true;
          Parts.destroyed := None |}] /\
    Parts.gen_error q = None /\
    Parts.next v (Parts.Running q)
    = (Parts.Yield (Parts.FilePart fieldname
                      (or_default (info_filename i) "unnamed")
                      (or_default (info_encoding i) "7bit")
                      (or_default (info_mimeType i) "application/octet-stream")
                      0
                      (match v with IndexJs => None | Part006 => Some 0 end)),
       Parts.Running (Parts.shift q)) /\
    Parts.next v (Parts.Running (Parts.shift q)) = (Parts.Return, Parts.Done).
Proof.
  intros H0 Hlong.
  assert (Hlen : Z.of_nat (length (take (Z.to_nat (limits_fileSize cfg)) content))
                 = limits_fileSize cfg) by (rewrite length_take; lia).
  destruct v.
  - eexists. split; [reflexivity|]. simpl. repeat split; reflexivity.
  - assert (E : (negb (limits_fileSize cfg =? 0) &&
                 (limits_fileSize cfg <?
                  0 + Z.of_nat (length (take (Z.to_nat (limits_fileSize cfg)) content))))
                = false).
    { rewrite Hlen. apply andb_false_iff. right. apply Z.ltb_ge. lia. }
    eexists. split.
    { unfold streamed, tokenizer_stream_body. simpl. unfold Parts.on_data.
      simpl. rewrite E. simpl. reflexivity. }
    simpl. rewrite Hlen. repeat split; reflexivity.
Qed.

Lemma C7_witness :
  (exists q,
     Parts.run IndexJs sample_cfg (Parts.Running Parts.empty_running)
               (streamed sample_cfg "file" sample_info (repeat Byte.x78 200))
     = Some (Parts.Running q) /\
     (total <$> (Parts.written <$> Parts.streams q)) = [100] /\
     (Parts.destroyed <$> Parts.streams q) = [None] /\
     (Parts.ended <$> Parts.streams q) = [true] /\
     Parts.gen_error q = None /\
     Parts.next IndexJs (Parts.Running q)
     = (Parts.Yield (Parts.FilePart "file" "large.txt" "7bit" "text/plain" 0 None),
        Parts.Running (Parts.shift q)) /\
     Parts.next IndexJs (Parts.Running (Parts.shift q)) = (Parts.Return, Parts.Done)) /\
  (exists q,
     Parts.run Part006 sample_cfg (Parts.Running Parts.empty_running)
               (streamed sample_cfg "file" sample_info (repeat Byte.x78 200))
     = Some (Parts.Running q) /\
     (total <$> (Parts.written <$> Parts.streams q)) = [100] /\
     (Parts.fileSize <$> Parts.streams q) = [100] /\
     (Parts.destroyed <$> Parts.streams q) = [None] /\
     (Parts.ended <$> Parts.streams q) = [true] /\
     Parts.gen_error q = None /\
     Parts.next Part006 (Parts.Running q)
     = (Parts.Yield (Parts.FilePart "file" "large.txt" "7bit" "text/plain" 0 (Some 0)),
        Parts.Running (Parts.shift q)) /\
     Parts.next Part006 (Parts.Running (Parts.shift q)) = (Parts.Return, Parts.Done)).
Proof.
  split.
  - destruct (C7_oversized_part_is_truncated_silently IndexJs sample_cfg "file"
                sample_info (repeat Byte.x78 200) ltac:(simpl; lia) ltac:(simpl; lia))
      as (q & Hrun & Hs & He & Hy & Hr).
    exists q. rewrite Hs. split; [exact Hrun|].
    split; [vm_compute; reflexivity|].
    split; [reflexivity|]. split; [reflexivity|].
    split; [exact He|]. split; [exact Hy | exact Hr].
  - destruct (C7_oversized_part_is_truncated_silently Part006 sample_cfg "file"
                sample_info (repeat Byte.x78 200) ltac:(simpl; lia) ltac:(simpl; lia))
      as (q & Hrun & Hs & He & Hy & Hr).
    exists q. rewrite Hs. split; [exact Hrun|].
    split; [vm_compute; reflexivity|].
    split; [reflexivity|]. split; [reflexivity|]. split; [reflexivity|].
    split; [exact He|]. split; [exact Hy | exact Hr].
Defined.

(** What the counter of the second copy would do with a stream the
    tokenizer never hands over: 100 bytes, then 50 more, under
    limits.fileSize = 100. *)
Example part006_counter_past_the_limit :
  exists q,
    Parts.run Part006 sample_cfg (Parts.Running Parts.empty_running)
              [Parts.SFile "file" sample_info;
               Parts.SData 0 (repeat Byte.x78 100);
               Parts.SData 0 (repeat Byte.x78 50)] = Some (Parts.Running q) /\
    (total <$> (Parts.written <$> Parts.streams q)) = [100] /\
    (Parts.destroyed <$> Parts.streams q) = [Some (FileSizeLimit "150 bytes")] /\
    Parts.gen_error q = Some (FileSizeLimit "150 bytes").
Proof. eexists. split; [vm_compute; reflexivity|]. repeat split. Qed.

(** index.js, one chunk: whatever the limit and the count so far, the chunk
    reaches the caller and nothing else changes. *)
Lemma index_js_forwards_every_chunk cfg q n p chunk :
  Parts.streams q !! n = Some p ->
  Parts.ended p = false -> Parts.destroyed p = None ->
  exists q',
    Parts.step IndexJs cfg (Parts.Running q) (Parts.SData n chunk)
    = Some (Parts.Running q') /\
    Parts.streams q' !! n =
      Some {| Parts.fileSize := Parts.fileSize p;
              Parts.written := Parts.written p ++ [chunk];
              Parts.ended := false;
              Parts.destroyed := None |} /\
    Parts.gen_error q' = Parts.gen_error q /\
    Parts.gen_finished q' = Parts.gen_finished q.
Proof.
  intros Hn He Hd. eexists. split.
  - simpl. rewrite Hn. simpl. rewrite He, Hd. simpl. reflexivity.
  - simpl. repeat split.
    apply list_lookup_insert_eq. eapply lookup_lt_Some; eauto.
Qed.

(** The second copy, one chunk: with a non-zero limit, a chunk that takes the
    running count past the limit destroys the part's stream with
    FileSizeLimit, is not forwarded, and sets the iterator's error. *)
Lemma part006_chunk_past_limit cfg q n p chunk :
  limits_fileSize cfg <> 0 ->
  Parts.streams q !! n = Some p ->
  Parts.ended p = false -> Parts.destroyed p = None ->
  limits_fileSize cfg < Parts.fileSize p + Z.of_nat (length chunk) ->
  exists q',
    Parts.step Part006 cfg (Parts.Running q) (Parts.SData n chunk)
    = Some (Parts.Running q') /\
    Parts.streams q' !! n =
      Some {| Parts.fileSize := Parts.fileSize p + Z.of_nat (length chunk);
              Parts.written := Parts.written p;
              Parts.ended := false;
              Parts.destroyed :=
                Some (FileSizeLimit
                        (pretty (Parts.fileSize p + Z.of_nat (length chunk))
                         +:+ " bytes")) |} /\
    Parts.gen_error q' =
      Some (FileSizeLimit (pretty (Parts.fileSize p + Z.of_nat (length chunk))
                           +:+ " bytes")) /\
    Parts.gen_finished q' = true /\
    Parts.parts q' = Parts.parts q.
Proof.
  intros Hl Hn He Hd Hover. eexists. split.
  - simpl. rewrite Hn. simpl. rewrite He, Hd. simpl.
    unfold Parts.on_data.
    assert (E1 : (limits_fileSize cfg =? 0) = false) by (apply Z.eqb_neq; exact Hl).
    assert (E2 : (limits_fileSize cfg <? Parts.fileSize p + Z.of_nat (length chunk)) = true)
      by (apply Z.ltb_lt; exact Hover).
    rewrite E1, E2. simpl. reflexivity.
  - simpl. repeat split.
    apply list_lookup_insert_eq. eapply lookup_lt_Some; eauto.
Qed.

Lemma part006_counts cfg tr g q :
  0 < limits_fileSize cfg ->
  Parts.run Part006 cfg (Parts.Running Parts.empty_running) tr = Some g ->
  g = Parts.Running q ->
  Forall (counted cfg) (Parts.streams q).
Proof.
  intros Hl.
  assert (G : forall tr g0 g1,
    (forall q0, g0 = Parts.Running q0 -> Forall (counted cfg) (Parts.streams q0)) ->
    Parts.run Part006 cfg g0 tr = Some g1 ->
    forall q1, g1 = Parts.Running q1 -> Forall (counted cfg) (Parts.streams q1)).
  { clear tr g q. induction tr as [|e tr IH]; intros g0 g1 H0 Hrun; simpl in Hrun.
    - injection Hrun as <-. exact H0.
    - destruct (Parts.step Part006 cfg g0 e) as [g'|] eqn:E; simpl in Hrun;
        [|discriminate].
      apply (IH g' g1); [|exact Hrun].
      intros q' ->. destruct g0 as [|q0|]; simpl in E; try discriminate.
      specialize (H0 q0 eq_refl).
      destruct e; simpl in E.
      + injection E as <-. simpl. apply Forall_app. split; [exact H0|].
        constructor; [|constructor]. split; simpl; [lia | reflexivity].
      + injection E as <-. exact H0.
      + injection E as <-. exact H0.
      + injection E as <-. exact H0.
      + injection E as <-. exact H0.
      + injection E as <-. exact H0.
      + injection E as <-. exact H0.
      + destruct (Parts.streams q0 !! n) as [p|] eqn:En; simpl in E; [|discriminate].
        destruct (Parts.ended p || bool_decide (is_Some (Parts.destroyed p))) eqn:Eb;
          [discriminate|].
        apply orb_false_iff in Eb as [_ Hd]. apply bool_decide_eq_false in Hd.
        assert (Hd' : Parts.destroyed p = None)
          by (destruct (Parts.destroyed p); [exfalso; apply Hd; eauto | reflexivity]).
        pose proof (proj1 (Forall_lookup _ _) H0 n p En) as [Hle Hcnt].
        specialize (Hcnt Hd').
        injection E as <-. unfold Parts.on_data.
        destruct (negb (limits_fileSize cfg =? 0) &&
                  (limits_fileSize cfg <? Parts.fileSize p + Z.of_nat (length chunk)))
          eqn:Ec; simpl.
        * apply Forall_insert; [exact H0|]. split; simpl; [exact Hle | discriminate].
        * apply Forall_insert; [exact H0|].
          apply andb_false_iff in Ec as [Ec|Ec].
          -- apply negb_false_iff, Z.eqb_eq in Ec. lia.
          -- apply Z.ltb_ge in Ec. split; simpl; rewrite total_snoc; lia.
      + destruct (Parts.streams q0 !! n) as [p|] eqn:En; simpl in E; [|discriminate].
        destruct (Parts.ended p || bool_decide (is_Some (Parts.destroyed p)));
          [discriminate|].
        pose proof (proj1 (Forall_lookup _ _) H0 n p En) as [Hle Hcnt].
        injection E as <-. simpl. apply Forall_insert; [exact H0|].
        split; simpl; assumption. }
  intros Hrun ->. eapply G; [|exact Hrun|reflexivity].
  intros q0 [= <-]. constructor.
Qed.

(** * Further properties *)

(** ** Runs and their traces *)

Lemma run_snoc v cfg s tr e s' :
  run v cfg s (tr ++ [e]) = Some s' <->
  exists s1, run v cfg s tr = Some s1 /\ step v cfg s1 e = Some s'.
Proof.
  revert s; induction tr as [|a tr IH]; intros s; simpl.
  - destruct (step v cfg s e) as [s1|] eqn:E; simpl.
    + split; [intros [= <-]; eauto | intros (s0 & [= <-] & H); congruence].
    + split; [discriminate | intros (s0 & [= <-] & H); congruence].
  - destruct (step v cfg s a) as [s1|]; simpl; [apply IH|].
    split; [discriminate | intros (s0 & H & _); discriminate].
Qed.

(** Induction over a run that keeps the trace in sight. *)
Lemma run_trace_ind v cfg s0 (P : list event -> pstate -> Prop) :
  P [] s0 ->
  (forall tr s e s', run v cfg s0 tr = Some s -> P tr s ->
     step v cfg s e = Some s' -> P (tr ++ [e]) s') ->
  forall tr s, run v cfg s0 tr = Some s -> P tr s.
Proof.
  intros H0 Hstep tr. induction tr as [|e tr IH] using rev_ind; intros s Hrun.
  - injection Hrun as <-. exact H0.
  - apply run_snoc in Hrun as (s1 & Hrun & He). eauto.
Qed.

Lemma file_paths_app cfg tr1 tr2 :
  file_paths cfg (tr1 ++ tr2) = file_paths cfg tr1 ++ file_paths cfg tr2.
Proof. apply omap_app. Qed.

(** What one handler does to the accumulators, read off its event. *)
Lemma step_effect v cfg s e s' :
  step v cfg s e = Some s' ->
  tempFiles s' = tempFiles s ++ file_paths cfg [e] /\
  length (sinks s') = (length (sinks s) + length (file_paths cfg [e]))%nat /\
  st_files s' = st_files s ++ omap (fun n => sink_obj <$> sinks s !! n) (flush_order [e]) /\
  length (st_files s') = (length (st_files s) + length (flush_order [e]))%nat /\
  on_fields (st_fields s) (field_pairs [e]) = Some (st_fields s') /\
  pendingFiles s' = pendingFiles s + Z.of_nat (length (file_paths cfg [e]))
                    - Z.of_nat (length (flush_order [e])).
Proof.
  intros H. step_inv H; simpl; rewrite ?Ek; handlers;
    rewrite ?app_nil_r, ?length_app, ?length_alter, ?Nat.add_0_r; simpl;
    repeat split; try reflexivity; try lia; try congruence.
Qed.

Lemma on_fields_app fs l1 l2 :
  on_fields fs (l1 ++ l2) = fs' ← on_fields fs l1; on_fields fs' l2.
Proof.
  revert fs; induction l1 as [|[k x] l1 IH]; intros fs; simpl;
    [reflexivity | apply IH].
Qed.

(** The accumulators of a reachable state, read off the trace: temp paths and
    write streams per 'file' event, one descriptor per flush, the counter as
    their difference, the fields folded over the 'field' events. *)
Lemma run_effect v cfg r d tr s :
  run v cfg (parseMultipart r d) tr = Some s ->
  tempFiles s = file_paths cfg tr /\
  length (sinks s) = length (file_paths cfg tr) /\
  length (st_files s) = length (flush_order tr) /\
  on_fields ∅ (field_pairs tr) = Some (st_fields s) /\
  pendingFiles s = Z.of_nat (length (file_paths cfg tr))
                   - Z.of_nat (length (flush_order tr)).
Proof.
  apply (run_trace_ind v cfg (parseMultipart r d) (fun tr s =>
    tempFiles s = file_paths cfg tr /\
    length (sinks s) = length (file_paths cfg tr) /\
    length (st_files s) = length (flush_order tr) /\
    on_fields ∅ (field_pairs tr) = Some (st_fields s) /\
    pendingFiles s = Z.of_nat (length (file_paths cfg tr))
                     - Z.of_nat (length (flush_order tr)))).
  - unfold parseMultipart. destruct (negb (is_multipart r)); [|destruct (bb_throws r)]; simpl; auto.
  - clear tr s. intros tr s e s' _ (Ht & Hl & Hf & Hfs & Hp) Hstep.
    destruct (step_effect _ _ _ _ _ Hstep) as (Et & El & _ & Ef & Efs & Ep).
    unfold file_paths, flush_order, field_pairs in *.
    rewrite !omap_app, !length_app.
    repeat split; try congruence; try lia.
    rewrite on_fields_app, Hfs. exact Efs.
Qed.

Lemma omap_ext_Forall {A B} (f g : A -> option B) (l : list A) :
  Forall (fun x => f x = g x) l -> omap f l = omap g l.
Proof.
  induction 1 as [|x l Hx _ IH]; [reflexivity|].
  cbn. rewrite Hx. destruct (g x); cbn; rewrite IH; reflexivity.
Qed.

(** A descriptor, once closed over by a write stream, is the same in every
    later state. *)
Lemma sink_obj_lookup_step v cfg s e s' n :
  step v cfg s e = Some s' -> (n < length (sinks s))%nat ->
  sink_obj <$> sinks s' !! n = sink_obj <$> sinks s !! n.
Proof.
  intros Hstep Hn. destruct (sink_objs_step _ _ _ _ _ Hstep) as [more Hm].
  rewrite <- !list_lookup_fmap, Hm.
  apply lookup_app_l. rewrite length_fmap. exact Hn.
Qed.

(** A write stream that has flushed stays flushed; the stream a 'finish'
    event names was open before and is flushed after. *)
Lemma step_flush_status v cfg s e s' :
  step v cfg s e = Some s' ->
  (forall n, sink_status <$> sinks s !! n = Some Finished ->
             sink_status <$> sinks s' !! n = Some Finished) /\
  Forall (fun n => sink_status <$> sinks s !! n = Some Open /\
                   sink_status <$> sinks s' !! n = Some Finished)
         (flush_order [e]).
Proof.
  intros H. split.
  - intros m Hm. destruct (sinks s !! m) as [km|] eqn:E; [|discriminate].
    simpl in Hm. injection Hm as Hm.
    destruct (step_sink _ _ _ _ _ _ _ H E) as (km' & E' & _ & [Hst|Hst]);
      rewrite E'; simpl;
      [congruence | rewrite Hm in Hst; destruct (sink_status km'); contradiction].
  - step_inv H; simpl; try constructor; try constructor.
    + rewrite Ek. simpl. congruence.
    + handlers; rewrite list_lookup_alter_eq, Ek; reflexivity.
Qed.

Lemma step_flush_bound v cfg s e s' :
  step v cfg s e = Some s' ->
  Forall (fun n => (n < length (sinks s))%nat) (flush_order [e]).
Proof.
  intros H. destruct (step_flush_status _ _ _ _ _ H) as [_ HF].
  eapply Forall_impl; [exact HF|]. intros n [Ho _]. simpl in Ho.
  destruct (sinks s !! n) eqn:E; [|discriminate]. eapply lookup_lt_Some; eauto.
Qed.

(** The flush invariant: [st_files] holds the descriptors of the flushed
    write streams in the order of their 'finish' events; each of them is
    flushed, and none flushed twice. *)
Lemma run_flush v cfg r d tr s :
  run v cfg (parseMultipart r d) tr = Some s ->
  st_files s = omap (fun n => sink_obj <$> sinks s !! n) (flush_order tr) /\
  Forall (fun n => sink_status <$> sinks s !! n = Some Finished) (flush_order tr) /\
  NoDup (flush_order tr).
Proof.
  apply (run_trace_ind v cfg (parseMultipart r d) (fun tr s =>
    st_files s = omap (fun n => sink_obj <$> sinks s !! n) (flush_order tr) /\
    Forall (fun n => sink_status <$> sinks s !! n = Some Finished) (flush_order tr) /\
    NoDup (flush_order tr))).
  - unfold parseMultipart. destruct (negb (is_multipart r)); [|destruct (bb_throws r)]; simpl;
      repeat split; constructor.
  - clear tr s. intros tr s e s' _ (Hf & HF & Hnd) Hstep.
    destruct (step_effect _ _ _ _ _ Hstep) as (_ & _ & Ef & _).
    destruct (step_flush_status _ _ _ _ _ Hstep) as [Hstay Hnew].
    pose proof (step_flush_bound _ _ _ _ _ Hstep) as Hb.
    unfold flush_order in *. rewrite omap_app. fold (flush_order [e]) in *.
    fold (flush_order tr) in *.
    split; [|split].
    + rewrite Ef, Hf, omap_app. f_equal; apply omap_ext_Forall.
      * eapply Forall_impl; [exact HF|]. intros n Hn. simpl in Hn.
        symmetry. eapply sink_obj_lookup_step; [exact Hstep|].
        destruct (sinks s !! n) eqn:E; [|discriminate]. eapply lookup_lt_Some; eauto.
      * eapply Forall_impl; [exact Hb|]. intros n Hn. simpl in Hn.
        symmetry. eapply sink_obj_lookup_step; eauto.
    + apply Forall_app. split.
      * eapply Forall_impl; [exact HF|]. intros n Hn. apply Hstay, Hn.
      * eapply Forall_impl; [exact Hnew|]. intros n [_ Hn]. exact Hn.
    + apply NoDup_app. split; [exact Hnd|]. split.
      * intros n Hin Hin'.
        pose proof (proj1 (Forall_forall _ _) HF n Hin) as H1.
        pose proof (proj1 (Forall_forall _ _) Hnew n Hin') as [H2 _].
        simpl in H1, H2. congruence.
      * destruct e; simpl; try constructor; [apply not_elem_of_nil | constructor].
Qed.

Lemma omap_all_some {A B} (g : A -> option B) (l : list A) :
  Forall (fun x => is_Some (g x)) l -> Some <$> omap g l = g <$> l.
Proof.
  induction 1 as [|x l [y Hy] _ IH]; [reflexivity|].
  cbn. rewrite Hy. cbn. f_equal. exact IH.
Qed.

Lemma omap_lookup_seq {A B} (f : A -> B) (l : list A) :
  omap (fun n => f <$> l !! n) (seq 0 (length l)) = f <$> l.
Proof.
  induction l as [|a l IH] using rev_ind; [reflexivity|].
  rewrite length_app. simpl. rewrite Nat.add_1_r, seq_S, omap_app, fmap_app. simpl.
  rewrite lookup_app_r, Nat.sub_diag by lia. simpl. f_equal.
  rewrite <- IH. apply omap_ext_Forall, Forall_forall. intros n Hn.
  apply elem_of_seq in Hn. rewrite lookup_app_l by lia. reflexivity.
Qed.

(** ** Temp paths, descriptors and the order of both *)

(** X1.  The tracked temp paths are the paths generated for the 'file'
    events of the parse, in encounter order, one per event; the pending
    counter is the number of 'file' events minus the number of flushes; and a
    resolved result carries those paths and one descriptor per 'file' event. *)
Theorem temp_paths_follow_file_events v cfg r d tr s :
  run v cfg (parseMultipart r d) tr = Some s ->
  tempFiles s = file_paths cfg tr /\
  (fun k => _tempPath (sink_obj k)) <$> sinks s = file_paths cfg tr /\
  pendingFiles s = Z.of_nat (length (file_paths cfg tr))
                   - Z.of_nat (length (flush_order tr)) /\
  forall res, outcome s = Resolved res ->
    _tempFiles res = file_paths cfg tr /\
    length (files res) = length (file_paths cfg tr).
Proof.
  intros Hrun.
  destruct (run_effect _ _ _ _ _ _ Hrun) as (Ht & Hl & Hf & _ & Hp).
  pose proof (inv_run _ _ _ _ _ _ Hrun) as Hi.
  split; [exact Ht|]. split; [rewrite <- (inv_paths _ Hi); exact Ht|].
  split; [exact Hp|].
  intros res Hr. destruct (inv_resolved _ Hi res Hr) as [_ Hz].
  rewrite (inv_result _ Hi res Hr). simpl. split; [exact Ht|]. lia.
Qed.

Lemma temp_paths_follow_file_events_witness :
  exists s res,
    run IndexJs sample_cfg (parseMultipart sample_request Fs.empty)
      [EvFile "a" sample_info 1700000000000 "k3x9p"; EvWriteOpen 0; EvField "t" "x";
       EvFile "b" bare_info 1700000000001 "q7"; EvWriteOpen 1; EvWriteFinish 1; EvWriteFinish 0;
       EvFinish] = Some s /\
    outcome s = Resolved res /\
    _tempFiles res = ["/tmp/upload_1700000000000_k3x9p"; "/tmp/upload_1700000000001_q7"] /\
    length (files res) = 2%nat.
Proof.
  eexists _, _. split; [vm_compute; reflexivity|]. split; [reflexivity|].
  destruct (temp_paths_follow_file_events IndexJs sample_cfg sample_request Fs.empty
    [EvFile "a" sample_info 1700000000000 "k3x9p"; EvWriteOpen 0; EvField "t" "x";
     EvFile "b" bare_info 1700000000001 "q7"; EvWriteOpen 1; EvWriteFinish 1; EvWriteFinish 0;
     EvFinish] _ ltac:(vm_compute; reflexivity)) as (_ & _ & _ & H).
  destruct (H _ eq_refl) as [H1 H2]. split; [exact H1 | exact H2].
Defined.

(** X2.  The descriptors in [files] are those of the flushed write streams
    in the order the streams flushed, which need not be the order of the
    parts in the body; no stream contributes twice. *)
Theorem files_in_flush_order v cfg r d tr s :
  run v cfg (parseMultipart r d) tr = Some s ->
  Some <$> st_files s = (fun n => sink_obj <$> sinks s !! n) <$> flush_order tr /\
  NoDup (flush_order tr) /\
  forall res, outcome s = Resolved res ->
    Some <$> files res = (fun n => sink_obj <$> sinks s !! n) <$> flush_order tr.
Proof.
  intros Hrun. destruct (run_flush _ _ _ _ _ _ Hrun) as (Hf & HF & Hnd).
  assert (H : Some <$> st_files s =
              (fun n => sink_obj <$> sinks s !! n) <$> flush_order tr).
  { rewrite Hf. apply omap_all_some. eapply Forall_impl; [exact HF|].
    intros n Hn. simpl in Hn. destruct (sinks s !! n); [eauto | discriminate]. }
  split; [exact H|]. split; [exact Hnd|].
  intros res Hr. rewrite (inv_result _ (inv_run _ _ _ _ _ _ Hrun) res Hr). exact H.
Qed.

Lemma files_in_flush_order_witness :
  exists s,
    run Part006 sample_cfg (parseMultipart sample_request Fs.empty)
      [EvFile "a" sample_info 1700000000000 "k3x9p"; EvWriteOpen 0;
       EvFile "b" bare_info 1700000000001 "q7"; EvWriteOpen 1; EvWriteFinish 1; EvWriteFinish 0;
       EvFinish] = Some s /\
    (fieldname <$> st_files s) = ["b"; "a"] /\
    (fieldname <$> (sink_obj <$> sinks s)) = ["a"; "b"] /\
    Some <$> st_files s = (fun n => sink_obj <$> sinks s !! n) <$> [1%nat; 0%nat] /\
    NoDup [1%nat; 0%nat].
Proof.
  eexists. split; [vm_compute; reflexivity|].
  split; [reflexivity|]. split; [reflexivity|].
  destruct (files_in_flush_order Part006 sample_cfg sample_request Fs.empty
    [EvFile "a" sample_info 1700000000000 "k3x9p"; EvWriteOpen 0;
     EvFile "b" bare_info 1700000000001 "q7"; EvWriteOpen 1; EvWriteFinish 1; EvWriteFinish 0;
     EvFinish] _ ltac:(vm_compute; reflexivity)) as (H1 & H2 & _).
  split; [exact H1 | exact H2].
Defined.

(** X3.  When the promise resolves, every write stream the parse opened has
    contributed exactly one descriptor: [files] is a rearrangement of the
    descriptors of the 'file' events, and the temp paths of [files] are a
    rearrangement of [_tempFiles]. *)
Theorem resolved_files_match_temp_paths v cfg r d tr s res :
  run v cfg (parseMultipart r d) tr = Some s ->
  outcome s = Resolved res ->
  files res ≡ₚ sink_obj <$> sinks s /\
  _tempPath <$> files res ≡ₚ _tempFiles res.
Proof.
  intros Hrun Hr.
  pose proof (inv_run _ _ _ _ _ _ Hrun) as Hi.
  destruct (run_flush _ _ _ _ _ _ Hrun) as (Hf & HF & Hnd).
  destruct (run_effect _ _ _ _ _ _ Hrun) as (Ht & Hl & Hlf & _ & Hp).
  destruct (inv_resolved _ Hi res Hr) as [_ Hz].
  assert (Hperm : flush_order tr ≡ₚ seq 0 (length (sinks s))).
  { apply submseteq_length_Permutation.
    - apply NoDup_submseteq; [exact Hnd|]. intros n Hn. apply elem_of_seq.
      pose proof (proj1 (Forall_forall _ _) HF n Hn) as H1. simpl in H1.
      destruct (sinks s !! n) eqn:E; [|discriminate].
      apply lookup_lt_Some in E. lia.
    - rewrite length_seq. lia. }
  assert (Hfiles : files res ≡ₚ sink_obj <$> sinks s).
  { rewrite (inv_result _ Hi res Hr). simpl. rewrite Hf, Hperm.
    rewrite omap_lookup_seq. reflexivity. }
  split; [exact Hfiles|].
  rewrite Hfiles, (inv_result _ Hi res Hr). simpl.
  rewrite (inv_paths _ Hi), <- list_fmap_compose. reflexivity.
Qed.

Lemma resolved_files_match_temp_paths_witness :
  exists s res,
    run Part006 sample_cfg (parseMultipart sample_request Fs.empty)
      [EvFile "a" sample_info 1700000000000 "k3x9p"; EvWriteOpen 0;
       EvFile "b" bare_info 1700000000001 "q7"; EvWriteOpen 1; EvWriteFinish 1; EvWriteFinish 0;
       EvFinish] = Some s /\
    outcome s = Resolved res /\
    files res ≡ₚ sink_obj <$> sinks s /\
    _tempPath <$> files res ≡ₚ _tempFiles res.
Proof.
  eexists _, _. split; [vm_compute; reflexivity|]. split; [reflexivity|].
  eapply (resolved_files_match_temp_paths Part006 sample_cfg sample_request Fs.empty
    [EvFile "a" sample_info 1700000000000 "k3x9p"; EvWriteOpen 0;
     EvFile "b" bare_info 1700000000001 "q7"; EvWriteOpen 1; EvWriteFinish 1; EvWriteFinish 0;
     EvFinish]).
  - vm_compute; reflexivity.
  - reflexivity.
Defined.

(** ** How a parse can end *)

Lemma reject_rejected {R E} (e0 e : E) (p : promise R E) :
  reject e0 p = Rejected e -> p = Rejected e \/ (p = Pending /\ e = e0).
Proof. destruct p; simpl; intros [= <-]; auto. Qed.

Lemma resolve_rejected {R E} (r : R) (e : E) (p : promise R E) :
  resolve r p = Rejected e -> p = Rejected e.
Proof. destruct p; simpl; congruence. Qed.

(** X4.  A rejection of [parseMultipart] is InvalidMultipartContentType,
    FilesLimit, FieldsLimit, an error handed on from the tokenizer or a write
    stream, or - in the second copy only - FileSizeLimit.  It is never
    InvalidPart, which the plugin exports but does not raise, and it is
    InvalidMultipartContentType only when the header test failed. *)
Theorem rejections_are_classified v cfg r d tr s e :
  run v cfg (parseMultipart r d) tr = Some s ->
  outcome s = Rejected e ->
  parse_rejection v e /\
  (e = InvalidMultipartContentType -> is_multipart r = false).
Proof.
  intros Hrun. revert e.
  apply (run_invariant v cfg (fun s => forall e, outcome s = Rejected e ->
           parse_rejection v e /\
           (e = InvalidMultipartContentType -> is_multipart r = false)))
    with (tr := tr) (s := parseMultipart r d); [|  |exact Hrun].
  - clear. intros s e s' IH H e0.
    assert (Hrej : forall e1, parse_rejection v e1 -> e1 <> InvalidMultipartContentType ->
              reject e1 (outcome s) = Rejected e0 ->
              parse_rejection v e0 /\
              (e0 = InvalidMultipartContentType -> is_multipart r = false)).
    { intros e1 H1 H2 Hx. apply reject_rejected in Hx as [Hx|[_ ->]];
        [apply IH, Hx | split; [exact H1 | contradiction]]. }
    step_inv H; handlers; intros Hx;
      try (apply IH; exact Hx);
      try (apply resolve_rejected in Hx; apply IH; exact Hx);
      try (eapply Hrej; [| |exact Hx]; [exact I || reflexivity | discriminate]).
  - intros e. unfold parseMultipart.
    destruct (is_multipart r) eqn:E; simpl; [destruct (bb_throws r); simpl|];
      intros [= <-]; split; try exact I; auto; discriminate.
Qed.

Lemma rejections_are_classified_witness :
  exists s,
    run IndexJs sample_cfg (parseMultipart sample_request Fs.empty)
        [EvFile "a" sample_info 1700000000000 "k3x9p"; EvWriteOpen 0; EvFilesLimit; EvError None]
    = Some s /\
    outcome s = Rejected FilesLimit /\
    parse_rejection IndexJs FilesLimit /\
    (FilesLimit = InvalidMultipartContentType -> is_multipart sample_request = false).
Proof.
  eexists. split; [vm_compute; reflexivity|]. split; [reflexivity|].
  eapply (rejections_are_classified IndexJs sample_cfg sample_request Fs.empty
    [EvFile "a" sample_info 1700000000000 "k3x9p"; EvWriteOpen 0; EvFilesLimit; EvError None]).
  - vm_compute; reflexivity.
  - reflexivity.
Defined.

Lemma settled_run v cfg tr s s' :
  outcome s <> Pending -> run v cfg s tr = Some s' -> outcome s' = outcome s.
Proof.
  revert s; induction tr as [|e tr IH]; intros s Hs H; simpl in H.
  - congruence.
  - destruct (step v cfg s e) as [s1|] eqn:E; simpl in H; [|discriminate].
    pose proof (settled_step _ _ _ _ _ Hs E) as H1.
    rewrite <- H1. apply IH; [congruence | exact H].
Qed.

(** X5.  The first settlement is final: once the promise of a parse is
    resolved or rejected, no later tokenizer, file stream or write stream
    event changes it.  A parse rejected for a limit stays rejected when the
    tokenizer finishes. *)
Theorem first_settlement_is_final v cfg r d tr1 tr2 s1 s2 :
  run v cfg (parseMultipart r d) tr1 = Some s1 ->
  outcome s1 <> Pending ->
  run v cfg s1 tr2 = Some s2 ->
  outcome s2 = outcome s1 /\
  run v cfg (parseMultipart r d) (tr1 ++ tr2) = Some s2.
Proof.
  intros H1 Hs H2. split; [eapply settled_run; eauto|].
  revert H1. generalize (parseMultipart r d). clear -H2.
  induction tr1 as [|e tr IH]; intros s0 H1; simpl in *.
  - injection H1 as ->. exact H2.
  - destruct (step v cfg s0 e); simpl in *; [eauto | discriminate].
Qed.

Lemma first_settlement_is_final_witness :
  exists s1 s2,
    run Part006 sample_cfg (parseMultipart sample_request Fs.empty)
        [EvFile "a" sample_info 1700000000000 "k3x9p"; EvWriteOpen 0; EvFieldsLimit] = Some s1 /\
    outcome s1 <> Pending /\
    run Part006 sample_cfg s1 [EvWriteFinish 0; EvFinish] = Some s2 /\
    outcome s2 = outcome s1 /\
    outcome s2 = Rejected FieldsLimit.
Proof.
  eexists _, _. split; [vm_compute; reflexivity|].
  split; [discriminate|]. split; [vm_compute; reflexivity|].
  split; [|reflexivity].
  eapply (first_settlement_is_final Part006 sample_cfg sample_request Fs.empty
    [EvFile "a" sample_info 1700000000000 "k3x9p"; EvWriteOpen 0; EvFieldsLimit]
    [EvWriteFinish 0; EvFinish]).
  - vm_compute; reflexivity.
  - discriminate.
  - vm_compute; reflexivity.
Defined.

(** ** What a parse leaves on disk *)

(** The file contents after one handler: an open write stream appends the
    chunk it is handed; an open that succeeds creates the file, empty, and
    writes what the stream held; nothing else touches a file. *)
Lemma step_contents v cfg s e s' :
  step v cfg s e = Some s' ->
  contents (disk s') =
  match e with
  | EvFileData m chunk =>
      match sinks s !! m with
      | Some k =>
          match sink_status k with
          | Open => alter (fun c => c ++ chunk) (_tempPath (sink_obj k))
                          (contents (disk s))
          | _ => contents (disk s)
          end
      | None => contents (disk s)
      end
  | EvWriteOpen m =>
      match sinks s !! m with
      | Some k =>
          match sink_status k with
          | Opening held => <[_tempPath (sink_obj k) := held]> (contents (disk s))
          | Aborted => <[_tempPath (sink_obj k) := []]> (contents (disk s))
          | _ => contents (disk s)
          end
      | None => contents (disk s)
      end
  | _ => contents (disk s)
  end.
Proof.
  intros H. step_inv H; simpl; rewrite ?Ek, ?Heqw; handlers; try reflexivity.
  apply alter_insert_eq.
Qed.

(** A handler never removes a file. *)
Lemma step_keeps_files v cfg s e s' p :
  step v cfg s e = Some s' ->
  is_Some (contents (disk s) !! p) -> is_Some (contents (disk s') !! p).
Proof.
  intros H Hp. rewrite (step_contents _ _ _ _ _ H).
  destruct e; try exact Hp.
  - destruct (sinks s !! n) as [k|]; [|exact Hp].
    destruct (sink_status k); try exact Hp.
    rewrite lookup_alter_is_Some. exact Hp.
  - destruct (sinks s !! n) as [k|]; [|exact Hp].
    destruct (sink_status k); try exact Hp;
      apply lookup_insert_is_Some'; right; exact Hp.
Qed.

(** The file of a write stream that has opened and was not destroyed, and
    has not failed, exists. *)
Lemma run_opened_exist v cfg r d tr s n k :
  run v cfg (parseMultipart r d) tr = Some s ->
  sinks s !! n = Some k ->
  sink_status k = Open \/ sink_status k = Finished ->
  is_Some (contents (disk s) !! _tempPath (sink_obj k)).
Proof.
  intros Hrun. revert n k.
  apply (run_invariant v cfg (fun s => forall n k, sinks s !! n = Some k ->
           sink_status k = Open \/ sink_status k = Finished ->
           is_Some (contents (disk s) !! _tempPath (sink_obj k))))
    with (tr := tr) (s := parseMultipart r d); [| |exact Hrun].
  - clear. intros s e s' IH H n k' Hn' Hst.
    destruct (sinks s !! n) as [k|] eqn:Hn.
    + destruct (step_sink _ _ _ _ _ _ _ H Hn) as (k0 & Hn0 & Hobj & Hmv).
      rewrite Hn' in Hn0. injection Hn0 as <-. rewrite Hobj.
      destruct Hmv as [Heq|Hmv].
      * eapply step_keeps_files; [exact H|]. apply (IH n k Hn). congruence.
      * destruct (sink_status k) eqn:Ek, (sink_status k') eqn:Ek';
          simpl in Hmv; try contradiction;
          try (destruct Hst; discriminate).
        -- subst e. rewrite (step_contents _ _ _ _ _ H), Hn, Ek.
           rewrite lookup_insert_eq. eauto.
        -- eapply step_keeps_files; [exact H|]. apply (IH n k Hn). auto.
    + destruct (step_new_sink _ _ _ _ _ _ _ H Hn Hn') as (_ & Hop & _).
      rewrite Hop in Hst. destruct Hst; discriminate.
  - intros n k Hn. unfold parseMultipart in Hn.
    destruct (negb (is_multipart r)); [|destruct (bb_throws r)];
      simpl in Hn; discriminate.
Qed.

(** X6.  A parse never deletes a file: every file that was on disk before
    still exists, and so does the temp file of every descriptor in [files],
    whether the promise resolves or not.  If the response ends before the parse has
    reached a resolve site - for instance after a rejection - the
    'onResponse' hook finds no tracked paths and leaves the disk as it is,
    those temp files included. *)
Theorem unresolved_parse_leaves_temp_files v cfg ct d tr s :
  run v cfg (parseMultipart (fresh_request ct) d) tr = Some s ->
  (forall p, is_Some (contents d !! p) -> is_Some (contents (disk s) !! p)) /\
  (forall f, f ∈ st_files s -> is_Some (contents (disk s) !! _tempPath f)) /\
  (finished s = false \/ pendingFiles s <> 0 ->
   onResponse (req s) (disk s) = (Resolved tt, disk s)).
Proof.
  intros Hrun. split; [|split].
  - revert Hrun. apply (run_invariant v cfg (fun s => forall p,
      is_Some (contents d !! p) -> is_Some (contents (disk s) !! p))).
    + intros s0 e s' IH H p Hp. eapply step_keeps_files; [exact H | apply IH, Hp].
    + intros p Hp. unfold parseMultipart.
      destruct (negb (is_multipart _)); [|destruct (bb_throws _)]; exact Hp.
  - intros f Hf.
    destruct (run_flush _ _ _ _ _ _ Hrun) as (Hfs & HF & _).
    rewrite Hfs in Hf. apply list_elem_of_omap in Hf as (n & Hn & Hf).
    pose proof (proj1 (Forall_forall _ _) HF n Hn) as Hst. simpl in Hst.
    destruct (sinks s !! n) as [k|] eqn:Hk; [|discriminate].
    simpl in Hf, Hst. injection Hf as <-. injection Hst as Hst.
    eapply run_opened_exist; eauto.
  - intros Hnot.
    destruct (cache_inv_run _ _ _ _ _ _ Hrun) as [_ [Hun _ _]].
    unfold onResponse. destruct Hun as [_ ->]; [|reflexivity].
    destruct Hnot as [->|Hz]; [reflexivity|].
    apply Z.eqb_neq in Hz. rewrite Hz. apply andb_false_r.
Qed.

Lemma unresolved_parse_leaves_temp_files_witness :
  exists s f,
    run IndexJs sample_cfg (parseMultipart sample_request Fs.empty)
        [EvFile "a" sample_info 1700000000000 "k3x9p";
         EvFile "b" sample_info 1700000000001 "q7";
         EvWriteOpen 0; EvFileData 0 [Byte.x48]; EvWriteFinish 0;
         EvWriteError 1 (Some "EMFILE"); EvFinish] = Some s /\
    outcome s = Rejected (Foreign (Some "EMFILE")) /\
    st_files s = [f] /\
    is_Some (contents (disk s) !! _tempPath f) /\
    contents (disk s) !! "/tmp/upload_1700000000001_q7" = None /\
    onResponse (req s) (disk s) = (Resolved tt, disk s).
Proof.
  eexists _, _. split; [vm_compute; reflexivity|]. split; [reflexivity|].
  split; [reflexivity|].
  destruct (unresolved_parse_leaves_temp_files IndexJs sample_cfg
    (Some "multipart/form-data; boundary=----x") Fs.empty
    [EvFile "a" sample_info 1700000000000 "k3x9p";
     EvFile "b" sample_info 1700000000001 "q7";
     EvWriteOpen 0; EvFileData 0 [Byte.x48]; EvWriteFinish 0;
     EvWriteError 1 (Some "EMFILE"); EvFinish] _
    ltac:(vm_compute; reflexivity)) as (_ & H1 & H2).
  split; [apply H1; left|]. split; [reflexivity|].
  apply H2. right. discriminate.
Defined.

(** ** Fields *)

(** X7.  The fields of a parse are the 'field' handler folded over the
    'field' events alone, in order: file parts, limits, errors and flushes
    never touch them.  With non-empty values and names outside
    Object.prototype, a name submitted once maps to its string and a name
    submitted k >= 2 times to its k values in order. *)
Theorem fields_follow_field_events v cfg r d tr s :
  run v cfg (parseMultipart r d) tr = Some s ->
  on_fields ∅ (field_pairs tr) = Some (st_fields s) /\
  (Forall (fun p => inherited (fst p) = false /\ snd p <> "") (field_pairs tr) ->
   forall k, inherited k = false ->
     st_fields s !! k = expected (occurrences k (field_pairs tr))).
Proof.
  intros Hrun. destruct (run_effect _ _ _ _ _ _ Hrun) as (_ & _ & _ & Hfs & _).
  split; [exact Hfs|]. intros Hok k Hk.
  destruct (on_fields_expected _ Hok) as (fs & E & H).
  rewrite Hfs in E. injection E as ->. apply H, Hk.
Qed.

Lemma fields_follow_field_events_witness :
  exists s,
    run IndexJs sample_cfg (parseMultipart sample_request Fs.empty)
        [EvField "tag" "a"; EvFile "f" sample_info 1700000000000 "k3x9p"; EvWriteOpen 0;
         EvField "name" "n"; EvField "tag" "b"; EvFilesLimit; EvField "tag" "c"]
    = Some s /\
    st_fields s !! "tag" = Some (Repeated [Str "a"; Str "b"; Str "c"]) /\
    st_fields s !! "name" = Some (Scalar (Str "n")) /\
    st_fields s !! "other" = None.
Proof.
  eexists. split; [vm_compute; reflexivity|].
  destruct (fields_follow_field_events IndexJs sample_cfg sample_request Fs.empty
    [EvField "tag" "a"; EvFile "f" sample_info 1700000000000 "k3x9p"; EvWriteOpen 0;
     EvField "name" "n"; EvField "tag" "b"; EvFilesLimit; EvField "tag" "c"] _
    ltac:(vm_compute; reflexivity)) as [_ H].
  assert (Hok : Forall (fun p : string * string => inherited (fst p) = false /\ snd p <> "")
                  [("tag", "a"); ("name", "n"); ("tag", "b"); ("tag", "c")])
    by (repeat constructor; discriminate).
  split; [exact (H Hok "tag" eq_refl)|].
  split; [exact (H Hok "name" eq_refl) | exact (H Hok "other" eq_refl)].
Defined.

(** ** The accessors of the second copy *)

(** X8.  In the second copy [files()] and [file()] throw until a parse on the
    request has reached a resolve site.  From then on [files()] returns the
    descriptors in flush order and [file()] the first of them, or null when
    the body had no file part - also when the promise itself was rejected. *)
Theorem accessors_need_a_resolve_site cfg ct d tr s :
  run Part006 cfg (parseMultipart (fresh_request ct) d) tr = Some s ->
  (finished s = false \/ pendingFiles s <> 0 ->
   (exists e, files_Part006 (req s) = inl e) /\
   (exists e, file_Part006 (req s) = inl e)) /\
  (finished s = true -> pendingFiles s = 0 ->
   files_Part006 (req s) = inr (st_files s) /\
   file_Part006 (req s) = inr (head (st_files s)) /\
   (file_paths cfg tr = [] -> file_Part006 (req s) = inr None)).
Proof.
  intros Hrun.
  destruct (cache_inv_run _ _ _ _ _ _ Hrun) as [_ [Hun Hst _]].
  unfold files_Part006, file_Part006. split.
  - intros Hnot. destruct Hun as [-> _]; [|eauto].
    destruct Hnot as [->|Hz]; [reflexivity|].
    apply Z.eqb_neq in Hz. rewrite Hz. apply andb_false_r.
  - intros Hf Hz. rewrite Hf, Hz in Hst. destruct (Hst eq_refl) as [-> _]. simpl.
    split; [reflexivity|]. split; [reflexivity|].
    intros Hno. destruct (run_effect _ _ _ _ _ _ Hrun) as (_ & _ & Hl & _ & Hp).
    rewrite Hno in Hp. simpl in Hp.
    destruct (st_files s); [reflexivity | simpl in Hl; lia].
Qed.

Lemma accessors_need_a_resolve_site_witness :
  exists s,
    run Part006 sample_cfg (parseMultipart sample_request Fs.empty)
        [EvField "name" "n"; EvFinish] = Some s /\
    files_Part006 (req s) = inr [] /\
    file_Part006 (req s) = inr None /\
    (exists e, files_Part006 sample_request = inl e).
Proof.
  eexists. split; [vm_compute; reflexivity|].
  destruct (accessors_need_a_resolve_site sample_cfg
    (Some "multipart/form-data; boundary=----x") Fs.empty
    [EvField "name" "n"; EvFinish] _ ltac:(vm_compute; reflexivity)) as [_ H].
  destruct (H eq_refl eq_refl) as (H1 & _ & H3).
  split; [exact H1|]. split; [exact (H3 eq_refl)|]. eexists; reflexivity.
Defined.

(** ** Cleanup with an explicit list *)

Lemma unlink_all_dirs l d : dirs (unlink_all l d) = dirs d.
Proof.
  unfold unlink_all. revert d; induction l as [|p l IH]; intros d; simpl;
    [reflexivity|].
  rewrite IH. unfold unlink. destruct (contents d !! p); reflexivity.
Qed.

(** X9.  [cleanupTempFiles(paths)] with an array argument ignores the paths
    tracked on the request, never rejects - missing paths, repeated paths and
    paths of directories included - and is exact: afterwards no listed path
    holds a file, a path that is no spelling of a listed one holds what it
    held before, and no directory changed: a listed path that names a
    directory still exists, and so does the temp directory. *)
Theorem cleanup_with_paths_is_exact (r : request) (l : list string) (d : filesystem) :
  fst (cleanupTempFiles r (Some l) d) = Resolved tt /\
  (forall p, p ∈ l -> contents (snd (cleanupTempFiles r (Some l) d)) !! p = None) /\
  (forall p, p ∈ l ->
     existsSync p (snd (cleanupTempFiles r (Some l) d)) = is_dir p d) /\
  (forall p, Path.normalize p ∉ Path.normalize <$> l ->
     contents (snd (cleanupTempFiles r (Some l) d)) !! p = contents d !! p) /\
  dirs (snd (cleanupTempFiles r (Some l) d)) = dirs d /\
  cleanupTempFiles r (Some l) d = cleanupTempFiles (fresh_request None) (Some l) d.
Proof.
  unfold cleanupTempFiles. simpl. split; [reflexivity|].
  split; [|split; [|split; [|split; [apply unlink_all_dirs | reflexivity]]]].
  - intros p Hp. rewrite unlink_all_contents, decide_True by exact Hp. reflexivity.
  - intros p Hp. unfold existsSync, is_dir.
    rewrite unlink_all_dirs, unlink_all_contents, decide_True by exact Hp.
    rewrite (bool_decide_eq_false_2 (is_Some None)) by (intros [? ?]; discriminate).
    apply orb_false_r.
  - intros p Hp. rewrite unlink_all_contents, decide_False; [reflexivity|].
    intros Hin. apply Hp, list_elem_of_fmap. exists p. split; [reflexivity | exact Hin].
Qed.

(** A listed directory and a listed file: the file goes, the directory
    stays. *)
Example cleanup_with_paths_keeps_directories :
  let d := {| dirs := {["/tmp"]}; contents := {["/tmp/a" := [Byte.x48]]} |} in
  let d' := snd (cleanupTempFiles sample_request (Some ["/tmp"; "/tmp/a"; "/tmp/a"]) d) in
  existsSync "/tmp" d' = true /\ existsSync "/tmp/a" d' = false.
Proof. vm_compute. split; reflexivity. Qed.

(** ** The temp directory *)

Lemma existsSync_mkdirSync p d : existsSync p (mkdirSync p d) = true.
Proof.
  unfold existsSync, is_dir, mkdirSync, made_dirs. simpl.
  rewrite bool_decide_eq_true_2; [reflexivity | set_solver].
Qed.

(** Only the 'file' handler touches a directory, and only when it does not
    find the temp directory. *)
Lemma step_dirs v cfg s e s' :
  step v cfg s e = Some s' ->
  dirs (disk s') =
  match e with
  | EvFile _ _ _ _ =>
      if existsSync (tempDir cfg) (disk s) then dirs (disk s)
      else made_dirs (tempDir cfg) ∪ dirs (disk s)
  | _ => dirs (disk s)
  end.
Proof.
  intros H. step_inv H; simpl; rewrite ?Ek, ?Heqw; handlers; reflexivity.
Qed.

Lemma existsSync_keeps d d' p :
  dirs d ⊆ dirs d' ->
  (forall q, is_Some (contents d !! q) -> is_Some (contents d' !! q)) ->
  existsSync p d = true -> existsSync p d' = true.
Proof.
  unfold existsSync, is_dir. intros Hd Hc.
  rewrite !orb_true_iff, !bool_decide_eq_true. intros [[H|H]|H]; auto.
Qed.

Lemma step_temp_dir v cfg s e s' :
  step v cfg s e = Some s' ->
  (existsSync (tempDir cfg) (disk s) = true ->
   existsSync (tempDir cfg) (disk s') = true /\ dirs (disk s') = dirs (disk s)) /\
  (file_paths cfg [e] <> [] -> existsSync (tempDir cfg) (disk s') = true) /\
  (file_paths cfg [e] <> [] -> existsSync (tempDir cfg) (disk s) = false ->
   dirs (disk s') = made_dirs (tempDir cfg) ∪ dirs (disk s)) /\
  (file_paths cfg [e] = [] -> dirs (disk s') = dirs (disk s)).
Proof.
  intros H. pose proof (step_dirs _ _ _ _ _ H) as Hd.
  assert (Hk : forall q, is_Some (contents (disk s) !! q) ->
                         is_Some (contents (disk s') !! q))
    by (intros q; apply (step_keeps_files _ _ _ _ _ _ H)).
  assert (Hsame : existsSync (tempDir cfg) (disk s) = true ->
                  dirs (disk s') = dirs (disk s))
    by (intros Hex; rewrite Hd; destruct e; try reflexivity; rewrite Hex;
        reflexivity).
  split; [|split; [|split]].
  - intros Hex. split; [|exact (Hsame Hex)].
    eapply existsSync_keeps; [|exact Hk|exact Hex]. rewrite (Hsame Hex). reflexivity.
  - intros Hne. destruct e; try (exfalso; apply Hne; reflexivity).
    destruct (existsSync (tempDir cfg) (disk s)) eqn:Hex.
    + eapply existsSync_keeps; [|exact Hk|exact Hex]. rewrite Hd. reflexivity.
    + unfold existsSync, is_dir.
      rewrite Hd, bool_decide_eq_true_2; [reflexivity|].
      unfold made_dirs. set_solver.
  - intros Hne Hex. destruct e; try (exfalso; apply Hne; reflexivity).
    rewrite Hd, Hex. reflexivity.
  - intros Hnil. destruct e; try exact Hd. discriminate Hnil.
Qed.

(** Until its first 'file' event a parse leaves the disk as it found it. *)
Lemma run_without_files v cfg r d tr s :
  run v cfg (parseMultipart r d) tr = Some s ->
  file_paths cfg tr = [] ->
  dirs (disk s) = dirs d /\ contents (disk s) = contents d.
Proof.
  apply (run_trace_ind v cfg (parseMultipart r d) (fun tr s =>
    file_paths cfg tr = [] ->
    dirs (disk s) = dirs d /\ contents (disk s) = contents d)).
  - intros _. unfold parseMultipart.
    destruct (negb (is_multipart r)); [|destruct (bb_throws r)]; split; reflexivity.
  - clear tr s. intros tr s e s' Hrun IH Hstep Hnil.
    rewrite file_paths_app in Hnil. apply app_eq_nil in Hnil as [Ha Hb].
    destruct (IH Ha) as [IHd IHc].
    destruct (run_effect _ _ _ _ _ _ Hrun) as (_ & Hl & _).
    rewrite Ha in Hl. apply nil_length_inv in Hl.
    split.
    + rewrite (step_dirs _ _ _ _ _ Hstep). destruct e; try exact IHd.
      discriminate Hb.
    + rewrite (step_contents _ _ _ _ _ Hstep), Hl.
      destruct e; exact IHc.
Qed.

(** X10.  The temp directory is created by the first 'file' handler that
    does not find it, together with every missing directory above it, and by
    nothing else: a parse without file parts changes no directory, a parse
    with one leaves the temp directory in place, a parse that finds the temp
    directory creates none, and no directory outside the temp directory and
    the ones above it is ever created. *)
Theorem temp_dir_created_on_first_file v cfg r d tr s :
  run v cfg (parseMultipart r d) tr = Some s ->
  (file_paths cfg tr <> [] -> existsSync (tempDir cfg) (disk s) = true) /\
  (file_paths cfg tr <> [] -> existsSync (tempDir cfg) d = false ->
   dirs (disk s) = made_dirs (tempDir cfg) ∪ dirs d) /\
  (file_paths cfg tr = [] -> dirs (disk s) = dirs d) /\
  (existsSync (tempDir cfg) d = true -> dirs (disk s) = dirs d) /\
  dirs (disk s) ⊆ made_dirs (tempDir cfg) ∪ dirs d.
Proof.
  assert (G : forall tr s,
    run v cfg (parseMultipart r d) tr = Some s ->
    file_paths cfg tr <> [] ->
    existsSync (tempDir cfg) (disk s) = true /\
    dirs (disk s) = if existsSync (tempDir cfg) d then dirs d
                    else made_dirs (tempDir cfg) ∪ dirs d).
  { apply (run_trace_ind v cfg (parseMultipart r d) (fun tr s =>
      file_paths cfg tr <> [] ->
      existsSync (tempDir cfg) (disk s) = true /\
      dirs (disk s) = if existsSync (tempDir cfg) d then dirs d
                      else made_dirs (tempDir cfg) ∪ dirs d)).
    - intros H. contradiction H. reflexivity.
    - clear. intros tr s e s' Hrun IH Hstep Hne.
      destruct (step_temp_dir _ _ _ _ _ Hstep) as (S1 & S2 & S3 & S4).
      rewrite file_paths_app in Hne.
      destruct (file_paths cfg tr) as [|p ps] eqn:Etr.
      + simpl in Hne.
        destruct (run_without_files _ _ _ _ _ _ Hrun Etr) as [Hd Hc].
        assert (Hex : existsSync (tempDir cfg) (disk s) = existsSync (tempDir cfg) d)
          by (unfold existsSync, is_dir; rewrite Hd, Hc; reflexivity).
        split; [apply S2, Hne|].
        destruct (existsSync (tempDir cfg) d) eqn:Ed.
        * destruct (S1 Hex) as [_ ->]. exact Hd.
        * rewrite (S3 Hne Hex), Hd. reflexivity.
      + destruct (IH ltac:(discriminate)) as [IH1 IH2].
        destruct (S1 IH1) as [S11 S12]. split; [exact S11|].
        rewrite S12. exact IH2. }
  intros Hrun.
  split; [|split; [|split; [|split]]].
  - intros Hne. apply (G _ _ Hrun Hne).
  - intros Hne Hex. destruct (G _ _ Hrun Hne) as [_ ->]. rewrite Hex. reflexivity.
  - intros Hnil. apply (run_without_files _ _ _ _ _ _ Hrun Hnil).
  - intros Hex. destruct (file_paths cfg tr) as [|p ps] eqn:Etr.
    + apply (run_without_files _ _ _ _ _ _ Hrun Etr).
    + destruct (G _ _ Hrun) as [_ ->]; [rewrite Etr; discriminate|].
      rewrite Hex. reflexivity.
  - destruct (file_paths cfg tr) as [|p ps] eqn:Etr.
    + rewrite (proj1 (run_without_files _ _ _ _ _ _ Hrun Etr)).
      apply union_subseteq_r.
    + destruct (G _ _ Hrun) as [_ ->]; [rewrite Etr; discriminate|].
      destruct (existsSync (tempDir cfg) d); [apply union_subseteq_r | reflexivity].
Qed.

Lemma temp_dir_created_on_first_file_witness :
  exists s,
    run IndexJs nested_cfg (parseMultipart sample_request Fs.empty)
        [EvField "n" "x"; EvFile "f" sample_info 1700000000000 "k3x9p";
         EvWriteOpen 0] = Some s /\
    existsSync "/var/lib/uploads/" Fs.empty = false /\
    existsSync "/var/lib/uploads/" (disk s) = true /\
    dirs (disk s) = made_dirs "/var/lib/uploads/" ∪ dirs Fs.empty /\
    existsSync "/var" (disk s) = true /\
    existsSync "/var/lib" (disk s) = true /\
    existsSync "/var/lib/uploads" (disk s) = true /\
    existsSync "/var/lib/uploads/upload_1700000000000_k3x9p" (disk s) = true.
Proof.
  eexists. split; [vm_compute; reflexivity|]. split; [reflexivity|].
  destruct (temp_dir_created_on_first_file IndexJs nested_cfg sample_request Fs.empty
    [EvField "n" "x"; EvFile "f" sample_info 1700000000000 "k3x9p"; EvWriteOpen 0] _
    ltac:(vm_compute; reflexivity)) as (H1 & H2 & _).
  split; [apply H1; discriminate|].
  split; [apply H2; [discriminate | reflexivity]|].
  repeat split; vm_compute; reflexivity.
Defined.

(** ** Bytes on disk *)

Lemma delivered_snoc n tr e :
  delivered n (tr ++ [e]) =
  delivered n tr ++ match e with
                    | EvFileData m chunk => if Nat.eqb m n then chunk else []
                    | _ => []
                    end.
Proof.
  unfold delivered. rewrite omap_app, concat_app. f_equal.
  destruct e; simpl; try reflexivity.
  destruct (Nat.eqb n0 n); simpl; [apply app_nil_r | reflexivity].
Qed.

(** A chunk on write stream [n]: held while the file is opening, otherwise
    the stream is as it was; a flushed stream gets none. *)
Lemma step_data v cfg s n chunk s' k :
  step v cfg s (EvFileData n chunk) = Some s' ->
  sinks s !! n = Some k ->
  sinks s' !! n =
    Some {| sink_obj := sink_obj k;
            sink_status := match sink_status k with
                           | Opening held => Opening (held ++ chunk)
                           | w => w
                           end |} /\
  sink_status k <> Finished.
Proof.
  intros H Hn. unfold step in H. rewrite Hn in H. simpl in H.
  destruct (negb (bb s)); [discriminate|].
  destruct k as [o w]. simpl in *.
  destruct w; try discriminate; injection H as <-; simpl;
    (split; [|discriminate]); try exact Hn.
  unfold set_status. simpl. rewrite list_lookup_alter_eq, Hn. reflexivity.
Qed.

(** The paths of the write streams of a run are the generated paths, in
    order. *)
Lemma run_sink_paths v cfg r d tr s :
  run v cfg (parseMultipart r d) tr = Some s ->
  (fun k => _tempPath (sink_obj k)) <$> sinks s = file_paths cfg tr.
Proof.
  intros Hrun. destruct (run_effect _ _ _ _ _ _ Hrun) as (Ht & _).
  rewrite <- (inv_paths _ (inv_run _ _ _ _ _ _ Hrun)). exact Ht.
Qed.

(** While the generated names are distinct, every write stream that was not
    destroyed and has not failed has exactly the bytes its file stream
    produced, and no stream that does not exist yet has produced any. *)
Lemma run_disk v cfg r d tr s :
  run v cfg (parseMultipart r d) tr = Some s ->
  NoDup (file_paths cfg tr) ->
  (forall n k, sinks s !! n = Some k -> stored s k (delivered n tr)) /\
  (forall n, (length (sinks s) <= n)%nat -> delivered n tr = []).
Proof.
  apply (run_trace_ind v cfg (parseMultipart r d) (fun tr s =>
    NoDup (file_paths cfg tr) ->
    (forall n k, sinks s !! n = Some k -> stored s k (delivered n tr)) /\
    (forall n, (length (sinks s) <= n)%nat -> delivered n tr = []))).
  - intros _. split; [|reflexivity].
    intros n k Hn. unfold parseMultipart in Hn.
    destruct (negb (is_multipart r)); [|destruct (bb_throws r)];
      simpl in Hn; discriminate.
  - clear tr s. intros tr s e s' Hrun IH Hstep Hnd.
    rewrite file_paths_app in Hnd.
    apply NoDup_app in Hnd as (Hnd & Hdisj & _).
    destruct (IH Hnd) as [IHa IHb]. clear IH.
    pose proof (run_sink_paths _ _ _ _ _ _ Hrun) as Hpaths.
    pose proof (step_contents _ _ _ _ _ Hstep) as Hc.
    destruct (step_effect _ _ _ _ _ Hstep) as (_ & Hlen & _).
    assert (Hinj : forall n m k km, sinks s !! n = Some k -> sinks s !! m = Some km ->
                   n <> m -> _tempPath (sink_obj k) <> _tempPath (sink_obj km)).
    { intros n m k km Hn Hm Hne Heq. apply Hne. rewrite <- Hpaths in Hnd.
      eapply NoDup_lookup; [exact Hnd| |];
        rewrite list_lookup_fmap; [rewrite Hn | rewrite Hm]; simpl;
        [reflexivity | congruence]. }
    split.
    + intros n k' Hn'. rewrite delivered_snoc.
      destruct (sinks s !! n) as [k|] eqn:Hn.
      * specialize (IHa _ _ Hn).
        destruct (step_sink _ _ _ _ _ _ _ Hstep Hn) as (k0 & Hn0 & Hobj & Hmv).
        rewrite Hn' in Hn0. injection Hn0 as <-.
        unfold stored in *. rewrite Hobj, Hc.
        destruct e as [| | | | | |m chunk|m|m|m|m ?];
          try (rewrite app_nil_r;
               destruct Hmv as [->|Hmv]; [exact IHa|];
               destruct (sink_status k), (sink_status k'); simpl in Hmv;
               try contradiction; try exact I; try exact IHa;
               try (destruct Hmv as (? & ? & ?); discriminate);
               try (destruct Hmv as (? & ?); discriminate);
               discriminate); clear Hc.
        -- (* a chunk *)
           destruct (Nat.eqb_spec m n) as [->|Hne].
           ++ destruct (step_data _ _ _ _ _ _ _ Hstep Hn) as [Hk' Hnf].
              rewrite Hn' in Hk'. injection Hk' as ->. simpl. rewrite Hn.
              destruct (sink_status k); try exact I.
              ** rewrite IHa. reflexivity.
              ** rewrite lookup_alter_eq, IHa. reflexivity.
              ** contradiction.
           ++ rewrite app_nil_r.
              assert (Hst : sink_status k' = sink_status k).
              { destruct Hmv as [->|Hmv]; [reflexivity|]. exfalso.
                destruct (sink_status k), (sink_status k'); simpl in Hmv;
                  try contradiction; try discriminate;
                  try (destruct Hmv as (? & ? & ?); congruence);
                  destruct Hmv as (? & ?); discriminate. }
              rewrite Hst.
              destruct (sinks s !! m) as [km|] eqn:Hm; [|exact IHa].
              destruct (sink_status km); try exact IHa.
              destruct (sink_status k); try exact I; try exact IHa;
                rewrite lookup_alter_ne; [exact IHa | | exact IHa | ];
                apply (Hinj m n km k Hm Hn Hne).
        -- (* the file is open *)
           rewrite app_nil_r.
           destruct (decide (m = n)) as [->|Hne].
           ++ rewrite Hn.
              destruct Hmv as [Hst|Hmv].
              ** rewrite Hst.
                 destruct (sink_status k); try exact I; exact IHa.
              ** destruct (sink_status k), (sink_status k'); simpl in Hmv;
                   try contradiction; try exact I;
                   try (destruct Hmv as (? & ? & ?); discriminate);
                   try (destruct Hmv as (? & ?); discriminate);
                   try discriminate.
                 rewrite lookup_insert_eq, IHa. reflexivity.
           ++ assert (Hst : sink_status k' = sink_status k).
              { destruct Hmv as [->|Hmv]; [reflexivity|]. exfalso.
                destruct (sink_status k), (sink_status k'); simpl in Hmv;
                  try contradiction; try congruence;
                  try (destruct Hmv as (? & ? & ?); discriminate);
                  destruct Hmv as (? & ?); discriminate. }
              rewrite Hst.
              destruct (sinks s !! m) as [km|] eqn:Hm; [|exact IHa].
              destruct (sink_status km); try exact IHa;
                (destruct (sink_status k); try exact I; try exact IHa;
                 rewrite lookup_insert_ne; [exact IHa | | exact IHa | ];
                 apply (Hinj m n km k Hm Hn Hne)).
      * destruct (step_new_sink _ _ _ _ _ _ _ Hstep Hn Hn') as (-> & Hop & Hp).
        unfold stored. rewrite Hop, (IHb (length (sinks s))) by lia.
        destruct e; simpl in Hp; try discriminate. reflexivity.
    + intros n Hge. rewrite delivered_snoc, IHb by lia. simpl.
      destruct e; try reflexivity.
      destruct (Nat.eqb_spec n0 n) as [->|]; [|reflexivity].
      exfalso. unfold step in Hstep.
      destruct (sinks s !! n) eqn:Hm;
        [apply lookup_lt_Some in Hm; lia
        | simpl in Hstep; destruct (negb (bb s)); discriminate].
Qed.

(** X11.  Reading back: while the generated names are distinct, [toBuffer]
    on a descriptor in [files] resolves with exactly the bytes the part's
    file stream produced, in order, and its [size] is their number. *)
Theorem flushed_file_reads_back v cfg r d tr s i n f :
  run v cfg (parseMultipart r d) tr = Some s ->
  NoDup (file_paths cfg tr) ->
  flush_order tr !! i = Some n ->
  st_files s !! i = Some f ->
  toBuffer f (disk s) = Resolved (delivered n tr) /\
  size f (disk s) = Z.of_nat (length (delivered n tr)).
Proof.
  intros Hrun Hnd Hi Hf.
  destruct (run_flush _ _ _ _ _ _ Hrun) as (Hfs & HF & _).
  destruct (run_disk _ _ _ _ _ _ Hrun Hnd) as [Hdisk _].
  assert (H : Some <$> st_files s =
              (fun n => sink_obj <$> sinks s !! n) <$> flush_order tr).
  { rewrite Hfs. apply omap_all_some. eapply Forall_impl; [exact HF|].
    intros m Hm. simpl in Hm. destruct (sinks s !! m); [eauto | discriminate]. }
  assert (H1 : (Some <$> st_files s) !! i = Some (Some f))
    by (rewrite list_lookup_fmap, Hf; reflexivity).
  rewrite H, list_lookup_fmap, Hi in H1. simpl in H1.
  pose proof (proj1 (Forall_forall _ _) HF n
                (list_elem_of_lookup_2 _ _ _ Hi)) as Hst. simpl in Hst.
  destruct (sinks s !! n) as [k|] eqn:Hk; [|discriminate].
  simpl in H1, Hst. injection H1 as <-. injection Hst as Hst.
  specialize (Hdisk n k Hk). unfold stored in Hdisk. rewrite Hst in Hdisk.
  unfold toBuffer, size, statSync_size. rewrite Hdisk. split; reflexivity.
Qed.

Lemma flushed_file_reads_back_witness :
  exists s f,
    run IndexJs sample_cfg (parseMultipart sample_request Fs.empty)
      [EvFile "a" sample_info 1700000000000 "k3x9p"; EvFileData 0 [Byte.x48];
       EvWriteOpen 0;
       EvFile "b" bare_info 1700000000001 "q7"; EvWriteOpen 1; EvFileData 1 [Byte.x21];
       EvFileData 0 [Byte.x69]; EvWriteFinish 1; EvWriteFinish 0; EvFinish]
      = Some s /\
    st_files s !! 1%nat = Some f /\
    toBuffer f (disk s) = Resolved [Byte.x48; Byte.x69] /\
    size f (disk s) = 2.
Proof.
  eexists _, _. split; [vm_compute; reflexivity|]. split; [reflexivity|].
  eapply (flushed_file_reads_back IndexJs sample_cfg sample_request Fs.empty
    [EvFile "a" sample_info 1700000000000 "k3x9p"; EvFileData 0 [Byte.x48];
     EvWriteOpen 0;
     EvFile "b" bare_info 1700000000001 "q7"; EvWriteOpen 1; EvFileData 1 [Byte.x21];
     EvFileData 0 [Byte.x69]; EvWriteFinish 1; EvWriteFinish 0; EvFinish]
    _ 1%nat 0%nat).
  - vm_compute; reflexivity.
  - apply (bool_decide_unpack _). vm_compute. reflexivity.
  - reflexivity.
  - reflexivity.
Defined.

(** ** What the parse leaves alone *)

Lemma run_frame v cfg r d tr s p :
  run v cfg (parseMultipart r d) tr = Some s ->
  p ∉ file_paths cfg tr ->
  contents (disk s) !! p = contents d !! p.
Proof.
  intros Hrun. revert p. revert Hrun.
  apply (run_trace_ind v cfg (parseMultipart r d) (fun tr s =>
    forall p, p ∉ file_paths cfg tr -> contents (disk s) !! p = contents d !! p)).
  - intros p _. unfold parseMultipart. destruct (negb (is_multipart r)); [|destruct (bb_throws r)]; reflexivity.
  - clear tr s. intros tr s e s' Hrun IH Hstep p Hp.
    rewrite file_paths_app in Hp. apply not_elem_of_app in Hp as [Hp1 Hp2].
    rewrite <- (IH p Hp1).
    pose proof (run_sink_paths _ _ _ _ _ _ Hrun) as Hpaths.
    rewrite (step_contents _ _ _ _ _ Hstep).
    destruct e; try reflexivity;
      (destruct (sinks s !! n) as [k|] eqn:Hk; [|reflexivity]);
      (assert (Hne : _tempPath (sink_obj k) <> p)
         by (intros <-; apply Hp1; rewrite <- Hpaths;
             apply list_elem_of_fmap; exists k; split; [reflexivity|];
             eapply list_elem_of_lookup_2, Hk));
      destruct (sink_status k); try reflexivity;
      first [apply lookup_alter_ne; exact Hne | apply lookup_insert_ne; exact Hne].
Qed.

(** X12.  The parse and the cleanup touch no file but the generated temp
    paths: any other path holds after the parse, and after the 'onResponse'
    hook, what it held before; and once the parse has resolved the hook
    leaves none of the temp paths behind. *)
Theorem parse_touches_only_temp_paths v cfg ct d tr s p :
  run v cfg (parseMultipart (fresh_request ct) d) tr = Some s ->
  p ∉ file_paths cfg tr ->
  contents (disk s) !! p = contents d !! p /\
  contents (snd (onResponse (req s) (disk s))) !! p = contents d !! p /\
  forall res q, outcome s = Resolved res -> q ∈ file_paths cfg tr ->
    contents (snd (onResponse (req s) (disk s))) !! q = None.
Proof.
  intros Hrun Hp.
  pose proof (run_frame _ _ _ _ _ _ _ Hrun Hp) as Hf.
  destruct (run_effect _ _ _ _ _ _ Hrun) as (Ht & _).
  destruct (cache_inv_run _ _ _ _ _ _ Hrun) as [Hi Hc].
  split; [exact Hf|].
  destruct (finished s && (pendingFiles s =? 0)) eqn:E.
  - destruct (cache_set _ Hc E) as [_ Hk].
    unfold onResponse, cleanupTempFiles. rewrite Hk, Ht.
    split.
    + destruct (0 <? Z.of_nat (length (file_paths cfg tr))); simpl; [|exact Hf].
      rewrite unlink_all_contents, decide_False by exact Hp. exact Hf.
    + intros res q _ Hq.
      destruct (0 <? Z.of_nat (length (file_paths cfg tr))) eqn:El; simpl.
      * rewrite unlink_all_contents, decide_True by exact Hq. reflexivity.
      * apply Z.ltb_ge in El.
        destruct (file_paths cfg tr); [inversion Hq | rewrite length_cons in El; lia].
  - destruct (cache_unset _ Hc E) as [_ Hk].
    unfold onResponse. rewrite Hk. simpl. split; [exact Hf|].
    intros res q Hr _. destruct (inv_resolved _ Hi res Hr) as [H1 H2].
    rewrite H1, H2 in E. discriminate.
Qed.

Lemma parse_touches_only_temp_paths_witness :
  let d := Fs.write "/tmp/keep" [Byte.x41] (Fs.createWriteStream "/tmp/keep" Fs.empty) in
  let tr := [EvFile "a" sample_info 1700000000000 "k3x9p"; EvWriteOpen 0; EvFileData 0 [Byte.x48];
             EvWriteFinish 0; EvFinish] in
  exists s,
    run IndexJs sample_cfg (parseMultipart sample_request d) tr = Some s /\
    contents (disk s) !! "/tmp/keep" = Some [Byte.x41] /\
    contents (snd (onResponse (req s) (disk s))) !! "/tmp/keep" = Some [Byte.x41].
Proof.
  intros d tr. eexists. split; [vm_compute; reflexivity|].
  destruct (parse_touches_only_temp_paths IndexJs sample_cfg
              (Some "multipart/form-data; boundary=----x") d tr _ "/tmp/keep"
              ltac:(vm_compute; reflexivity)) as (H1 & H2 & _).
  - apply (bool_decide_unpack _). vm_compute. reflexivity.
  - split; [exact H1 | exact H2].
Defined.

(** ** Sessions of the iterator *)

Lemma exec_snoc v cfg st acts a st' :
  exec v cfg st (acts ++ [a]) = Some st' <->
  exists st1, exec v cfg st acts = Some st1 /\ act v cfg st1 a = Some st'.
Proof.
  revert st; induction acts as [|b acts IH]; intros st; simpl.
  - destruct (act v cfg st a) as [st1|] eqn:E; simpl.
    + split; [intros [= <-]; eauto | intros (s0 & [= <-] & H); congruence].
    + split; [discriminate | intros (s0 & [= <-] & H); congruence].
  - destruct (act v cfg st b) as [st1|]; simpl; [apply IH|].
    split; [discriminate | intros (s0 & H & _); discriminate].
Qed.

Lemma exec_trace_ind v cfg st0
    (P : list action -> list Parts.answer * Parts.gstate -> Prop) :
  P [] st0 ->
  (forall acts st a st', exec v cfg st0 acts = Some st -> P acts st ->
     act v cfg st a = Some st' -> P (acts ++ [a]) st') ->
  forall acts st, exec v cfg st0 acts = Some st -> P acts st.
Proof.
  intros H0 Hstep acts. induction acts as [|a acts IH] using rev_ind; intros st Hrun.
  - injection Hrun as <-. exact H0.
  - apply exec_snoc in Hrun as (st1 & Hrun & Ha). eauto.
Qed.

Lemma made_from_app v n tr1 tr2 :
  made_from v n (tr1 ++ tr2) =
  made_from v n tr1 ++ made_from v (n + nfiles tr1) tr2.
Proof.
  revert n; induction tr1 as [|e tr1 IH]; intros n; simpl.
  - rewrite Nat.add_0_r. reflexivity.
  - rewrite IH, <- app_assoc. do 3 f_equal. unfold nfiles. simpl.
    destruct (is_file e); simpl; lia.
Qed.

Lemma made_snoc v tr e :
  made v (tr ++ [e]) = made v tr ++ option_list (part_of v (nfiles tr) e).
Proof.
  unfold made. rewrite made_from_app. simpl. rewrite app_nil_r. reflexivity.
Qed.

Lemma nfiles_snoc tr e :
  nfiles (tr ++ [e]) = if is_file e then S (nfiles tr) else nfiles tr.
Proof.
  unfold nfiles. rewrite List.filter_app, length_app. simpl.
  destruct (is_file e); simpl; lia.
Qed.

(** What a handler does to the queue and to the number of streams. *)
Lemma step_parts v cfg s e g' :
  Parts.step v cfg (Parts.Running s) e = Some g' ->
  exists s', g' = Parts.Running s' /\
    Parts.parts s' = Parts.parts s ++ option_list (part_of v (length (Parts.streams s)) e) /\
    length (Parts.streams s') =
      (if is_file e then S (length (Parts.streams s)) else length (Parts.streams s)).
Proof.
  intros H. destruct e; simpl in H;
    try (destruct v; injection H as <-; (eexists; split; [reflexivity|]); simpl;
         rewrite ?app_nil_r, ?length_app; simpl; split; (reflexivity || lia)).
  - destruct (Parts.streams s !! n) as [p|]; simpl in H; [|discriminate].
    destruct (Parts.ended p || bool_decide (is_Some (Parts.destroyed p)));
      [discriminate|].
    injection H as <-. eexists; split; [reflexivity|].
    unfold Parts.on_data. destruct v; simpl.
    + rewrite app_nil_r, length_insert. split; reflexivity.
    + destruct (negb (limits_fileSize cfg =? 0) && _); simpl;
        rewrite app_nil_r, length_insert; split; reflexivity.
  - destruct (Parts.streams s !! n) as [p|]; simpl in H; [|discriminate].
    destruct (Parts.ended p || bool_decide (is_Some (Parts.destroyed p)));
      [discriminate|].
    injection H as <-. eexists; split; [reflexivity|]. simpl.
    rewrite app_nil_r, length_insert. split; reflexivity.
Qed.

(** What a handler does to the error variable of the second copy. *)
Lemma step_error v cfg s e s' x :
  Parts.step v cfg (Parts.Running s) e = Some (Parts.Running s') ->
  Parts.gen_error s' = Some x ->
  Parts.gen_error s = Some x \/
  (v = Part006 /\ Parts.gen_finished s' = true /\ parts_rejection v cfg x).
Proof.
  intros H Hx. destruct e; simpl in H.
  - injection H as <-. left. exact Hx.
  - injection H as <-. left. exact Hx.
  - injection H as <-. left. exact Hx.
  - destruct v; injection H as <-; simpl in Hx; [left; exact Hx|].
    injection Hx as <-. right. simpl. auto.
  - destruct v; injection H as <-; simpl in Hx; [left; exact Hx|].
    injection Hx as <-. right. simpl. auto.
  - destruct v; injection H as <-; simpl in Hx; [left; exact Hx|].
    injection Hx as <-. right. simpl. auto.
  - destruct v; injection H as <-; simpl in Hx; [left; exact Hx|].
    injection Hx as <-. right. simpl. auto.
  - destruct (Parts.streams s !! n) as [p|]; simpl in H; [|discriminate].
    destruct (Parts.ended p || bool_decide (is_Some (Parts.destroyed p)));
      [discriminate|].
    injection H as <-. unfold Parts.on_data in *. destruct v; simpl in *.
    + left. exact Hx.
    + destruct (negb (limits_fileSize cfg =? 0) && _) eqn:E; simpl in *.
      * injection Hx as <-. right.
        apply andb_true_iff in E as [E _]. apply negb_true_iff, Z.eqb_neq in E.
        simpl. auto.
      * left. exact Hx.
  - destruct (Parts.streams s !! n) as [p|]; simpl in H; [|discriminate].
    destruct (Parts.ended p || bool_decide (is_Some (Parts.destroyed p)));
      [discriminate|].
    injection H as <-. left. exact Hx.
Qed.

Lemma step_finished v cfg s e s' :
  Parts.step v cfg (Parts.Running s) e = Some (Parts.Running s') ->
  Parts.gen_finished s = true -> Parts.gen_finished s' = true.
Proof.
  intros H Hf. destruct e; simpl in H;
    try (destruct v; injection H as <-; simpl; auto; fail).
  - destruct (Parts.streams s !! n) as [p|]; simpl in H; [|discriminate].
    destruct (Parts.ended p || bool_decide (is_Some (Parts.destroyed p)));
      [discriminate|].
    injection H as <-. unfold Parts.on_data. destruct v; simpl; [exact Hf|].
    destruct (negb (limits_fileSize cfg =? 0) && _); simpl; auto.
  - destruct (Parts.streams s !! n) as [p|]; simpl in H; [|discriminate].
    destruct (Parts.ended p || bool_decide (is_Some (Parts.destroyed p)));
      [discriminate|].
    injection H as <-. exact Hf.
Qed.

(** The five ways one pass through the generator's loops can end. *)
Lemma next_running v s x g :
  Parts.next v (Parts.Running s) = (x, g) ->
  (exists p rest, x = Parts.Yield p /\ Parts.parts s = p :: rest /\
     g = Parts.Running (Parts.shift s) /\ (v = IndexJs -> is_error_part p = false)) \/
  (x = Parts.Await /\ g = Parts.Running s) \/
  (exists e rest, v = IndexJs /\ x = Parts.Throw e /\ g = Parts.Done /\
     Parts.parts s = Parts.ErrorPart e :: rest) \/
  (exists e, v = Part006 /\ x = Parts.Throw e /\ g = Parts.Done /\
     Parts.gen_error s = Some e /\
     (Parts.gen_finished s = true -> Parts.parts s = [])) \/
  (x = Parts.Return /\ g = Parts.Done /\ Parts.parts s = []).
Proof.
  unfold Parts.next, Parts.loop. destruct v.
  - destruct (Parts.parts s) as [|p rest] eqn:Ep.
    + destruct (negb (Parts.gen_finished s) || _); intros [= <- <-]; auto 10.
    + simpl. rewrite orb_true_r.
      destruct p; intros [= <- <-]; eauto 12.
  - destruct (Parts.gen_finished s) eqn:Ef; simpl.
    + destruct (Parts.parts s) as [|p rest] eqn:Ep.
      * destruct (Parts.gen_error s) eqn:Ee; intros [= <- <-]; eauto 12.
      * intros [= <- <-]. left. exists p, rest. repeat split. discriminate.
    + destruct (Parts.gen_error s) eqn:Ee.
      * intros [= <- <-]. do 3 right. left. eexists. repeat split. discriminate.
      * destruct (Parts.parts s) as [|p rest] eqn:Ep; intros [= <- <-]; auto.
        left. exists p, rest. repeat split. discriminate.
Qed.

Lemma made_from_part006 n tr :
  Forall (fun p => is_error_part p = false) (made_from Part006 n tr).
Proof.
  revert n; induction tr as [|e tr IH]; intros n; simpl; [constructor|].
  apply Forall_app. split; [|apply IH].
  destruct e; simpl; repeat constructor.
Qed.

Lemma made_from_error v n tr e :
  Parts.ErrorPart e ∈ made_from v n tr -> v = IndexJs /\ exists m, e = Foreign m.
Proof.
  revert n; induction tr as [|a tr IH]; intros n; simpl; [intros H; inversion H|].
  intros H. apply elem_of_app in H as [H|H]; [|eapply IH, H].
  destruct a; simpl in H; try (inversion H; fail).
  - apply list_elem_of_singleton in H. discriminate.
  - apply list_elem_of_singleton in H. discriminate.
  - destruct v; simpl in H; [|inversion H].
    apply list_elem_of_singleton in H. injection H as ->. eauto.
Qed.

Lemma yielded_snoc ans x :
  yielded (ans ++ [x]) =
  yielded ans ++ match x with Parts.Yield p => [p] | _ => [] end.
Proof. unfold yielded. rewrite omap_app. destruct x; reflexivity. Qed.

Lemma thrown_snoc ans x :
  thrown (ans ++ [x]) =
  thrown ans ++ match x with Parts.Throw e => [e] | _ => [] end.
Proof. unfold thrown. rewrite omap_app. destruct x; reflexivity. Qed.

Lemma emitted_snoc acts a :
  emitted (acts ++ [a]) =
  emitted acts ++ match a with Emit e => [e] | Pull => [] end.
Proof. unfold emitted. rewrite omap_app. destruct a; reflexivity. Qed.

(** A pull on a running generator keeps the invariant. *)
Lemma session_inv_pull v cfg acts ans s x g :
  session_inv v cfg acts (ans, Parts.Running s) ->
  Parts.next v (Parts.Running s) = (x, g) ->
  session_inv v cfg (acts ++ [Pull]) (ans ++ [x], g).
Proof.
  intros (Hy & Ht & Hm & Hl & Hn & He) Hx. simpl in *.
  unfold session_inv. simpl.
  rewrite emitted_snoc, app_nil_r, yielded_snoc, thrown_snoc.
  destruct (next_running _ _ _ _ Hx)
    as [(p & rest & -> & Hp & -> & Hnp)|[[-> ->]|[(e & rest & -> & -> & -> & Hp)|
        [(e & -> & -> & -> & Hg & Hp)|(-> & -> & Hp)]]]].
  - assert (Hpe : is_error_part p = false).
    { destruct v; [auto|].
      pose proof (made_from_part006 0 (emitted acts)) as Hall.
      fold (made Part006 (emitted acts)) in Hall. rewrite Hm, Hp in Hall.
      apply Forall_app in Hall as [_ Hall]. inversion Hall; assumption. }
    split; [apply Forall_app; split; [exact Hy | repeat constructor; exact Hpe]|].
    split; [rewrite app_nil_r; exact Ht|].
    rewrite app_nil_r. simpl. rewrite Hm, Hp, <- app_assoc. auto.
  - rewrite !app_nil_r. auto 10.
  - assert (Hf : exists m, e = Foreign m).
    { eapply (made_from_error IndexJs 0 (emitted acts)).
      fold (made IndexJs (emitted acts)). rewrite Hm, Hp.
      apply elem_of_app. right. left. }
    destruct Hf as [m ->].
    split; [rewrite app_nil_r; exact Hy|].
    split; [apply Forall_app; split; [exact Ht | repeat constructor]|].
    rewrite Hn. simpl. split; [lia|]. right. exists (Foreign m), rest.
    rewrite app_nil_r, Hm, Hp. auto.
  - destruct (He e Hg) as (_ & Hfin & Hr).
    split; [rewrite app_nil_r; exact Hy|].
    split; [apply Forall_app; split; [exact Ht | repeat constructor; exact Hr]|].
    rewrite Hn. simpl. split; [lia|].
    rewrite app_nil_r, Hm, (Hp Hfin), app_nil_r. reflexivity.
  - rewrite !app_nil_r. split; [exact Hy|]. split; [exact Ht|].
    rewrite Hn. simpl. split; [lia|].
    rewrite Hm, Hp, app_nil_r. destruct v; auto.
Qed.

(** The invariant of every session of [parts]. *)
Lemma session_inv_exec v cfg r acts st :
  exec v cfg (parts r) acts = Some st -> session_inv v cfg acts st.
Proof.
  apply (exec_trace_ind v cfg (parts r) (session_inv v cfg)).
  - unfold session_inv, parts. simpl. repeat split; constructor.
  - clear acts st. intros acts [ans g] a st' _ Hinv Hact.
    destruct a as [e|]; simpl in Hact.
    + destruct (Parts.step v cfg g e) as [g'|] eqn:Hstep; simpl in Hact; [|discriminate].
      injection Hact as <-.
      destruct g as [r0|s|]; try discriminate Hstep.
      destruct Hinv as (Hy & Ht & Hm & Hl & Hn & He). simpl in *.
      destruct (step_parts _ _ _ _ _ Hstep) as (s' & -> & Hp & Hlen).
      unfold session_inv. simpl. rewrite emitted_snoc, made_snoc, nfiles_snoc.
      split; [exact Hy|]. split; [exact Ht|].
      split; [rewrite Hm, Hp, Hl, app_assoc; reflexivity|].
      split; [rewrite Hlen, Hl; reflexivity|].
      split; [exact Hn|].
      intros x Hx. destruct (step_error _ _ _ _ _ _ Hstep Hx) as [Hold|Hnew].
      * destruct (He x Hold) as (Hv & Hfin & Hr). split; [exact Hv|].
        split; [eapply step_finished; eauto | exact Hr].
      * exact Hnew.
    + destruct (Parts.next v g) as [x g'] eqn:Hx. injection Hact as <-.
      destruct g as [r0|s|].
      * destruct Hinv as (_ & _ & -> & Ha). simpl in Ha. subst ans.
        simpl in Hx. destruct (negb (is_multipart r0)).
        -- injection Hx as <- <-. unfold session_inv. simpl.
           split; [constructor|]. split; [repeat constructor|].
           split; [lia|]. destruct v; auto.
        -- destruct (bb_throws r0) as [message|].
           ++ injection Hx as <- <-. unfold session_inv. simpl.
              split; [constructor|]. split; [repeat constructor|].
              split; [lia|]. destruct v; auto.
           ++ apply (session_inv_pull v cfg [] [] Parts.empty_running); [|exact Hx].
              unfold session_inv. simpl.
              repeat split; try constructor; discriminate.
      * apply session_inv_pull with (s := s); assumption.
      * simpl in Hx. injection Hx as <- <-.
        destruct Hinv as (Hy & Ht & Hd). simpl in *.
        unfold session_inv. simpl.
        rewrite emitted_snoc, yielded_snoc, thrown_snoc, !app_nil_r. auto.
Qed.

(** X13.  The iterator is a queue: whatever the interleaving of tokenizer
    events and pulls, the parts yielded so far followed by the parts still
    queued are the entries the events asked for, in the order of the events;
    nothing is yielded twice or out of order, and an error entry is never
    yielded. *)
Theorem parts_are_yielded_in_order v cfg r acts ans g :
  exec v cfg (parts r) acts = Some (ans, g) ->
  yielded ans `prefix_of` made v (emitted acts) /\
  (forall s, g = Parts.Running s ->
     made v (emitted acts) = yielded ans ++ Parts.parts s) /\
  Forall (fun p => is_error_part p = false) (yielded ans).
Proof.
  intros H. destruct (session_inv_exec _ _ _ _ _ H) as (Hy & _ & Hg). simpl in *.
  split; [|split; [|exact Hy]].
  - destruct g as [r0|s|].
    + destruct Hg as [-> ->]. exists []. reflexivity.
    + destruct Hg as (Hm & _). exists (Parts.parts s). exact Hm.
    + destruct Hg as [_ Hd]. destruct v.
      * destruct Hd as [Hd|(e & rest & _ & Hd)]; rewrite Hd;
          [reflexivity | eexists; reflexivity].
      * rewrite Hd. reflexivity.
  - intros s ->. destruct Hg as (Hm & _). exact Hm.
Qed.

Lemma parts_are_yielded_in_order_witness :
  let acts := [Pull; Emit (Parts.SField "name" "Test User");
               Emit (Parts.SFile "file" sample_info); Pull;
               Emit (Parts.SField "email" "test@example.com"); Pull] in
  exists ans s,
    exec IndexJs sample_cfg (parts sample_request) acts = Some (ans, Parts.Running s) /\
    yielded ans = [Parts.FieldPart "name" "Test User";
                   Parts.FilePart "file" "large.txt" "7bit" "text/plain" 0 None] /\
    made IndexJs (emitted acts) =
      yielded ans ++ [Parts.FieldPart "email" "test@example.com"].
Proof.
  intros acts. eexists _, _. split; [vm_compute; reflexivity|].
  split; [reflexivity|].
  destruct (parts_are_yielded_in_order IndexJs sample_cfg sample_request acts _ _
              ltac:(vm_compute; reflexivity)) as (_ & H & _).
  exact (H _ eq_refl).
Defined.

(** X14.  How the iterator ends.  In the second copy it has then yielded
    every queued part: an error is thrown only once the queue is empty, and
    the throw inside the first loop is never reached.  In index.js it has
    either yielded everything or it threw at a queued error entry and dropped
    what was queued behind it. *)
Theorem iterator_end_and_queued_parts v cfg r acts ans :
  exec v cfg (parts r) acts = Some (ans, Parts.Done) ->
  match v with
  | Part006 => yielded ans = made Part006 (emitted acts)
  | IndexJs =>
      yielded ans = made IndexJs (emitted acts) \/
      exists e rest, thrown ans = [e] /\
        made IndexJs (emitted acts) = yielded ans ++ Parts.ErrorPart e :: rest
  end.
Proof.
  intros H. destruct (session_inv_exec _ _ _ _ _ H) as (_ & _ & _ & Hd). simpl in Hd.
  destruct v; [|symmetry; exact Hd].
  destruct Hd as [Hd|Hd]; [left; symmetry; exact Hd | right; exact Hd].
Qed.

Lemma iterator_end_and_queued_parts_witness :
  let acts := [Pull; Emit (Parts.SField "a" "1"); Emit (Parts.SError (Some "boom"));
               Emit (Parts.SField "b" "2"); Pull; Pull] in
  (exists ans,
     exec Part006 sample_cfg (parts sample_request) (acts ++ [Pull]) = Some (ans, Parts.Done) /\
     thrown ans = [Foreign (Some "boom")] /\
     yielded ans = [Parts.FieldPart "a" "1"; Parts.FieldPart "b" "2"] /\
     yielded ans = made Part006 (emitted (acts ++ [Pull]))) /\
  (exists ans,
     exec IndexJs sample_cfg (parts sample_request) acts = Some (ans, Parts.Done) /\
     thrown ans = [Foreign (Some "boom")] /\
     yielded ans = [Parts.FieldPart "a" "1"]).
Proof.
  intros acts. split.
  - eexists. split; [vm_compute; reflexivity|]. split; [reflexivity|].
    split; [reflexivity|].
    exact (iterator_end_and_queued_parts Part006 sample_cfg sample_request
             (acts ++ [Pull]) _ ltac:(vm_compute; reflexivity)).
  - eexists. split; [vm_compute; reflexivity|]. split; reflexivity.
Defined.

(** X15.  What the iterator can throw, and how often: at most one error per
    session; in index.js only the content-type error or an error of the
    tokenizer, never a limit error; in the second copy also FilesLimit,
    FieldsLimit and, when the configured file size limit is not 0,
    FileSizeLimit. *)
Theorem iterator_errors_are_classified v cfg r acts ans g :
  exec v cfg (parts r) acts = Some (ans, g) ->
  Forall (parts_rejection v cfg) (thrown ans) /\
  (length (thrown ans) <= 1)%nat /\
  (g <> Parts.Done -> thrown ans = []).
Proof.
  intros H. destruct (session_inv_exec _ _ _ _ _ H) as (_ & Ht & Hg). simpl in *.
  split; [exact Ht|]. destruct g as [r0|s|].
  - destruct Hg as [_ ->]. simpl. split; [lia | reflexivity].
  - destruct Hg as (_ & _ & Hn & _). rewrite Hn. simpl. split; [lia | reflexivity].
  - destruct Hg as [Hl _]. split; [exact Hl|]. intros Hne. contradiction.
Qed.

Lemma iterator_errors_are_classified_witness :
  let acts := [Pull; Emit (Parts.SFile "file" sample_info);
               Emit (Parts.SData 0 (repeat Byte.x78 101)); Pull; Pull; Pull] in
  exists ans g e,
    exec Part006 sample_cfg (parts sample_request) acts = Some (ans, g) /\
    thrown ans = [e] /\ parts_rejection Part006 sample_cfg e /\
    statusCode e = Some 413.
Proof.
  intros acts. eexists _, _, _. split; [vm_compute; reflexivity|].
  split; [reflexivity|].
  destruct (iterator_errors_are_classified Part006 sample_cfg sample_request acts _ _
              ltac:(vm_compute; reflexivity)) as (H & _).
  split; [|reflexivity]. inversion H; assumption.
Defined.

(** ** The bytes of a streamed part *)

Lemma chunks_of_snoc n tr e :
  chunks_of n (tr ++ [e]) =
  chunks_of n tr ++ match e with
                    | Parts.SData m chunk => if Nat.eqb m n then [chunk] else []
                    | _ => []
                    end.
Proof.
  unfold chunks_of. rewrite omap_app. f_equal.
  destruct e; simpl; try reflexivity. destruct (Nat.eqb n0 n); reflexivity.
Qed.

Lemma session_streams v cfg r acts ans g :
  exec v cfg (parts r) acts = Some (ans, g) ->
  forall s, g = Parts.Running s ->
  (forall n p, Parts.streams s !! n = Some p ->
     stream_inv v cfg (chunks_of n (emitted acts)) p) /\
  (forall n, (length (Parts.streams s) <= n)%nat -> chunks_of n (emitted acts) = []).
Proof.
  change (exec v cfg (parts r) acts = Some (ans, g) ->
          (fun acts st => forall s, st.2 = Parts.Running s ->
            (forall n p, Parts.streams s !! n = Some p ->
               stream_inv v cfg (chunks_of n (emitted acts)) p) /\
            (forall n, (length (Parts.streams s) <= n)%nat ->
               chunks_of n (emitted acts) = [])) acts (ans, g)).
  apply (exec_trace_ind v cfg (parts r)).
  - simpl. discriminate.
  - clear acts ans g. intros acts [ans g] a [ans' g'] Hexec IH Hact s' Hg'.
    simpl in *. subst g'.
    destruct a as [e|]; simpl in Hact.
    + destruct (Parts.step v cfg g e) as [g1|] eqn:Hstep; simpl in Hact; [|discriminate].
      injection Hact as <- ->.
      destruct g as [r0|s|]; try discriminate Hstep.
      destruct (IH s eq_refl) as [IHa IHb]. clear IH.
      rewrite emitted_snoc.
      destruct e; simpl in Hstep;
        try (assert (Hs : Parts.streams s' = Parts.streams s)
               by (destruct v; injection Hstep as <-; reflexivity);
             rewrite Hs; split; intros n; rewrite chunks_of_snoc, app_nil_r;
             [apply IHa | apply IHb]; fail).
      * injection Hstep as <-. simpl. split.
        -- intros n p Hn. rewrite chunks_of_snoc, app_nil_r.
           destruct (decide (n < length (Parts.streams s))%nat) as [Hlt|Hge].
           ++ rewrite lookup_app_l in Hn by exact Hlt. apply IHa, Hn.
           ++ rewrite lookup_app_r in Hn by lia.
              destruct (n - length (Parts.streams s))%nat; simpl in Hn; [|discriminate].
              injection Hn as <-. rewrite IHb by lia.
              unfold stream_inv. simpl. destruct v; auto.
        -- intros n Hn. rewrite length_app in Hn. simpl in Hn.
           rewrite chunks_of_snoc, app_nil_r. apply IHb. lia.
      * destruct (Parts.streams s !! n) as [p0|] eqn:Hp0; simpl in Hstep; [|discriminate].
        destruct (Parts.ended p0 || bool_decide (is_Some (Parts.destroyed p0))) eqn:Eb;
          [discriminate|].
        apply orb_false_iff in Eb as [_ Hd]. apply bool_decide_eq_false in Hd.
        assert (Hd' : Parts.destroyed p0 = None)
          by (destruct (Parts.destroyed p0); [exfalso; apply Hd; eauto | reflexivity]).
        pose proof (IHa _ _ Hp0) as Hinv0. unfold stream_inv in Hinv0.
        rewrite Hd' in Hinv0. destruct Hinv0 as [Hw Hfs].
        pose proof (lookup_lt_Some _ _ _ Hp0) as Hlt.
        injection Hstep as <-. split.
        -- intros m p Hm. rewrite chunks_of_snoc.
           destruct (Nat.eqb_spec n m) as [->|Hne].
           ++ unfold Parts.on_data in Hm. destruct v; simpl in Hm.
              ** rewrite list_lookup_insert_eq in Hm by exact Hlt. injection Hm as <-.
                 unfold stream_inv. simpl. rewrite Hd', Hw. auto.
              ** destruct (negb (limits_fileSize cfg =? 0) &&
                           (limits_fileSize cfg <? Parts.fileSize p0 + Z.of_nat (length chunk)))
                   eqn:Ec; simpl in Hm;
                   rewrite list_lookup_insert_eq in Hm by exact Hlt; injection Hm as <-;
                   unfold stream_inv; simpl.
                 --- apply andb_true_iff in Ec as [E1 E2].
                     apply negb_true_iff, Z.eqb_neq in E1. apply Z.ltb_lt in E2.
                     split; [reflexivity|]. split; [exact E1|].
                     exists chunk. rewrite Hw, total_snoc, <- Hfs. auto.
                 --- rewrite Hd', Hw, total_snoc, <- Hfs. auto.
           ++ rewrite app_nil_r. apply IHa.
              unfold Parts.on_data in Hm. destruct v; simpl in Hm.
              ** rewrite list_lookup_insert_ne in Hm by exact Hne. exact Hm.
              ** destruct (negb (limits_fileSize cfg =? 0) && _); simpl in Hm;
                   rewrite list_lookup_insert_ne in Hm by exact Hne; exact Hm.
        -- intros m Hm. rewrite chunks_of_snoc.
           assert (Hlen : length (Parts.streams (Parts.on_data v cfg s n p0 chunk))
                          = length (Parts.streams s)).
           { unfold Parts.on_data. destruct v; simpl; [apply length_insert|].
             destruct (negb (limits_fileSize cfg =? 0) && _); simpl; apply length_insert. }
           rewrite Hlen in Hm. rewrite IHb by exact Hm.
           destruct (Nat.eqb_spec n m); [lia | reflexivity].
      * destruct (Parts.streams s !! n) as [p0|] eqn:Hp0; simpl in Hstep; [|discriminate].
        destruct (Parts.ended p0 || bool_decide (is_Some (Parts.destroyed p0)));
          [discriminate|].
        pose proof (lookup_lt_Some _ _ _ Hp0) as Hlt.
        injection Hstep as <-. simpl. split.
        -- intros m p Hm. rewrite chunks_of_snoc, app_nil_r.
           destruct (decide (n = m)) as [->|Hne].
           ++ rewrite list_lookup_insert_eq in Hm by exact Hlt. injection Hm as <-.
              apply (IHa _ _ Hp0).
           ++ rewrite list_lookup_insert_ne in Hm by exact Hne. apply IHa, Hm.
        -- intros m Hm. rewrite length_insert in Hm.
           rewrite chunks_of_snoc, app_nil_r. apply IHb, Hm.
    + destruct (Parts.next v g) as [x g1] eqn:Hx. injection Hact as <- ->.
      rewrite emitted_snoc, app_nil_r.
      destruct g as [r0|s|].
      * destruct (session_inv_exec _ _ _ _ _ Hexec) as (_ & _ & -> & _).
        simpl in Hx. destruct (negb (is_multipart r0)); [discriminate|].
        destruct (bb_throws r0); [discriminate|].
        assert (Hs : Parts.streams s' = []).
        { change (Parts.loop v Parts.empty_running)
            with (Parts.next v (Parts.Running Parts.empty_running)) in Hx.
          destruct (next_running _ _ _ _ Hx)
            as [(p & rest & _ & _ & Hg & _)|[[_ Hg]|[(e & rest & _ & _ & Hg & _)|
                [(e & _ & _ & Hg & _)|(_ & Hg & _)]]]]; try discriminate Hg;
            injection Hg as ->; reflexivity. }
        rewrite Hs. split; [intros n p Hn; discriminate | reflexivity].
      * destruct (IH s eq_refl) as [IHa IHb].
        assert (Hs : Parts.streams s' = Parts.streams s).
        { destruct (next_running _ _ _ _ Hx)
            as [(p & rest & _ & _ & Hg & _)|[[_ Hg]|[(e & rest & _ & _ & Hg & _)|
                [(e & _ & _ & Hg & _)|(_ & Hg & _)]]]]; try discriminate Hg;
            injection Hg as ->; reflexivity. }
        rewrite Hs. split; assumption.
      * simpl in Hx. discriminate.
Qed.

(** X16.  The stream of a yielded file part holds every chunk the tokenizer
    produced for it, in order, until a chunk takes the running count past a
    non-zero limit in the second copy: that chunk is the only one held back,
    the stream is destroyed with a FileSizeLimit that names the count
    reached, and nothing follows.  index.js, and the second copy with a
    limit of 0, never hold a chunk back. *)
Theorem stream_forwards_until_limit v cfg r acts ans s n p :
  exec v cfg (parts r) acts = Some (ans, Parts.Running s) ->
  Parts.streams s !! n = Some p ->
  stream_inv v cfg (chunks_of n (emitted acts)) p /\
  (v = IndexJs \/ limits_fileSize cfg = 0 ->
   Parts.destroyed p = None /\ Parts.written p = chunks_of n (emitted acts)).
Proof.
  intros H Hn.
  destruct (session_streams _ _ _ _ _ _ H s eq_refl) as [Ha _].
  pose proof (Ha _ _ Hn) as Hi. split; [exact Hi|].
  intros Hv. unfold stream_inv in Hi.
  destruct (Parts.destroyed p) as [e|].
  - destruct Hi as (Hv6 & Hl & _). destruct Hv as [->|Hz]; [discriminate | contradiction].
  - destruct Hi as [Hw _]. auto.
Qed.

Lemma stream_forwards_until_limit_witness :
  let cfg0 := {| limits_fileSize := 0; tempDir := "/tmp" |} in
  let acts := [Pull; Emit (Parts.SFile "file" sample_info);
               Emit (Parts.SData 0 (repeat Byte.x78 100)); Pull;
               Emit (Parts.SData 0 (repeat Byte.x78 50))] in
  (exists ans s p,
     exec Part006 cfg0 (parts sample_request) acts = Some (ans, Parts.Running s) /\
     Parts.streams s !! 0%nat = Some p /\
     Parts.destroyed p = None /\
     Parts.written p = [repeat Byte.x78 100; repeat Byte.x78 50]) /\
  (exists ans s p,
     exec Part006 sample_cfg (parts sample_request) acts = Some (ans, Parts.Running s) /\
     Parts.streams s !! 0%nat = Some p /\
     Parts.destroyed p = Some (FileSizeLimit "150 bytes") /\
     Parts.written p = [repeat Byte.x78 100]).
Proof.
  intros cfg0 acts. split.
  - eexists _, _, _. split; [vm_compute; reflexivity|]. split; [reflexivity|].
    destruct (stream_forwards_until_limit Part006 cfg0 sample_request acts _ _ 0%nat _
                ltac:(vm_compute; reflexivity) eq_refl) as [_ H].
    exact (H (or_intror eq_refl)).
  - eexists _, _, _. split; [vm_compute; reflexivity|]. split; [reflexivity|].
    split; reflexivity.
Defined.

(** ** The guard of the iterator *)

(** X17.  [parts()] on a request that is not multipart: nothing happens
    until the first pull; that pull throws InvalidMultipartContentType, no
    tokenizer exists at any time, so no part is ever queued or yielded, and
    every later pull finds the generator over. *)
Theorem parts_guard_throws_on_first_pull v cfg r acts ans g :
  is_multipart r = false ->
  exec v cfg (parts r) acts = Some (ans, g) ->
  acts = repeat Pull (length acts) /\
  ans = match acts with
        | [] => []
        | _ :: rest => Parts.Throw InvalidMultipartContentType
                         :: repeat Parts.Return (length rest)
        end /\
  g = match acts with [] => Parts.NotStarted r | _ => Parts.Done end.
Proof.
  intros Hm.
  assert (Hdone : forall acts ans ans' g',
    exec v cfg (ans, Parts.Done) acts = Some (ans', g') ->
    acts = repeat Pull (length acts) /\
    ans' = ans ++ repeat Parts.Return (length acts) /\ g' = Parts.Done).
  { clear acts ans g. induction acts as [|a acts IH]; intros ans ans' g' H; simpl in H.
    - injection H as <- <-. rewrite app_nil_r. auto.
    - destruct a as [e|]; simpl in H; [discriminate|].
      destruct (IH _ _ _ H) as (Ha & Hans & Hg). simpl.
      split; [f_equal; exact Ha|]. split; [|exact Hg].
      rewrite Hans, <- app_assoc. reflexivity. }
  destruct acts as [|a acts]; simpl; intros H.
  - injection H as <- <-. auto.
  - destruct a as [e|]; simpl in H; [discriminate|].
    rewrite Hm in H. simpl in H.
    destruct (Hdone _ _ _ _ H) as (Ha & Hans & Hg).
    split; [f_equal; exact Ha|]. split; [exact Hans | exact Hg].
Qed.

Lemma parts_guard_throws_on_first_pull_witness :
  exists ans g,
    exec IndexJs sample_cfg (parts (fresh_request (Some "application/json")))
      [Pull; Pull] = Some (ans, g) /\
    ans = [Parts.Throw InvalidMultipartContentType; Parts.Return] /\
    g = Parts.Done /\
    exec IndexJs sample_cfg (parts (fresh_request (Some "application/json")))
      [Pull; Emit (Parts.SField "a" "1")] = None.
Proof.
  eexists _, _. split; [vm_compute; reflexivity|].
  destruct (parts_guard_throws_on_first_pull IndexJs sample_cfg
              (fresh_request (Some "application/json")) [Pull; Pull] _ _
              ltac:(vm_compute; reflexivity) ltac:(vm_compute; reflexivity))
    as (_ & H1 & H2).
  split; [exact H1|]. split; [exact H2|]. vm_compute. reflexivity.
Defined.
